(** * SpaceHuggers / LittleJS engine core: numeric helpers, timers, tile grid,
    raycast, entity hierarchy, physics update and the per-tick object
    traversal.

  The development is a shallow embedding of [src/build/index.js] (the
  LittleJS engine part of the build).  JavaScript numbers are modelled as
  exact rationals ([Q]): every arithmetic expression of the source is kept as
  written, rounding of IEEE doubles is not modelled.  Integer conversions
  ([x|0]) are modelled on [Z] with their 32-bit wrap-around.  The object heap
  is a finite map from object identities to records; JavaScript arrays that
  are only read and written by index are finite maps from indices. *)

From Stdlib Require Import ZArith QArith Qabs Lia Lqa List Bool.
From stdpp Require Import base option list gmap fin_maps fin_sets.

Local Open Scope Z_scope.

(** ** Numbers *)

Module Num.

Definition Qltb (a b : Q) : bool := negb (Qle_bool b a).
Definition Qgtb (a b : Q) : bool := Qltb b a.
Definition Qgeb (a b : Q) : bool := Qle_bool b a.

(** [const abs = (a)=> a < 0 ? -a : a;] *)
Definition abs (a : Q) : Q := if Qltb a 0 then (- a)%Q else a.
(** [const sign = (a)=> a < 0 ? -1 : 1;] *)
Definition sign (a : Q) : Q := if Qltb a 0 then (-1)%Q else 1%Q.
(** [const min = (a, b)=> a < b ? a : b;] *)
Definition min (a b : Q) : Q := if Qltb a b then a else b.
(** [const max = (a, b)=> a > b ? a : b;] *)
Definition max (a b : Q) : Q := if Qgtb a b then a else b.
(** [const clamp = (v, max=1, min=0)=> (ASSERT(max > min), v < min ? min : v > max ? max : v);]
    [ASSERT] is [()=>{}] in this build. *)
Definition clamp (v max min : Q) : Q :=
  if Qltb v min then min else if Qgtb v max then max else v.

(** [const percent = (v, max=1, min=0)=> max-min ? clamp((v-min) / (max-min)) : 0;] *)
Definition percent (v max min : Q) : Q :=
  if Qeq_bool (max - min) 0 then 0%Q else clamp ((v - min) / (max - min)) 1 0.
(** [const lerp = (p, max=1, min=0)=> min + clamp(p) * (max-min);] *)
Definition lerp (p max min : Q) : Q := (min + clamp p 1 0 * (max - min))%Q.

(** Integer versions, used where the source applies [abs] and [sign] to
    values that are already integers. *)
Definition absZ (a : Z) : Z := if a <? 0 then - a else a.
Definition signZ (a : Z) : Z := if a <? 0 then -1 else 1.

(** [x|0]: ToInt32, truncation toward zero followed by wrap-around into
    the signed 32-bit range. *)
Definition truncQ (q : Q) : Z := Z.quot (Qnum q) (Zpos (Qden q)).
Definition wrap32 (z : Z) : Z := (z + 2^31) mod 2^32 - 2^31.
Definition toInt32 (q : Q) : Z := wrap32 (truncQ q).

End Num.

(** ** Vector2 *)

Record Vector2 := vec { vx : Q; vy : Q }.

Module V2.
Import Num.

(** [copy()] *)
Definition copy (v : Vector2) : Vector2 := vec (vx v) (vy v).
(** [scale(s)] *)
Definition scale (v : Vector2) (s : Q) : Vector2 := vec (vx v * s) (vy v * s).
(** [add(v)] *)
Definition add (a b : Vector2) : Vector2 := vec (vx a + vx b) (vy a + vy b).
(** [subtract(v)] *)
Definition subtract (a b : Vector2) : Vector2 := vec (vx a - vx b) (vy a - vy b).
(** [multiply(v)] *)
Definition multiply (a b : Vector2) : Vector2 := vec (vx a * vx b) (vy a * vy b).
(** [lengthSquared()] *)
Definition lengthSquared (v : Vector2) : Q := vx v * vx v + vy v * vy v.
(** [arrayCheck(arraySize)]:
    [this.x >= 0 && this.y >= 0 && this.x < arraySize.x && this.y < arraySize.y] *)
Definition arrayCheck (v : Vector2) (arraySize : Z * Z) : bool :=
  Qgeb (vx v) 0 && Qgeb (vy v) 0
  && Qltb (vx v) (inject_Z (fst arraySize))
  && Qltb (vy v) (inject_Z (snd arraySize)).

(** [const isOverlapping = (pA, sA, pB, sB)=>
      abs(pA.x - pB.x)*2 < sA.x + sB.x & abs(pA.y - pB.y)*2 < sA.y + sB.y;] *)
Definition isOverlapping (pA sA pB sB : Vector2) : bool :=
  Qltb (abs (vx pA - vx pB) * 2) (vx sA + vx sB)
  && Qltb (abs (vy pA - vy pB) * 2) (vy sA + vy sB).

(** Component-wise equality of the rational coordinates. *)
Definition veq (a b : Vector2) : Prop := (vx a == vx b)%Q /\ (vy a == vy b)%Q.

(** A vector with whole-number coordinates. *)
Definition ofZ (x y : Z) : Vector2 := vec (inject_Z x) (inject_Z y).

End V2.

(** ** Timer *)

(** [class Timer]: [time] is [undefined] ([None]) for a timer that is not
    set; [setTime] is the duration given to the last [set]. *)
Record Timer := mkTimer { timerTime : option Q; timerSetTime : option Q }.

Module Timers.

Section Clock.
Import Num.
Local Open Scope Q_scope.

(** The global [time]. *)
Variable time : Q.

(** [constructor(timeLeft) { this.time = timeLeft == undefined ? undefined : time + timeLeft;
                             this.setTime = timeLeft; }] *)
Definition new (timeLeft : option Q) : Timer :=
  mkTimer (match timeLeft with None => None | Some t => Some (time + t) end) timeLeft.
(** [set(timeLeft=0) { this.time = time + timeLeft; this.setTime = timeLeft; }] *)
Definition set (timeLeft : Q) (t : Timer) : Timer := mkTimer (Some (time + timeLeft)) (Some timeLeft).
(** [unset() { this.time = undefined; }] *)
Definition unset (t : Timer) : Timer := mkTimer None (timerSetTime t).
(** [isSet() { return this.time != undefined; }] *)
Definition isSet (t : Timer) : bool := match timerTime t with Some _ => true | None => false end.
(** [active() { return time <= this.time; }]; a comparison with [undefined]
    is false. *)
Definition active (t : Timer) : bool :=
  match timerTime t with Some e => Qle_bool time e | None => false end.
(** [elapsed() { return time > this.time; }] *)
Definition elapsed (t : Timer) : bool :=
  match timerTime t with Some e => Qgtb time e | None => false end.
(** [get() { return this.isSet()? time - this.time : 0; }] *)
Definition get (t : Timer) : Q :=
  match timerTime t with Some e => time - e | None => 0 end.
(** [getPercent() { return this.isSet()? percent(this.time - time, 0, this.setTime) : 0; }];
    [percent] is reached with [setTime] a number on every timer that was set. *)
Definition getPercent (t : Timer) : Q :=
  match timerTime t, timerSetTime t with
  | Some e, Some s => percent (e - time) 0 s
  | _, _ => 0
  end.

End Clock.

End Timers.

(** ** Tile collision grid *)

(** The two globals [tileCollision] (an array indexed by [y*width + x]) and
    [tileCollisionSize].  The array is a finite map from index to code: an
    index that holds nothing reads as [undefined] ([None]).  Grid dimensions
    are whole numbers. *)
Record TileGrid := mkGrid {
  tileCollision : gmap Z Z;
  tileCollisionSize : Z * Z
}.

Module Tile.
Import Num.

(** [lo, lo+1, ..., hi], the values taken by [for(let v = lo; v <= hi; ++v)]. *)
Definition zrange (lo hi : Z) : list Z :=
  map (fun k => lo + Z.of_nat k) (seq 0 (Z.to_nat (hi - lo + 1))).

(** [initTileCollision(size)]: every index below [size.area()] is set to 0. *)
Definition initTileCollision (size : Z * Z) : TileGrid :=
  mkGrid (list_to_map (map (fun i => (i, 0)) (zrange 0 (fst size * snd size - 1)))) size.

(** The index expression [(pos.y|0)*tileCollisionSize.x+pos.x|0]. *)
Definition cellIndex (g : TileGrid) (pos : Vector2) : Z :=
  toInt32 (inject_Z (toInt32 (vy pos) * fst (tileCollisionSize g)) + vx pos).

(** [setTileCollisionData = (pos, data=0)=>
      pos.arrayCheck(tileCollisionSize) && (tileCollision[...] = data);] *)
Definition setTileCollisionData (g : TileGrid) (pos : Vector2) (data : Z) : TileGrid :=
  if V2.arrayCheck pos (tileCollisionSize g)
  then mkGrid (<[cellIndex g pos := data]> (tileCollision g)) (tileCollisionSize g)
  else g.

(** [getTileCollisionData = (pos)=>
      pos.arrayCheck(tileCollisionSize) ? tileCollision[...] : 0;] *)
Definition getTileCollisionData (g : TileGrid) (pos : Vector2) : option Z :=
  if V2.arrayCheck pos (tileCollisionSize g)
  then tileCollision g !! cellIndex g pos
  else Some 0.

(** The optional [object] argument of the two queries: the entity's
    [collideWithTile] (resp. [collideWithTileRaycast]) method, a predicate
    on the tile code and the cell position. *)
Definition TileFilter := Z -> Vector2 -> bool.

(** [EngineObject.collideWithTile(data, pos) { return data > 0; }] and
    [collideWithTileRaycast], identical in the base class. *)
Definition defaultCollideWithTile : TileFilter := fun data _ => 0 <? data.

(** Body of the inner loop of [tileCollisionTest] at cell [(x, y)]:
    [const tileData = tileCollision[y*tileCollisionSize.x + x];
     if (tileData && (!object || object.collideWithTile(tileData, new Vector2(x, y))))] *)
Definition testCell (g : TileGrid) (object : option TileFilter) (x y : Z) : bool :=
  match tileCollision g !! (y * fst (tileCollisionSize g) + x) with
  | Some tileData =>
      negb (tileData =? 0)
      && match object with
         | None => true
         | Some f => f tileData (V2.ofZ x y)
         end
  | None => false
  end.

(** [function tileCollisionTest(pos, size=vec2(), object)] *)
Definition tileCollisionTest (g : TileGrid) (pos size : Vector2)
    (object : option TileFilter) : bool :=
  let minX := toInt32 (vx pos - vx size * (1#2)) in
  let minY := toInt32 (vy pos - vy size * (1#2)) in
  let maxX := toInt32 (vx pos + vx size * (1#2)) in
  let maxY := toInt32 (vy pos + vy size * (1#2)) in
  existsb (fun y => existsb (fun x => testCell g object x y) (zrange minX maxX))
          (zrange minY maxY).

(** The cells scanned by [tileCollisionTest], in scan order. *)
Definition scannedCells (pos size : Vector2) : list (Z * Z) :=
  let minX := toInt32 (vx pos - vx size * (1#2)) in
  let minY := toInt32 (vy pos - vy size * (1#2)) in
  let maxX := toInt32 (vx pos + vx size * (1#2)) in
  let maxY := toInt32 (vy pos + vy size * (1#2)) in
  y ← zrange minY maxY; x ← zrange minX maxX; [(x, y)].

(** A cell coordinate inside [[0,width) x [0,height)]. *)
Definition inBounds (g : TileGrid) (c : Z * Z) : bool :=
  (0 <=? fst c) && (fst c <? fst (tileCollisionSize g))
  && (0 <=? snd c) && (snd c <? snd (tileCollisionSize g)).

(** *** Raycast *)

(** The acceptance test of [tileCollisionRaycast] at a cell:
    [tileData && (object ? object.collideWithTileRaycast(tileData, new Vector2(x, y))
                         : tileData > 0)] *)
Definition rayAccepts (g : TileGrid) (object : option TileFilter) (c : Z * Z) : bool :=
  match getTileCollisionData g (V2.ofZ (fst c) (snd c)) with
  | Some tileData =>
      negb (tileData =? 0)
      && match object with
         | Some f => f tileData (V2.ofZ (fst c) (snd c))
         | None => 0 <? tileData
         end
  | None => false
  end.

(** [new Vector2(x+.5, y+.5)] *)
Definition cellCenter (c : Z * Z) : Vector2 :=
  vec (inject_Z (fst c) + (1#2)) (inject_Z (snd c) + (1#2)).

(** One update of the line-drawing state:
    [const e2 = 2*e; if (e2 >= dy) e += dy, x += sx; if (e2 <= dx) e += dx, y += sy;] *)
Definition lineStep (dx dy sx sy : Z) (s : Z * Z * Z) : Z * Z * Z :=
  let '(x, y, e) := s in
  let e2 := 2 * e in
  let '(x1, e1) := if dy <=? e2 then (x + sx, e + dy) else (x, e) in
  let '(y1, e2') := if e2 <=? dx then (y + sy, e1 + dx) else (y, e1) in
  (x1, y1, e2').

(** The [for(let x = posStart.x, y = posStart.y;;)] loop.  The outer
    [option] is [None] when the fuel runs out; the inner one is the
    function's result ([undefined] when the loop leaves through [break]). *)
Fixpoint raycastLoop (fuel : nat) (g : TileGrid) (object : option TileFilter)
    (posEnd : Z * Z) (dx dy sx sy : Z) (s : Z * Z * Z) : option (option Vector2) :=
  match fuel with
  | O => None
  | S fuel' =>
      let '(x, y, e) := s in
      if rayAccepts g object (x, y) then Some (Some (cellCenter (x, y)))
      else if (x =? fst posEnd) && (y =? snd posEnd) then Some None
      else raycastLoop fuel' g object posEnd dx dy sx sy (lineStep dx dy sx sy s)
  end.

(** The cells the loop visits when no cell is accepted (the walk). *)
Fixpoint walkLoop (fuel : nat) (posEnd : Z * Z) (dx dy sx sy : Z) (s : Z * Z * Z)
    : option (list (Z * Z)) :=
  match fuel with
  | O => None
  | S fuel' =>
      let '(x, y, e) := s in
      if (x =? fst posEnd) && (y =? snd posEnd) then Some [(x, y)]
      else cons (x, y) <$> walkLoop fuel' posEnd dx dy sx sy (lineStep dx dy sx sy s)
  end.

(** [posStart.int()], [posEnd.int()] *)
Definition int (v : Vector2) : Z * Z := (toInt32 (vx v), toInt32 (vy v)).

(** Number of loop iterations that always suffices: one per cell of an
    L-shaped path plus the final one (see [walkLoop_total]). *)
Definition rayFuel (a b : Z * Z) : nat :=
  S (Z.to_nat (absZ (fst b - fst a) + absZ (snd b - snd a))).

(** [function tileCollisionRaycast(posStart, posEnd, object)] with an
    explicit iteration budget. *)
Definition tileCollisionRaycastFuel (fuel : nat) (g : TileGrid)
    (posStart posEnd : Vector2) (object : option TileFilter) : option (option Vector2) :=
  let a := int posStart in
  let b := int posEnd in
  let deltaX := fst b - fst a in
  let deltaY := snd b - snd a in
  let dx := absZ deltaX in
  let dy := - absZ deltaY in
  let sx := signZ deltaX in
  let sy := signZ deltaY in
  raycastLoop fuel g object b dx dy sx sy (fst a, snd a, dx + dy).

Definition tileCollisionRaycast (g : TileGrid) (posStart posEnd : Vector2)
    (object : option TileFilter) : option (option Vector2) :=
  tileCollisionRaycastFuel (rayFuel (int posStart) (int posEnd)) g posStart posEnd object.

(** The walk of the raycast between two integer cells. *)
Definition walk (a b : Z * Z) : option (list (Z * Z)) :=
  let deltaX := fst b - fst a in
  let deltaY := snd b - snd a in
  let dx := absZ deltaX in
  let dy := - absZ deltaY in
  walkLoop (rayFuel a b) b dx dy (signZ deltaX) (signZ deltaY) (fst a, snd a, dx + dy).

(** A grid of the given size whose only nonzero cell is [c], with code [code]. *)
Definition singleCellGrid (size : Z * Z) (c : Z * Z) (code : Z) : TileGrid :=
  setTileCollisionData (initTileCollision size) (V2.ofZ (fst c) (snd c)) code.

(** *** Notions used to state the properties of the walk *)

Section WalkState.

(** The constants of the loop: the end cell, [dx], [dy], [sx], [sy]. *)
Variables (ex ey dx dy sx sy : Z).

(** The cell that is [rx] steps in x and [ry] steps in y before the end cell. *)
Definition cellAt (rx ry : Z) : Z * Z := (ex - sx * rx, ey - sy * ry).

(** The loop state at that cell: the error term is determined by the
    remaining step counts. *)
Definition stateAt (rx ry : Z) : Z * Z * Z :=
  (ex - sx * rx, ey - sy * ry, dx + dy - ry * dx - rx * dy).

(** What the walk from a state visits. *)
Definition walkFacts (rx ry : Z) (cells : list (Z * Z)) : Prop :=
  head cells = Some (cellAt rx ry) /\
  last cells = Some (ex, ey) /\
  (forall c, c ∈ cells ->
     exists k j, 0 <= k <= rx /\ 0 <= j <= ry /\ c = cellAt k j) /\
  (forall k, 0 <= k <= rx -> exists j, 0 <= j <= ry /\ cellAt k j ∈ cells) /\
  (forall j, 0 <= j <= ry -> exists k, 0 <= k <= rx /\ cellAt k j ∈ cells).

(** The loop state [rx], [ry] steps before the end lies within half a step
    of the straight line to the end cell, measured along the longer side;
    at exactly half a step, only on the side the loop rounds to. *)
Definition nearLine (rx ry : Z) : Prop :=
  let m := Z.max dx (- dy) in
  let d := 2 * (ry * dx + rx * dy) in
  - m <= d <= m /\ (d = m -> dx <= - dy) /\ (d = - m -> - dy <= dx).

End WalkState.

(** The axis-aligned box spanned by two cells. *)
Definition inBox (a b c : Z * Z) : Prop :=
  Z.min (fst a) (fst b) <= fst c <= Z.max (fst a) (fst b) /\
  Z.min (snd a) (snd b) <= snd c <= Z.max (snd a) (snd b).

(** [inBox] as a test. *)
Definition inBoxb (a b c : Z * Z) : bool :=
  (Z.min (fst a) (fst b) <=? fst c) && (fst c <=? Z.max (fst a) (fst b))
  && (Z.min (snd a) (snd b) <=? snd c) && (snd c <=? Z.max (snd a) (snd b)).

(** How far cell [c] is off the straight line from cell [a] to cell [b]:
    for a cell [i] columns and [j] rows away from [a], and a line that spans
    [w] columns and [h] rows, it is [i*h - j*w] (0 on the line, positive
    when the cell has fewer rows behind it than the line has at that
    column). *)
Definition offLine (a b c : Z * Z) : Z :=
  absZ (fst c - fst a) * absZ (snd b - snd a)
  - absZ (snd c - snd a) * absZ (fst b - fst a).

(** The cells of the rasterised line from [a] to [b], in closed form: the
    cells of the box of [a] and [b] at most half a step off the line along
    its longer side ([|2*offLine| <= max w h]); of the two cells that are
    exactly half a step off, only the one further from [a] along the
    shorter side. *)
Definition onLine (a b c : Z * Z) : bool :=
  let w := absZ (fst b - fst a) in
  let h := absZ (snd b - snd a) in
  let m := Z.max w h in
  let d := 2 * offLine a b c in
  inBoxb a b c && (- m <=? d) && (d <=? m)
  && implb (d =? m) (w <=? h) && implb (d =? - m) (h <=? w).

(** [c] is the only cell of the grid that a raycast without filter accepts,
    that is the only cell with a positive code. *)
Definition onlySolid (g : TileGrid) (c : Z * Z) : Prop :=
  forall c', rayAccepts g None c' = true <-> c' = c.

(** [c] is visited by the walk from [a] to [b] and is neither end cell. *)
Definition strictlyBetween (a b c : Z * Z) : Prop :=
  exists cells, walk a b = Some cells /\ c ∈ cells /\ c <> a /\ c <> b.

(** The array holds exactly the cells of the grid, as it does after
    [initTileCollision] and any number of [setTileCollisionData]. *)
Definition wellFormed (g : TileGrid) : Prop :=
  forall i, is_Some (tileCollision g !! i)
            <-> 0 <= i < fst (tileCollisionSize g) * snd (tileCollisionSize g).

(** What [tileCollisionTest] is meant to find at a cell: a nonzero code,
    read with the bounds check of [getTileCollisionData], that the filter
    accepts. *)
Definition collidesAt (g : TileGrid) (object : option TileFilter) (x y : Z) : Prop :=
  exists tileData,
    getTileCollisionData g (V2.ofZ x y) = Some tileData /\ tileData <> 0 /\
    match object with
    | None => True
    | Some f => f tileData (V2.ofZ x y) = true
    end.

End Tile.

(** ** Entities *)

(** Object identities: references into the heap. *)
Definition id := nat.

(** The values [groundObject] takes: falsy ([0], [false], [undefined]),
    [true] (landed on tiles) or a reference to the supporting object. *)
Inductive Ground :=
| GroundNone
| GroundTile
| GroundObject (o : id).

Module EO.

(** The fields of [EngineObject] that the simulation reads or writes (the
    rendering fields [tileIndex], [tileSize], [color], [renderOrder] and
    [spawnTime] are left out).  [parent] is [None] for [0]/[undefined]. *)
Record EngineObject := mkObject {
  pos : Vector2;
  size : Vector2;
  angle : Q;
  mirror : bool;
  velocity : Vector2;
  angleVelocity : Q;
  mass : Q;
  damping : Q;
  angleDamping : Q;
  elasticity : Q;
  friction : Q;
  gravityScale : Q;
  collideSolidObjects : bool;
  isSolid : bool;
  collideTiles : bool;
  groundObject : Ground;
  parent : option id;
  children : list id;
  localPos : Vector2;
  localAngle : Q;
  destroyed : bool
}.

(** Field write [o.pos = v]. *)
Definition set_pos (v : Vector2) (o : EngineObject) : EngineObject :=
  mkObject v (size o) (angle o) (mirror o) (velocity o) (angleVelocity o) (mass o)
    (damping o) (angleDamping o) (elasticity o) (friction o) (gravityScale o)
    (collideSolidObjects o) (isSolid o) (collideTiles o) (groundObject o) (parent o)
    (children o) (localPos o) (localAngle o) (destroyed o).

(** Field write [o.angle = v]. *)
Definition set_angle (v : Q) (o : EngineObject) : EngineObject :=
  mkObject (pos o) (size o) v (mirror o) (velocity o) (angleVelocity o) (mass o)
    (damping o) (angleDamping o) (elasticity o) (friction o) (gravityScale o)
    (collideSolidObjects o) (isSolid o) (collideTiles o) (groundObject o) (parent o)
    (children o) (localPos o) (localAngle o) (destroyed o).

(** Field write [o.velocity = v]. *)
Definition set_velocity (v : Vector2) (o : EngineObject) : EngineObject :=
  mkObject (pos o) (size o) (angle o) (mirror o) v (angleVelocity o) (mass o)
    (damping o) (angleDamping o) (elasticity o) (friction o) (gravityScale o)
    (collideSolidObjects o) (isSolid o) (collideTiles o) (groundObject o) (parent o)
    (children o) (localPos o) (localAngle o) (destroyed o).

(** Field write [o.angleVelocity = v]. *)
Definition set_angleVelocity (v : Q) (o : EngineObject) : EngineObject :=
  mkObject (pos o) (size o) (angle o) (mirror o) (velocity o) v (mass o) (damping o)
    (angleDamping o) (elasticity o) (friction o) (gravityScale o)
    (collideSolidObjects o) (isSolid o) (collideTiles o) (groundObject o) (parent o)
    (children o) (localPos o) (localAngle o) (destroyed o).

(** Field write [o.groundObject = v]. *)
Definition set_groundObject (v : Ground) (o : EngineObject) : EngineObject :=
  mkObject (pos o) (size o) (angle o) (mirror o) (velocity o) (angleVelocity o)
    (mass o) (damping o) (angleDamping o) (elasticity o) (friction o) (gravityScale o)
    (collideSolidObjects o) (isSolid o) (collideTiles o) v (parent o) (children o)
    (localPos o) (localAngle o) (destroyed o).

(** Field write [o.parent = v]. *)
Definition set_parent (v : option id) (o : EngineObject) : EngineObject :=
  mkObject (pos o) (size o) (angle o) (mirror o) (velocity o) (angleVelocity o)
    (mass o) (damping o) (angleDamping o) (elasticity o) (friction o) (gravityScale o)
    (collideSolidObjects o) (isSolid o) (collideTiles o) (groundObject o) v
    (children o) (localPos o) (localAngle o) (destroyed o).

(** Field write [o.children = v]. *)
Definition set_children (v : list id) (o : EngineObject) : EngineObject :=
  mkObject (pos o) (size o) (angle o) (mirror o) (velocity o) (angleVelocity o)
    (mass o) (damping o) (angleDamping o) (elasticity o) (friction o) (gravityScale o)
    (collideSolidObjects o) (isSolid o) (collideTiles o) (groundObject o) (parent o) v
    (localPos o) (localAngle o) (destroyed o).

(** Field write [o.localPos = v]. *)
Definition set_localPos (v : Vector2) (o : EngineObject) : EngineObject :=
  mkObject (pos o) (size o) (angle o) (mirror o) (velocity o) (angleVelocity o)
    (mass o) (damping o) (angleDamping o) (elasticity o) (friction o) (gravityScale o)
    (collideSolidObjects o) (isSolid o) (collideTiles o) (groundObject o) (parent o)
    (children o) v (localAngle o) (destroyed o).

(** Field write [o.localAngle = v]. *)
Definition set_localAngle (v : Q) (o : EngineObject) : EngineObject :=
  mkObject (pos o) (size o) (angle o) (mirror o) (velocity o) (angleVelocity o)
    (mass o) (damping o) (angleDamping o) (elasticity o) (friction o) (gravityScale o)
    (collideSolidObjects o) (isSolid o) (collideTiles o) (groundObject o) (parent o)
    (children o) (localPos o) v (destroyed o).

(** Field write [o.destroyed = v]. *)
Definition set_destroyed (v : bool) (o : EngineObject) : EngineObject :=
  mkObject (pos o) (size o) (angle o) (mirror o) (velocity o) (angleVelocity o)
    (mass o) (damping o) (angleDamping o) (elasticity o) (friction o) (gravityScale o)
    (collideSolidObjects o) (isSolid o) (collideTiles o) (groundObject o) (parent o)
    (children o) (localPos o) (localAngle o) v.

(** Field write [o.collideSolidObjects = v]. *)
Definition set_collideSolidObjects (v : bool) (o : EngineObject) : EngineObject :=
  mkObject (pos o) (size o) (angle o) (mirror o) (velocity o) (angleVelocity o)
    (mass o) (damping o) (angleDamping o) (elasticity o) (friction o) (gravityScale o)
    v (isSolid o) (collideTiles o) (groundObject o) (parent o) (children o)
    (localPos o) (localAngle o) (destroyed o).

(** Field write [o.isSolid = v]. *)
Definition set_isSolid (v : bool) (o : EngineObject) : EngineObject :=
  mkObject (pos o) (size o) (angle o) (mirror o) (velocity o) (angleVelocity o)
    (mass o) (damping o) (angleDamping o) (elasticity o) (friction o) (gravityScale o)
    (collideSolidObjects o) v (collideTiles o) (groundObject o) (parent o)
    (children o) (localPos o) (localAngle o) (destroyed o).

(** Field write [o.collideTiles = v]. *)
Definition set_collideTiles (v : bool) (o : EngineObject) : EngineObject :=
  mkObject (pos o) (size o) (angle o) (mirror o) (velocity o) (angleVelocity o)
    (mass o) (damping o) (angleDamping o) (elasticity o) (friction o) (gravityScale o)
    (collideSolidObjects o) (isSolid o) v (groundObject o) (parent o) (children o)
    (localPos o) (localAngle o) (destroyed o).

(** [constructor(pos, size=defaultObjectSize, ..., angle=0, color)]: the
    physics defaults [defaultObjectMass = 1], [defaultObjectDamping = .99],
    [defaultObjectAngleDamping = .99], [defaultObjectElasticity = 0],
    [defaultObjectFriction = .8]; [velocity = vec2(0)],
    [collideSolidObjects = angleVelocity = 0], [collideTiles = gravityScale = 1],
    [children = []].  [mirror], [isSolid], [groundObject], [parent] and
    [destroyed] start undefined (falsy); [localPos] and [localAngle] are
    not read before [addChild] assigns them. *)
Definition defaultObjectSize : Vector2 := vec (999#1000) (999#1000).

Definition construct (pos size : Vector2) (angle : Q) : EngineObject :=
  {| pos := V2.copy pos; size := size; angle := angle; mirror := false;
     velocity := vec 0 0; angleVelocity := 0;
     mass := 1; damping := 99#100; angleDamping := 99#100;
     elasticity := 0; friction := 8#10; gravityScale := 1;
     collideSolidObjects := false; isSolid := false; collideTiles := true;
     groundObject := GroundNone;
     parent := None; children := []; localPos := vec 0 0; localAngle := 0;
     destroyed := false |}.

(** [getMirrorSign(s=1) { return this.mirror ? -s : s; }] *)
Definition getMirrorSign (o : EngineObject) : Q := if mirror o then (-1)%Q else 1%Q.

(** [isFixed() { return !this.mass; }] *)
Definition isFixed (o : EngineObject) : bool := Qeq_bool (mass o) 0.

End EO.

Export EO.

(** A reference that is read before any object was stored under it stands
    for a freshly constructed object at the origin. *)
#[export] Instance EngineObject_inhabited : Inhabited EngineObject :=
  populate (construct (vec 0 0) defaultObjectSize 0).

(** ** The world: the engine's global state *)

(** The heap of objects, the two registries [engineObjects] and
    [engineCollideObjects], the tile collision grid, the [frame] counter
    ([time] is [frame / FPS]) and the number of [Math.random()] calls made
    so far. *)
Record World := mkWorld {
  heap : gmap id EngineObject;
  engineObjects : list id;
  engineCollideObjects : list id;
  grid : TileGrid;
  frame : Z;
  randomCalls : nat
}.

Definition set_heap (h : gmap id EngineObject) (w : World) : World :=
  mkWorld h (engineObjects w) (engineCollideObjects w) (grid w) (frame w) (randomCalls w).
Definition set_engineObjects (l : list id) (w : World) : World :=
  mkWorld (heap w) l (engineCollideObjects w) (grid w) (frame w) (randomCalls w).
Definition set_engineCollideObjects (l : list id) (w : World) : World :=
  mkWorld (heap w) (engineObjects w) l (grid w) (frame w) (randomCalls w).
Definition set_frame (f : Z) (w : World) : World :=
  mkWorld (heap w) (engineObjects w) (engineCollideObjects w) (grid w) f (randomCalls w).
Definition set_randomCalls (n : nat) (w : World) : World :=
  mkWorld (heap w) (engineObjects w) (engineCollideObjects w) (grid w) (frame w) n.

(** Dereference [o]. *)
Definition getObj (w : World) (o : id) : EngineObject := heap w !!! o.

(** Write fields of the object [o] in place. *)
Definition modify (o : id) (f : EngineObject -> EngineObject) (w : World) : World :=
  set_heap (alter f o (heap w)) w.

(** [new EngineObject(pos, size, ..., angle)]: the object is stored under a
    fresh identity and pushed onto [engineObjects]. *)
Definition newObject (pos size : Vector2) (angle : Q) (w : World) : id * World :=
  let o := fresh (dom (heap w)) in
  (o, set_engineObjects (engineObjects w ++ [o])
        (set_heap (<[o := construct pos size angle]> (heap w)) w)).

(** The empty world over a tile grid. *)
Definition emptyWorld (g : TileGrid) : World := mkWorld ∅ [] [] g 0 0.

(** ** Hierarchy: [addChild], [removeChild], [destroy] *)

Module Hierarchy.

(** [Array.prototype.indexOf]: the first index holding [c], or [-1]. *)
Fixpoint indexOf (c : id) (l : list id) : Z :=
  match l with
  | [] => -1
  | x :: l' => if decide (x = c) then 0
               else let i := indexOf c l' in if i <? 0 then -1 else 1 + i
  end.

(** [Array.prototype.splice(start, 1)]: a negative [start] counts from the
    end of the array (so [-1] removes the last element). *)
Definition splice1 (start : Z) (l : list id) : list id :=
  let n := Z.of_nat (length l) in
  let s := if start <? 0 then Z.max (n + start) 0 else Z.min start n in
  take (Z.to_nat s) l ++ drop (S (Z.to_nat s)) l.

(** [addChild(child, localPos=vec2(), localAngle=0)];
    [ASSERT(!child.parent && !this.children.includes(child))] does nothing in
    this build. *)
Definition addChild (this child : id) (localPos : Vector2) (localAngle : Q) (w : World) : World :=
  let w1 := modify this (fun o => set_children (children o ++ [child]) o) w in
  modify child (fun o => set_localAngle localAngle
                           (set_localPos (V2.copy localPos) (set_parent (Some this) o))) w1.


(** [removeChild(child)]:
    [this.children.splice(this.children.indexOf(child), 1); child.parent = 0;] *)
Definition removeChild (this child : id) (w : World) : World :=
  let w1 := modify this (fun o => set_children (splice1 (indexOf child (children o)) (children o)) o) w in
  modify child (set_parent None) w1.


(** The two control points of [destroy()]: the entry of the method on an
    object, and the [i]-th iteration of its [for(const child of this.children)]
    loop.  The array iterator reads the array afresh at every step. *)
Inductive DestroyTask :=
| DestroyCall (this : id)
| DestroyLoop (this : id) (i : nat).

(** [destroy()]:
    [if (this.destroyed) return;
     this.destroyed = 1;
     this.parent && this.parent.removeChild(this);
     for(const child of this.children)
         child.destroy(child.parent = 0);]
    [None] is returned when the fuel runs out. *)
Fixpoint destroyRun (fuel : nat) (t : DestroyTask) (w : World) : option World :=
  match fuel with
  | O => None
  | S fuel' =>
      match t with
      | DestroyCall this =>
          if destroyed (getObj w this) then Some w
          else
            let w1 := modify this (set_destroyed true) w in
            let w2 := match parent (getObj w1 this) with
                      | Some p => removeChild p this w1
                      | None => w1
                      end in
            destroyRun fuel' (DestroyLoop this 0) w2
      | DestroyLoop this i =>
          match children (getObj w this) !! i with
          | None => Some w
          | Some child =>
              match destroyRun fuel' (DestroyCall child) (modify child (set_parent None) w) with
              | Some w' => destroyRun fuel' (DestroyLoop this (S i)) w'
              | None => None
              end
          end
      end
  end.

(** The objects of the heap that are not destroyed. *)
Definition alive (w : World) : gset id :=
  filter (fun o => destroyed (getObj w o) = false) (dom (heap w)).

(** The longest [children] array of the heap. *)
Definition maxChildren (w : World) : nat :=
  max_list ((fun kv => length (children (snd kv))) <$> map_to_list (heap w)).

(** An iteration budget that always suffices for [destroy] (see
    [destroy_total]). *)
Definition destroyFuel (w : World) : nat :=
  (2 + base.size (alive w) * (maxChildren w + 2))%nat.

Definition destroy (this : id) (w : World) : option World :=
  destroyRun (destroyFuel w) (DestroyCall this) w.

(** The three hierarchy operations as commands. *)
Inductive Op :=
| OpAddChild (this child : id) (localPos : Vector2) (localAngle : Q)
| OpRemoveChild (this child : id)
| OpDestroy (this : id).

Definition runOp (op : Op) (w : World) : option World :=
  match op with
  | OpAddChild this child localPos localAngle => Some (addChild this child localPos localAngle w)
  | OpRemoveChild this child => Some (removeChild this child w)
  | OpDestroy this => destroy this w
  end.







(** What [destroy] may do to the hierarchy: parent references are kept or
    cleared, destroyed flags stay set, [children] arrays only lose entries,
    and nothing outside the heap changes. *)
Definition shrinks (w w' : World) : Prop :=
  (forall x, parent (getObj w' x) = parent (getObj w x) \/ parent (getObj w' x) = None) /\
  (forall x, destroyed (getObj w x) = true -> destroyed (getObj w' x) = true) /\
  (forall x, children (getObj w' x) `sublist_of` children (getObj w x)) /\
  dom (heap w') = dom (heap w) /\
  engineObjects w' = engineObjects w /\
  engineCollideObjects w' = engineCollideObjects w /\
  grid w' = grid w /\ frame w' = frame w /\ randomCalls w' = randomCalls w.

(** A call made on a destroyed object or on one without parent, and every
    loop iteration, never reaches [removeChild]. *)
Definition detached (t : DestroyTask) (w : World) : Prop :=
  match t with
  | DestroyCall o => destroyed (getObj w o) = true \/ parent (getObj w o) = None
  | DestroyLoop _ _ => True
  end.

(** Every [children] array has at most [L] entries. *)
Definition childrenBounded (L : nat) (w : World) : Prop :=
  forall x, (length (children (getObj w x)) <= L)%nat.


(** The two worlds have the same registries, grid and frame counter, the
    same objects, and every object has the same parent reference, children
    array and destroyed flag in both. *)
Definition sameHierarchy (w w' : World) : Prop :=
  engineObjects w' = engineObjects w /\
  engineCollideObjects w' = engineCollideObjects w /\
  grid w' = grid w /\ frame w' = frame w /\
  dom (heap w') = dom (heap w) /\
  forall x, parent (getObj w' x) = parent (getObj w x) /\
            children (getObj w' x) = children (getObj w x) /\
            destroyed (getObj w' x) = destroyed (getObj w x).

End Hierarchy.

(** ** Physics: [EngineObject.update] *)

Module Physics.
Import Num Tile.
Local Open Scope Q_scope.

(** [const gravity = -.01;] *)
Definition gravity : Q := - (1#100).
(** [const maxObjectSpeed = 1;] *)
Definition maxObjectSpeed : Q := 1.
(** [const epsilon = 1e-3;] in the object collision loop. *)
Definition epsilon : Q := 1#1000.
(** [const pushAwayAccel = .001;] *)
Definition pushAwayAccel : Q := 1#1000.

Section Update.

(** The functions of JavaScript's [Math] that have no rational counterpart
    are parameters: the [n]-th result of [Math.random()], [Math.sin],
    [Math.cos], the square root behind [**.5], and the constant [Math.PI]. *)
Variable Math_random : nat -> Q.
Variables Math_sin Math_cos Math_sqrt : Q -> Q.
Variable PI : Q.

(** The overridable hooks of an object, as pure predicates:
    [this.collideWithObject(o)] (the base class returns 1) and
    [this.collideWithTile(data, pos)] (the base class returns [data > 0]). *)
Variable collideWithObject : World -> id -> id -> bool.
Variable collideWithTile : id -> TileFilter.

(** [length() { return this.lengthSquared()**.5; }] *)
Definition length (v : Vector2) : Q := Math_sqrt (V2.lengthSquared v).

(** [rotate(a) { const c = Math.cos(a), s = Math.sin(a);
                 return new Vector2(this.x*c-this.y*s, this.x*s+this.y*c); }] *)
Definition rotate (v : Vector2) (a : Q) : Vector2 :=
  let c := Math_cos a in
  let s := Math_sin a in
  vec (vx v * c - vy v * s) (vx v * s + vy v * c).

(** [setAngle(a, length=1)] on a new vector. *)
Definition setAngle (a length : Q) : Vector2 :=
  vec (length * Math_sin a) (length * Math_cos a).

(** [const rand = (a=1, b=0)=> b + (a-b)*Math.random();] at the [n]-th call. *)
Definition rand (a b : Q) (n : nat) : Q := b + (a - b) * Math_random n.

(** [const randVector = (length=1)=> new Vector2().setAngle(rand(2*PI), length);] *)
Definition randVector (length : Q) (n : nat) : Vector2 :=
  setAngle (rand (2 * PI) 0 n) length.

(** The branch of [update()] taken when [this.parent] is set:
    [this.pos = this.localPos.multiply(vec2(this.getMirrorSign(),1))
                    .rotate(-this.parent.angle).add(this.parent.pos);
     this.angle = this.getMirrorSign()*this.localAngle + this.parent.angle;
     return;] *)
Definition updateParented (this p : id) (w : World) : World :=
  let T := getObj w this in
  let P := getObj w p in
  let pos' := V2.add (rotate (V2.multiply (localPos T) (vec (getMirrorSign T) 1))
                             (- angle P))
                     (pos P) in
  let w1 := modify this (set_pos pos') w in
  let angle' := getMirrorSign (getObj w1 this) * localAngle (getObj w1 this)
                + angle (getObj w1 p) in
  modify this (set_angle angle') w1.

(** Speed limit and integration:
    [this.velocity.x = clamp(this.velocity.x, maxObjectSpeed, -maxObjectSpeed);
     this.velocity.y = clamp(this.velocity.y, maxObjectSpeed, -maxObjectSpeed);
     const oldPos = this.pos.copy();
     this.pos.x += this.velocity.x = this.damping * this.velocity.x;
     this.pos.y += this.velocity.y = this.damping * this.velocity.y + gravity * this.gravityScale;
     this.angle += this.angleVelocity *= this.angleDamping;] *)
Definition integrate (o : EngineObject) : EngineObject :=
  let cx := clamp (vx (velocity o)) maxObjectSpeed (- maxObjectSpeed) in
  let cy := clamp (vy (velocity o)) maxObjectSpeed (- maxObjectSpeed) in
  let vx' := damping o * cx in
  let vy' := damping o * cy + gravity * gravityScale o in
  let av' := angleVelocity o * angleDamping o in
  set_angle (angle o + av')
    (set_angleVelocity av'
       (set_pos (vec (vx (pos o) + vx') (vy (pos o) + vy'))
          (set_velocity (vec vx' vy') o))).

(** Ground friction:
    [if (this.groundObject) {
       const groundSpeed = this.groundObject.velocity ? this.groundObject.velocity.x : 0;
       this.velocity.x = groundSpeed + (this.velocity.x - groundSpeed) * this.friction;
       this.groundObject = 0; }] *)
Definition applyFriction (this : id) (w : World) : World :=
  let T := getObj w this in
  match groundObject T with
  | GroundNone => w
  | g =>
      let groundSpeed := match g with
                         | GroundObject go => vx (velocity (getObj w go))
                         | _ => 0
                         end in
      modify this
        (fun o => set_groundObject GroundNone
                    (set_velocity (vec (groundSpeed + (vx (velocity o) - groundSpeed) * friction o)
                                       (vy (velocity o))) o)) w
  end.

(** The push-away branch, taken when the pair overlapped at [oldPos] already:
    [const deltaPos = oldPos.subtract(o.pos);
     const length = deltaPos.length();
     const pushAwayAccel = .001;
     const velocity = length < .01 ? randVector(pushAwayAccel) : deltaPos.scale(pushAwayAccel/length);
     this.velocity = this.velocity.add(velocity);
     if (o.mass) o.velocity = o.velocity.subtract(velocity);] *)
Definition pushAway (oldPos : Vector2) (this o : id) (w : World) : World :=
  let deltaPos := V2.subtract oldPos (pos (getObj w o)) in
  let len := length deltaPos in
  let '(velocity', w0) :=
    if Qltb len (1#100)
    then (randVector pushAwayAccel (randomCalls w), set_randomCalls (S (randomCalls w)) w)
    else (V2.scale deltaPos (pushAwayAccel / len), w) in
  let w1 := modify this (fun T => set_velocity (V2.add (velocity T) velocity') T) w0 in
  if Qeq_bool (mass (getObj w1 o)) 0 then w1
  else modify o (fun O => set_velocity (V2.subtract (velocity O) velocity') O) w1.

(** The center-of-mass velocity
    [(this.mass * v1 + o.mass * v2) / (this.mass + o.mass)]. *)
Definition centerOfMassVelocity (m1 v1 m2 v2 : Q) : Q := (m1 * v1 + m2 * v2) / (m1 + m2).

(** "resolve y collision":
    [this.pos.y = o.pos.y + (sy*.5 + epsilon) * sign(oldPos.y - o.pos.y);
     if (o.groundObject && wasMovingDown || !o.mass) {
         if (wasMovingDown) this.groundObject = o;
         this.velocity.y *= -this.elasticity; }
     else if (o.mass)
         this.velocity.y = o.velocity.y =
             (this.mass * this.velocity.y + o.mass * o.velocity.y) / (this.mass + o.mass);] *)
Definition resolveY (oldPos : Vector2) (wasMovingDown : bool) (sy : Q) (this o : id)
    (w : World) : World :=
  let w1 := modify this
              (fun T => set_pos (vec (vx (pos T))
                                     (vy (pos (getObj w o))
                                      + (sy * (1#2) + epsilon)
                                        * sign (vy oldPos - vy (pos (getObj w o))))) T) w in
  let T := getObj w1 this in
  let O := getObj w1 o in
  if (match groundObject O with GroundNone => false | _ => true end && wasMovingDown)
     || Qeq_bool (mass O) 0
  then
    let w2 := if wasMovingDown then modify this (set_groundObject (GroundObject o)) w1 else w1 in
    modify this (fun T => set_velocity (vec (vx (velocity T))
                                            (vy (velocity T) * - elasticity T)) T) w2
  else if negb (Qeq_bool (mass O) 0)
  then
    let v := centerOfMassVelocity (mass T) (vy (velocity T)) (mass O) (vy (velocity O)) in
    let w2 := modify o (fun O => set_velocity (vec (vx (velocity O)) v) O) w1 in
    modify this (fun T => set_velocity (vec (vx (velocity T)) v) T) w2
  else w1.

(** "resolve x collision":
    [this.pos.x = o.pos.x + (sx*.5 + epsilon) * sign(oldPos.x - o.pos.x);
     if (o.mass)
         this.velocity.x = o.velocity.x =
             (this.mass * this.velocity.x + o.mass * o.velocity.x) / (this.mass + o.mass);
     else
         this.velocity.x *= -this.elasticity;] *)
Definition resolveX (oldPos : Vector2) (sx : Q) (this o : id) (w : World) : World :=
  let w1 := modify this
              (fun T => set_pos (vec (vx (pos (getObj w o))
                                      + (sx * (1#2) + epsilon)
                                        * sign (vx oldPos - vx (pos (getObj w o))))
                                     (vy (pos T))) T) w in
  let T := getObj w1 this in
  let O := getObj w1 o in
  if negb (Qeq_bool (mass O) 0)
  then
    let v := centerOfMassVelocity (mass T) (vx (velocity T)) (mass O) (vx (velocity O)) in
    let w2 := modify o (fun O => set_velocity (vec v (vy (velocity O))) O) w1 in
    modify this (fun T => set_velocity (vec v (vy (velocity T))) T) w2
  else
    modify this (fun T => set_velocity (vec (vx (velocity T) * - elasticity T)
                                            (vy (velocity T))) T) w1.

(** The three conditions that choose the axes to resolve:
    [const smallStepUp = (oldPos.y - o.pos.y)*2 > sy + gravity;
     const isBlockedX = abs(oldPos.y - o.pos.y)*2 < sy;
     const isBlockedY = abs(oldPos.x - o.pos.x)*2 < sx;] *)
Definition smallStepUp (oldPos oPos : Vector2) (sy : Q) : bool :=
  Qgtb ((vy oldPos - vy oPos) * 2) (sy + gravity).
Definition isBlockedX (oldPos oPos : Vector2) (sy : Q) : bool :=
  Qltb (abs (vy oldPos - vy oPos) * 2) sy.
Definition isBlockedY (oldPos oPos : Vector2) (sx : Q) : bool :=
  Qltb (abs (vx oldPos - vx oPos) * 2) sx.

(** Which axes the resolution of a pair handles:
    [if (smallStepUp || isBlockedY || !isBlockedX)] for y and
    [if (!smallStepUp && (isBlockedX || !isBlockedY))] for x. *)
Definition resolvesY (oldPos : Vector2) (T O : EngineObject) : bool :=
  let sx := vx (size T) + vx (size O) in
  let sy := vy (size T) + vy (size O) in
  smallStepUp oldPos (pos O) sy || isBlockedY oldPos (pos O) sx
  || negb (isBlockedX oldPos (pos O) sy).
Definition resolvesX (oldPos : Vector2) (T O : EngineObject) : bool :=
  let sx := vx (size T) + vx (size O) in
  let sy := vy (size T) + vy (size O) in
  negb (smallStepUp oldPos (pos O) sy)
  && (isBlockedX oldPos (pos O) sy || negb (isBlockedY oldPos (pos O) sx)).

(** Resolution of a pair that did not overlap at [oldPos]. *)
Definition resolvePair (oldPos : Vector2) (wasMovingDown : bool) (this o : id)
    (w : World) : World :=
  let T := getObj w this in
  let O := getObj w o in
  let sx := vx (size T) + vx (size O) in
  let sy := vy (size T) + vy (size O) in
  let w1 := if resolvesY oldPos T O then resolveY oldPos wasMovingDown sy this o w else w in
  if resolvesX oldPos T O then resolveX oldPos sx this o w1 else w1.

(** The tests at the head of the loop body, each ending in [continue]:
    [if (!this.isSolid & !o.isSolid || o.destroyed || o.parent) continue;
     if (!isOverlapping(this.pos, this.size, o.pos, o.size) || o == this) continue;
     if (!this.collideWithObject(o) | !o.collideWithObject(this)) continue;] *)
Definition pairCollides (this o : id) (w : World) : bool :=
  let T := getObj w this in
  let O := getObj w o in
  negb ((negb (isSolid T) && negb (isSolid O)) || destroyed O
        || match parent O with Some _ => true | None => false end)
  && negb (negb (V2.isOverlapping (pos T) (size T) (pos O) (size O)) || Nat.eqb o this)
  && negb (negb (collideWithObject w this o) || negb (collideWithObject w o this)).

(** One iteration of [for(const o of engineCollideObjects)]. *)
Definition collideWithSolid (oldPos : Vector2) (wasMovingDown : bool) (this : id)
    (w : World) (o : id) : World :=
  if pairCollides this o w
  then
    if V2.isOverlapping oldPos (size (getObj w this)) (pos (getObj w o)) (size (getObj w o))
    then pushAway oldPos this o w
    else resolvePair oldPos wasMovingDown this o w
  else w.

(** The tile collision part:
    [if (tileCollisionTest(this.pos, this.size, this)) {
       if (!tileCollisionTest(oldPos, this.size, this)) {
         const isBlockedY = tileCollisionTest(new Vector2(oldPos.x, this.pos.y), this.size, this);
         const isBlockedX = tileCollisionTest(new Vector2(this.pos.x, oldPos.y), this.size, this);
         if (isBlockedY || !isBlockedX) {
             this.groundObject = wasMovingDown;
             this.pos.y = oldPos.y;
             this.velocity.y *= -this.elasticity; }
         if (isBlockedX || !isBlockedY) {
             this.pos.x = oldPos.x;
             this.velocity.x *= -this.elasticity; } } }] *)
Definition collideWithTiles (oldPos : Vector2) (wasMovingDown : bool) (this : id)
    (w : World) : World :=
  let T := getObj w this in
  let filter := Some (collideWithTile this) in
  if tileCollisionTest (grid w) (pos T) (size T) filter
  then
    if negb (tileCollisionTest (grid w) oldPos (size T) filter)
    then
      let blockedY := tileCollisionTest (grid w) (vec (vx oldPos) (vy (pos T))) (size T) filter in
      let blockedX := tileCollisionTest (grid w) (vec (vx (pos T)) (vy oldPos)) (size T) filter in
      let w1 :=
        if blockedY || negb blockedX
        then modify this
               (fun T => set_velocity (vec (vx (velocity T)) (vy (velocity T) * - elasticity T))
                           (set_pos (vec (vx (pos T)) (vy oldPos))
                              (set_groundObject (if wasMovingDown then GroundTile else GroundNone)
                                 T))) w
        else w in
      if blockedX || negb blockedY
      then modify this
             (fun T => set_velocity (vec (vx (velocity T) * - elasticity T) (vy (velocity T)))
                         (set_pos (vec (vx oldPos) (vy (pos T))) T)) w1
      else w1
    else w
  else w.

(** The part of [update()] for an object without parent. *)
Definition updateRoot (this : id) (w : World) : World :=
  let oldPos := V2.copy (pos (getObj w this)) in
  let w1 := modify this integrate w in
  if Qeq_bool (mass (getObj w1 this)) 0 then w1
  else
    let wasMovingDown := Qltb (vy (velocity (getObj w1 this))) 0 in
    let w2 := applyFriction this w1 in
    let w3 := if collideSolidObjects (getObj w2 this)
              then fold_left (collideWithSolid oldPos wasMovingDown this)
                             (engineCollideObjects w2) w2
              else w2 in
    if collideTiles (getObj w3 this)
    then collideWithTiles oldPos wasMovingDown this w3
    else w3.

(** [EngineObject.update()] *)
Definition update (this : id) (w : World) : World :=
  match parent (getObj w this) with
  | Some p => updateParented this p w
  | None => updateRoot this w
  end.

End Update.

(** The hooks of the base class. *)
Definition baseCollideWithObject : World -> id -> id -> bool := fun _ _ _ => true.
Definition baseCollideWithTile : id -> TileFilter := fun _ => defaultCollideWithTile.

(** [setCollision(collideSolidObjects=1, isSolid, collideTiles=1)] *)
Definition setCollision (this : id) (collideSolidObjects' isSolid' collideTiles' : bool)
    (w : World) : World :=
  let T := getObj w this in
  let w1 :=
    if collideSolidObjects' && negb (collideSolidObjects T)
    then set_engineCollideObjects (engineCollideObjects w ++ [this]) w
    else if negb collideSolidObjects' && collideSolidObjects T
    then set_engineCollideObjects
           (Hierarchy.splice1 (Hierarchy.indexOf this (engineCollideObjects w))
                              (engineCollideObjects w)) w
    else w in
  modify this (fun o => set_collideTiles collideTiles'
                          (set_isSolid isSolid' (set_collideSolidObjects collideSolidObjects' o))) w1.

(** The fields of an object that [update()] never writes. *)
Definition sameConstants (e e' : EngineObject) : Prop :=
  size e' = size e /\ mirror e' = mirror e /\ mass e' = mass e /\
  damping e' = damping e /\ angleDamping e' = angleDamping e /\
  elasticity e' = elasticity e /\ friction e' = friction e /\
  gravityScale e' = gravityScale e /\
  collideSolidObjects e' = collideSolidObjects e /\ isSolid e' = isSolid e /\
  collideTiles e' = collideTiles e /\
  parent e' = parent e /\ children e' = children e /\
  localPos e' = localPos e /\ localAngle e' = localAngle e /\
  destroyed e' = destroyed e.

(** [w'] differs from [w] only in the objects of [l] and in [this], and
    there only in the fields that are not constants; the random source may
    have advanced. *)
Definition touches (this : id) (l : list id) (w w' : World) : Prop :=
  engineObjects w' = engineObjects w /\
  engineCollideObjects w' = engineCollideObjects w /\
  grid w' = grid w /\ frame w' = frame w /\
  dom (heap w') = dom (heap w) /\
  (forall x, sameConstants (getObj w x) (getObj w' x)) /\
  (forall x, x <> this -> x ∉ l -> heap w' !! x = heap w !! x).

End Physics.

(** ** The per-tick traversal: [engineUpdateObjects] *)

Module Scheduler.

Section Traversal.

(** [o.update()] dispatches on the object's class; any state transformer
    may stand for it ([Physics.update] is the one of the base class). *)
Variable update : id -> World -> World.

(** The control points of the recursive [updateObject] closure: its entry
    on an object, and the [i]-th iteration of [for(const child of o.children)],
    which reads the array afresh at every step. *)
Inductive Task :=
| Visit (o : id)
| Children (o : id) (i : nat).

(** What the traversal did, in order: an object was updated, its turn came
    while it was already destroyed and it was skipped, or the loop over the
    registry passed it over because it has a parent (its parent visits it). *)
Inductive Event :=
| Updated (o : id)
| SkippedDestroyed (o : id)
| SkippedParented (o : id).

(** [const updateObject = (o)=> {
       if (!o.destroyed) {
           o.update();
           for(const child of o.children)
               updateObject(child); } }]
    The result carries the events in order; [None] when the fuel runs out. *)
Fixpoint updateObject (fuel : nat) (t : Task) (w : World) : option (World * list Event) :=
  match fuel with
  | O => None
  | S fuel' =>
      match t with
      | Visit o =>
          if destroyed (getObj w o) then Some (w, [SkippedDestroyed o])
          else
            match updateObject fuel' (Children o 0) (update o w) with
            | Some (w', evs) => Some (w', Updated o :: evs)
            | None => None
            end
      | Children o i =>
          match children (getObj w o) !! i with
          | None => Some (w, [])
          | Some child =>
              match updateObject fuel' (Visit child) w with
              | Some (w1, evs1) =>
                  match updateObject fuel' (Children o (S i)) w1 with
                  | Some (w2, evs2) => Some (w2, evs1 ++ evs2)
                  | None => None
                  end
              | None => None
              end
          end
      end
  end.

(** [for(const o of engineObjects) o.parent || updateObject(o);] from index
    [i] on; the array iterator reads [engineObjects] afresh at every step,
    so objects pushed during the traversal get their turn in the same tick. *)
Fixpoint updateRoots (fuel : nat) (i : nat) (w : World) : option (World * list Event) :=
  match fuel with
  | O => None
  | S fuel' =>
      match engineObjects w !! i with
      | None => Some (w, [])
      | Some o =>
          match parent (getObj w o) with
          | Some _ =>
              match updateRoots fuel' (S i) w with
              | Some (w2, evs2) => Some (w2, SkippedParented o :: evs2)
              | None => None
              end
          | None =>
              match updateObject fuel' (Visit o) w with
              | Some (w1, evs1) =>
                  match updateRoots fuel' (S i) w1 with
                  | Some (w2, evs2) => Some (w2, evs1 ++ evs2)
                  | None => None
                  end
              | None => None
              end
          end
      end
  end.

(** [engineObjects = engineObjects.filter(o=>!o.destroyed);
     engineCollideObjects = engineCollideObjects.filter(o=>!o.destroyed);
     time = ++frame / FPS;] *)
Definition compact (w : World) : World :=
  let notDestroyed := fun o => negb (destroyed (getObj w o)) in
  set_frame (frame w + 1)
    (set_engineCollideObjects (List.filter notDestroyed (engineCollideObjects w))
       (set_engineObjects (List.filter notDestroyed (engineObjects w)) w)).

(** [function engineUpdateObjects()] *)
Definition engineUpdateObjects (fuel : nat) (w : World) : option (World * list Event) :=
  match updateRoots fuel 0 w with
  | Some (w1, evs) => Some (compact w1, evs)
  | None => None
  end.

(** An object of the registry got its turn during the traversal. *)
Definition hadTurn (o : id) (evs : list Event) : Prop :=
  Updated o ∈ evs \/ SkippedDestroyed o ∈ evs \/ SkippedParented o ∈ evs.

End Traversal.

Section Ranked.

(** A height function on the hierarchy, bounded by [R]: every child that is
    not destroyed is lower than the object that lists it.  [L] bounds the
    [children] arrays and [M] the registry. *)
Variable rank : id -> nat.
Variables R L M : nat.

Definition ranked (w : World) : Prop :=
  (forall o, (rank o <= R)%nat) /\
  (forall p c, c ∈ children (getObj w p) -> destroyed (getObj w c) = false ->
               (rank c < rank p)%nat) /\
  (forall o, (length (children (getObj w o)) <= L)%nat) /\
  (length (engineObjects w) <= M)%nat.

(** Fuel for the visit of an object of height [r]. *)
Definition visitFuel (r : nat) : nat := (r * (L + 2) + L + 3)%nat.

End Ranked.

End Scheduler.

(** ** Example instances *)

Module Examples.
Import Physics.
Local Open Scope Q_scope.

(** Stand-ins for [Math.cos] and [Math.sin] that are right at angle 0, the
    only angle the examples use. *)
Definition cos0 (a : Q) : Q := if Qeq_bool a 0 then 1 else 0.
Definition sin0 (a : Q) : Q := 0.

(** [EngineObject.update] with the hooks of the base class. *)
Definition baseUpdate : id -> World -> World :=
  update (fun _ => 0) sin0 cos0 (fun _ => 0) 3 baseCollideWithObject baseCollideWithTile.

(** A unit-size solid object of mass 1 without damping or gravity. *)
Definition body (p v : Vector2) : EngineObject :=
  {| pos := p; size := vec 1 1; angle := 0; mirror := false;
     velocity := v; angleVelocity := 0;
     mass := 1; damping := 1; angleDamping := 1;
     elasticity := 0; friction := 8#10; gravityScale := 0;
     collideSolidObjects := true; isSolid := true; collideTiles := false;
     groundObject := GroundNone;
     parent := None; children := []; localPos := vec 0 0; localAngle := 0;
     destroyed := false |}.

(** Two bodies of mass 1 closing in on each other along x at +1 and -1. *)
Definition headOn : World :=
  mkWorld (list_to_map [(0%nat, body (vec 0 0) (vec 1 0));
                        (1%nat, body (vec (3#2) 0) (vec (-1) 0))])
          [0%nat; 1%nat] [0%nat; 1%nat] (Tile.initTileCollision (4, 4)%Z) 0 0.

(** A freshly constructed object whose mass was set to 0. *)
Definition fixedObject : EngineObject :=
  {| pos := vec 0 0; size := defaultObjectSize; angle := 0; mirror := false;
     velocity := vec 0 0; angleVelocity := 0;
     mass := 0; damping := 99#100; angleDamping := 99#100;
     elasticity := 0; friction := 8#10; gravityScale := 1;
     collideSolidObjects := false; isSolid := false; collideTiles := true;
     groundObject := GroundNone;
     parent := None; children := []; localPos := vec 0 0; localAngle := 0;
     destroyed := false |}.

Definition fixedWorld : World :=
  mkWorld {[ 0%nat := fixedObject ]} [0%nat] [] (Tile.initTileCollision (4, 4)%Z) 0 0.

(** An object of mass 0 that gravity is switched off for, drifting at
    (1/2, 1/4). *)
Definition floatingObject : EngineObject :=
  {| pos := vec 0 0; size := defaultObjectSize; angle := 0; mirror := false;
     velocity := vec (1#2) (1#4); angleVelocity := 0;
     mass := 0; damping := 99#100; angleDamping := 99#100;
     elasticity := 0; friction := 8#10; gravityScale := 0;
     collideSolidObjects := false; isSolid := false; collideTiles := true;
     groundObject := GroundNone;
     parent := None; children := []; localPos := vec 0 0; localAngle := 0;
     destroyed := false |}.

Definition floatingWorld : World :=
  mkWorld {[ 0%nat := floatingObject ]} [0%nat] [] (Tile.initTileCollision (4, 4)%Z) 0 0.

(** Three fresh objects 0, 1, 2 in the registry. *)
Definition threeObjects : World :=
  snd (newObject (vec 2 0) defaultObjectSize 0
        (snd (newObject (vec 1 0) defaultObjectSize 0
               (snd (newObject (vec 0 0) defaultObjectSize 0
                      (emptyWorld (Tile.initTileCollision (4, 4)%Z))))))).

(** An [update] override: object 0 destroys object 1 in its update, every
    other object runs the update of the base class. *)
Definition killerUpdate (o : id) (w : World) : World :=
  match o with
  | O => default w (Hierarchy.destroy 1%nat w)
  | _ => baseUpdate o w
  end.

(** Object 1 attached to object 0 at local offset (1,0). *)
Definition attached : World := Hierarchy.addChild 0%nat 1%nat (vec 1 0) 0 threeObjects.

(** Objects 1 and 2 attached to object 0, in this order. *)
Definition family : World := Hierarchy.addChild 0%nat 2%nat (vec 0 1) 0 attached.

(** Rational stand-ins for [Math.cos] and [Math.sin] that turn by a true
    rotation at every angle: the point of the unit circle whose half-angle
    tangent is [a/2].  [cosR a * cosR a + sinR a * sinR a == 1],
    [cosR 0 == 1], [sinR 0 == 0], [cosR (-a) == cosR a],
    [sinR (-a) == - sinR a]; at [a = 1] it is the rotation (3/5, 4/5). *)
Definition cosR (a : Q) : Q := (1 - (a / 2) * (a / 2)) / (1 + (a / 2) * (a / 2)).
Definition sinR (a : Q) : Q := (2 * (a / 2)) / (1 + (a / 2) * (a / 2)).

(** [EngineObject.update] with the hooks of the base class and the rational
    rotation. *)
Definition turnedUpdate : id -> World -> World :=
  update (fun _ => 0) sinR cosR (fun _ => 0) 3 baseCollideWithObject baseCollideWithTile.

(** A mirrored parent at (10, 20), turned to angle 1. *)
Definition turnedParent : EngineObject :=
  {| pos := vec 10 20; size := defaultObjectSize; angle := 1; mirror := true;
     velocity := vec 0 0; angleVelocity := 0;
     mass := 1; damping := 99#100; angleDamping := 99#100;
     elasticity := 0; friction := 8#10; gravityScale := 1;
     collideSolidObjects := false; isSolid := false; collideTiles := true;
     groundObject := GroundNone;
     parent := None; children := [1%nat]; localPos := vec 0 0; localAngle := 0;
     destroyed := false |}.

(** Its mirrored child, attached at local offset (2, 1) and local angle
    1/2; before the update it sits at the origin and carries a velocity and
    an angular velocity of its own. *)
Definition turnedChild : EngineObject :=
  {| pos := vec 0 0; size := defaultObjectSize; angle := 0; mirror := true;
     velocity := vec (1#2) (1#4); angleVelocity := 1#8;
     mass := 1; damping := 99#100; angleDamping := 99#100;
     elasticity := 0; friction := 8#10; gravityScale := 1;
     collideSolidObjects := false; isSolid := false; collideTiles := true;
     groundObject := GroundNone;
     parent := Some 0%nat; children := []; localPos := vec 2 1; localAngle := 1#2;
     destroyed := false |}.

Definition turned : World :=
  mkWorld (list_to_map [(0%nat, turnedParent); (1%nat, turnedChild)])
          [0%nat; 1%nat] [] (Tile.initTileCollision (4, 4)%Z) 0 0.

(** An [update] override in the manner of [ParticleEmitter.update], which
    ends in [this.destroy()] once the emitter is spent: object 1 destroys
    itself, every other object runs the update of the base class. *)
Definition selfDestroyUpdate (o : id) (w : World) : World :=
  match o with
  | 1%nat => default w (Hierarchy.destroy 1%nat w)
  | _ => baseUpdate o w
  end.

End Examples.

(** * Properties *)

Section NumFacts.
Import Num.

Lemma Qltb_lt a b : Qltb a b = true <-> (a < b)%Q.
Proof.
  unfold Qltb. rewrite negb_true_iff.
  destruct (Qle_bool b a) eqn:E.
  - apply Qle_bool_iff in E. split; [discriminate | intros H; exfalso; lra].
  - split; [intros _ | reflexivity].
    destruct (Qlt_le_dec a b) as [H|H]; [exact H|].
    apply Qle_bool_iff in H. congruence.
Qed.

Lemma Qltb_ge a b : Qltb a b = false <-> (b <= a)%Q.
Proof.
  unfold Qltb. rewrite negb_false_iff. apply Qle_bool_iff.
Qed.

Lemma wrap32_small z : - 2^31 <= z < 2^31 -> wrap32 z = z.
Proof. intros H. unfold wrap32. rewrite Z.mod_small; lia. Qed.

Lemma toInt32_inject_Z z : - 2^31 <= z < 2^31 -> toInt32 (inject_Z z) = z.
Proof.
  intros H. unfold toInt32, truncQ. simpl. rewrite Z.quot_1_r.
  now apply wrap32_small.
Qed.

Lemma arrayCheck_true v s :
  V2.arrayCheck v s = true <->
  (0 <= vx v /\ 0 <= vy v /\ vx v < inject_Z (fst s) /\ vy v < inject_Z (snd s))%Q.
Proof.
  unfold V2.arrayCheck, Qgeb. rewrite !andb_true_iff, !Qltb_lt, !Qle_bool_iff. tauto.
Qed.

End NumFacts.

(** ** The line walk of the raycast *)

Section LineWalk.
Import Num Tile.

Variables (ex ey dx dy sx sy : Z).
Hypothesis Hdx : 0 <= dx.
Hypothesis Hdy : dy <= 0.
Hypothesis Hsx : sx = 1 \/ sx = -1.
Hypothesis Hsy : sy = 1 \/ sy = -1.

Local Abbreviation cellAt := (cellAt ex ey sx sy).
Local Abbreviation stateAt := (stateAt ex ey dx dy sx sy).
Local Abbreviation walkFacts := (walkFacts ex ey sx sy).
Local Abbreviation nearLine := (nearLine dx dy).

Lemma lineStep_stateAt rx ry :
  0 <= rx <= dx -> 0 <= ry <= - dy -> 0 < rx + ry ->
  exists rx' ry',
    lineStep dx dy sx sy (stateAt rx ry) = stateAt rx' ry' /\
    (rx' = rx \/ rx' = rx - 1) /\ (ry' = ry \/ ry' = ry - 1) /\
    0 <= rx' /\ 0 <= ry' /\ rx' + ry' < rx + ry.
Proof.
  intros Hrx Hry Hpos. unfold lineStep, stateAt.
  destruct (Z.leb_spec dy (2 * (dx + dy - ry * dx - rx * dy))) as [Hx|Hx].
  - assert (1 <= rx) by nia.
    destruct (Z.leb_spec (2 * (dx + dy - ry * dx - rx * dy)) dx) as [Hy|Hy].
    + assert (1 <= ry) by nia.
      exists (rx - 1), (ry - 1). repeat split; try lia.
      f_equal; [f_equal|]; ring.
    + exists (rx - 1), ry. repeat split; try lia.
      f_equal; [f_equal|]; ring.
  - destruct (Z.leb_spec (2 * (dx + dy - ry * dx - rx * dy)) dx) as [Hy|Hy].
    + assert (1 <= ry) by nia.
      exists rx, (ry - 1). repeat split; try lia.
      f_equal; [f_equal|]; ring.
    + exfalso. lia.
Qed.

Lemma at_end_iff rx ry :
  0 <= rx -> 0 <= ry ->
  ((ex - sx * rx =? ex) && (ey - sy * ry =? ey) = true <-> rx = 0 /\ ry = 0).
Proof.
  intros Hrx Hry. rewrite andb_true_iff, !Z.eqb_eq.
  destruct Hsx, Hsy; subst; lia.
Qed.

Lemma walkLoop_total n : forall rx ry fuel,
  0 <= rx <= dx -> 0 <= ry <= - dy -> rx + ry <= Z.of_nat n -> (S n <= fuel)%nat ->
  exists cells,
    walkLoop fuel (ex, ey) dx dy sx sy (stateAt rx ry) = Some cells /\
    walkFacts rx ry cells.
Proof.
  induction n as [|n IH]; intros rx ry fuel Hrx Hry Hn Hfuel;
    (destruct fuel as [|fuel]; [lia|]); cbn [walkLoop stateAt fst snd].
  - assert (rx = 0 /\ ry = 0) as [-> ->] by lia.
    destruct (at_end_iff 0 0) as [_ ->]; try lia.
    exists [cellAt 0 0]. split; [reflexivity|].
    unfold walkFacts, cellAt. repeat split.
    + simpl. f_equal. f_equal; lia.
    + intros c Hc. apply list_elem_of_singleton in Hc. exists 0, 0. repeat split; try lia. exact Hc.
    + intros k Hk. exists 0. assert (k = 0) as -> by lia. split; [lia|]. apply list_elem_of_singleton. reflexivity.
    + intros j Hj. exists 0. assert (j = 0) as -> by lia. split; [lia|]. apply list_elem_of_singleton. reflexivity.
  - destruct ((ex - sx * rx =? ex) && (ey - sy * ry =? ey)) eqn:Hend.
    + apply at_end_iff in Hend; try lia. destruct Hend as [-> ->].
      exists [cellAt 0 0]. split; [reflexivity|].
      unfold walkFacts, cellAt. repeat split.
      * simpl. f_equal. f_equal; lia.
      * intros c Hc. apply list_elem_of_singleton in Hc. exists 0, 0. repeat split; try lia. exact Hc.
      * intros k Hk. exists 0. assert (k = 0) as -> by lia. split; [lia|]. apply list_elem_of_singleton. reflexivity.
      * intros j Hj. exists 0. assert (j = 0) as -> by lia. split; [lia|]. apply list_elem_of_singleton. reflexivity.
    + assert (0 < rx + ry) as Hpos.
      { destruct (Z.eq_dec (rx + ry) 0) as [E|E]; [|lia].
        assert (rx = 0 /\ ry = 0) as H0 by lia.
        apply at_end_iff in H0; try lia. }
      destruct (lineStep_stateAt rx ry Hrx Hry Hpos)
        as (rx' & ry' & Hstep & Hrx' & Hry' & Hrx0 & Hry0 & Hlt).
      fold (stateAt rx ry). rewrite Hstep.
      destruct (IH rx' ry' fuel) as (cells & Hw & Hhd & Hlast & Hbox & Hcx & Hcy); try lia.
      rewrite Hw. exists (cellAt rx ry :: cells). split; [reflexivity|].
      unfold walkFacts. repeat split.
      * destruct cells as [|c0 cells]; [discriminate|]. exact Hlast.
      * intros c Hc. apply elem_of_cons in Hc as [->|Hc].
        -- exists rx, ry. repeat split; lia.
        -- destruct (Hbox c Hc) as (k & j & Hk & Hj & ->).
           exists k, j. repeat split; lia.
      * intros k Hk. destruct (Z.eq_dec k rx) as [->|Hne].
        -- exists ry. split; [lia|]. apply elem_of_cons. now left.
        -- destruct (Hcx k) as (j & Hj & Hin); [lia|].
           exists j. split; [lia|]. apply elem_of_cons. now right.
      * intros j Hj. destruct (Z.eq_dec j ry) as [->|Hne].
        -- exists rx. split; [lia|]. apply elem_of_cons. now left.
        -- destruct (Hcy j) as (k & Hk & Hin); [lia|].
           exists k. split; [lia|]. apply elem_of_cons. now right.
Qed.

(** One step of the loop keeps the state within half a step of the line. *)
Lemma lineStep_nearLine rx ry :
  0 <= rx <= dx -> 0 <= ry <= - dy -> 0 < rx + ry -> nearLine rx ry ->
  exists rx' ry',
    lineStep dx dy sx sy (stateAt rx ry) = stateAt rx' ry' /\
    0 <= rx' <= rx /\ 0 <= ry' <= ry /\ nearLine rx' ry'.
Proof.
  intros Hrx Hry Hpos Hnear. unfold lineStep, stateAt.
  unfold nearLine in *. cbv zeta in *.
  set (D := ry * dx + rx * dy) in *.
  replace (dx + dy - ry * dx - rx * dy) with (dx + dy - D) by (subst D; ring).
  destruct (Z.leb_spec dy (2 * (dx + dy - D))) as [Hx|Hx].
  - assert (1 <= rx) by (subst D; nia).
    destruct (Z.leb_spec (2 * (dx + dy - D)) dx) as [Hy|Hy].
    + assert (1 <= ry) by (subst D; nia).
      exists (rx - 1), (ry - 1).
      replace ((ry - 1) * dx + (rx - 1) * dy) with (D - dx - dy) by (subst D; ring).
      split; [subst D; f_equal; [f_equal|]; ring|]. lia.
    + exists (rx - 1), ry.
      replace (ry * dx + (rx - 1) * dy) with (D - dy) by (subst D; ring).
      split; [subst D; f_equal; [f_equal|]; ring|]. lia.
  - destruct (Z.leb_spec (2 * (dx + dy - D)) dx) as [Hy|Hy].
    + assert (1 <= ry) by (subst D; nia).
      exists rx, (ry - 1).
      replace ((ry - 1) * dx + rx * dy) with (D - dx) by (subst D; ring).
      split; [subst D; f_equal; [f_equal|]; ring|]. lia.
    + exfalso. lia.
Qed.

(** Every cell of the walk from a state near the line is near the line. *)
Lemma walkLoop_nearLine fuel : forall rx ry cells,
  0 <= rx <= dx -> 0 <= ry <= - dy -> nearLine rx ry ->
  walkLoop fuel (ex, ey) dx dy sx sy (stateAt rx ry) = Some cells ->
  forall c, c ∈ cells ->
    exists k j, 0 <= k <= rx /\ 0 <= j <= ry /\ c = cellAt k j /\ nearLine k j.
Proof.
  induction fuel as [|fuel IH]; intros rx ry cells Hrx Hry Hnear Hw c Hc; [discriminate|].
  cbn [walkLoop Tile.stateAt fst snd] in Hw.
  destruct ((ex - sx * rx =? ex) && (ey - sy * ry =? ey)) eqn:Hend.
  - injection Hw as <-. apply list_elem_of_singleton in Hc. subst c.
    exists rx, ry. split; [lia|]. split; [lia|]. split; [reflexivity|exact Hnear].
  - assert (0 < rx + ry) as Hpos.
    { destruct (Z.eq_dec (rx + ry) 0) as [E|E]; [|lia].
      assert (rx = 0 /\ ry = 0) as H0 by lia.
      apply at_end_iff in H0; [congruence|lia|lia]. }
    destruct (lineStep_nearLine rx ry Hrx Hry Hpos Hnear)
      as (rx' & ry' & Hstep & Hrx' & Hry' & Hnear').
    fold (stateAt rx ry) in Hw. rewrite Hstep in Hw.
    destruct (walkLoop fuel (ex, ey) dx dy sx sy (stateAt rx' ry')) as [rest|] eqn:Hrest;
      [|discriminate].
    injection Hw as <-. apply elem_of_cons in Hc as [->|Hc].
    + exists rx, ry. split; [lia|]. split; [lia|]. split; [reflexivity|exact Hnear].
    + destruct (IH rx' ry' rest ltac:(lia) ltac:(lia) Hnear' Hrest c Hc)
        as (k & j & Hk & Hj & -> & Hn).
      exists k, j. split; [lia|]. split; [lia|]. split; [reflexivity|exact Hn].
Qed.

End LineWalk.

Section RaycastFacts.
Import Num Tile.

Lemma signZ_absZ z : signZ z * absZ z = z.
Proof. unfold signZ, absZ. destruct (Z.ltb_spec z 0); lia. Qed.

Lemma absZ_nonneg z : 0 <= absZ z.
Proof. unfold absZ. destruct (Z.ltb_spec z 0); lia. Qed.

Lemma signZ_cases z : signZ z = 1 \/ signZ z = -1.
Proof. unfold signZ. destruct (z <? 0); auto. Qed.

(** The walk always ends: the iteration budget of [walk] suffices, the walk
    starts at [a], ends at [b], stays in the box of [a] and [b] and meets
    every column and every row of that box. *)
Lemma walk_total a b :
  exists cells,
    walk a b = Some cells /\
    head cells = Some a /\ last cells = Some b /\
    (forall c, c ∈ cells -> inBox a b c) /\
    (forall x, Z.min (fst a) (fst b) <= x <= Z.max (fst a) (fst b) ->
       exists y, (x, y) ∈ cells) /\
    (forall y, Z.min (snd a) (snd b) <= y <= Z.max (snd a) (snd b) ->
       exists x, (x, y) ∈ cells).
Proof.
  destruct a as [ax ay], b as [bx by_]. unfold walk, rayFuel. cbn [fst snd].
  set (dX := bx - ax). set (dY := by_ - ay).
  pose proof (absZ_nonneg dX) as HdX. pose proof (absZ_nonneg dY) as HdY.
  pose proof (signZ_absZ dX) as HsX. pose proof (signZ_absZ dY) as HsY.
  destruct (walkLoop_total bx by_ (absZ dX) (- absZ dY) (signZ dX) (signZ dY)
              ltac:(lia) ltac:(lia) (signZ_cases dX) (signZ_cases dY)
              (Z.to_nat (absZ dX + absZ dY)) (absZ dX) (absZ dY)
              (S (Z.to_nat (absZ dX + absZ dY))))
    as (cells & Hw & Hhd & Hlast & Hbox & Hcx & Hcy); try lia.
  assert (stateAt bx by_ (absZ dX) (- absZ dY) (signZ dX) (signZ dY) (absZ dX) (absZ dY)
          = (ax, ay, absZ dX + - absZ dY)) as Hst.
  { unfold stateAt. f_equal; [f_equal|]; try lia; ring. }
  rewrite Hst in Hw. exists cells. split; [exact Hw|].
  assert (forall k j, 0 <= k <= absZ dX -> 0 <= j <= absZ dY ->
            inBox (ax, ay) (bx, by_) (cellAt bx by_ (signZ dX) (signZ dY) k j)) as Hin.
  { intros k j Hk Hj. unfold inBox, cellAt. cbn [fst snd].
    unfold signZ, absZ in *. subst dX dY.
    destruct (Z.ltb_spec (bx - ax) 0), (Z.ltb_spec (by_ - ay) 0); lia. }
  repeat split.
  - rewrite Hhd. unfold cellAt. f_equal. f_equal; lia.
  - exact Hlast.
  - destruct (Hbox c H) as (k & j & Hk & Hj & ->). now apply Hin.
  - destruct (Hbox c H) as (k & j & Hk & Hj & ->). now apply Hin.
  - destruct (Hbox c H) as (k & j & Hk & Hj & ->). now apply Hin.
  - destruct (Hbox c H) as (k & j & Hk & Hj & ->). now apply Hin.
  - intros x Hx.
    destruct (Hcx ((bx - x) * signZ dX)) as (j & Hj & Hc).
    { unfold signZ, absZ in *. subst dX. destruct (Z.ltb_spec (bx - ax) 0); lia. }
    exists (by_ - signZ dY * j). unfold cellAt in Hc.
    replace (bx - signZ dX * ((bx - x) * signZ dX)) with x in Hc; [exact Hc|].
    destruct (signZ_cases dX) as [-> | ->]; lia.
  - intros y Hy.
    destruct (Hcy ((by_ - y) * signZ dY)) as (k & Hk & Hc).
    { unfold signZ, absZ in *. subst dY. destruct (Z.ltb_spec (by_ - ay) 0); lia. }
    exists (bx - signZ dX * k). unfold cellAt in Hc.
    replace (by_ - signZ dY * ((by_ - y) * signZ dY)) with y in Hc; [exact Hc|].
    destruct (signZ_cases dY) as [-> | ->]; lia.
Qed.

(** On a horizontal or vertical line the walk is exactly the box. *)
Lemma walk_axis_aligned a b cells c :
  fst a = fst b \/ snd a = snd b ->
  walk a b = Some cells ->
  (c ∈ cells <-> inBox a b c).
Proof.
  intros Hax Hw.
  destruct (walk_total a b) as (cells' & Hw' & _ & _ & Hbox & Hcx & Hcy).
  rewrite Hw in Hw'. injection Hw' as <-.
  split; [apply Hbox|]. intros [Hx Hy]. destruct c as [cx cy]. cbn [fst snd] in *.
  destruct Hax as [E|E].
  - destruct (Hcy cy Hy) as (x & Hin).
    destruct (Hbox _ Hin) as [Hx' _]. cbn [fst snd] in Hx'.
    replace cx with x by lia. exact Hin.
  - destruct (Hcx cx Hx) as (y & Hin).
    destruct (Hbox _ Hin) as [_ Hy']. cbn [fst snd] in Hy'.
    replace cy with y by lia. exact Hin.
Qed.

Lemma inBox_sym a b c : inBox a b c <-> inBox b a c.
Proof. unfold inBox. lia. Qed.

Lemma inBoxb_inBox a b c : inBoxb a b c = true <-> inBox a b c.
Proof. unfold inBoxb, inBox. rewrite !andb_true_iff, !Z.leb_le. tauto. Qed.

Lemma onLine_spec a b c :
  onLine a b c = true <->
  inBox a b c /\
  let dx := absZ (fst b - fst a) in
  let dy := absZ (snd b - snd a) in
  let m := Z.max dx dy in
  let d := 2 * offLine a b c in
  - m <= d <= m /\ (d = m -> dx <= dy) /\ (d = - m -> dy <= dx).
Proof.
  unfold onLine. cbv zeta. rewrite !andb_true_iff, inBoxb_inBox, !Z.leb_le.
  destruct (Z.eqb_spec (2 * offLine a b c) (Z.max (absZ (fst b - fst a)) (absZ (snd b - snd a))));
  destruct (Z.eqb_spec (2 * offLine a b c) (- Z.max (absZ (fst b - fst a)) (absZ (snd b - snd a))));
  destruct (Z.leb_spec (absZ (fst b - fst a)) (absZ (snd b - snd a)));
  destruct (Z.leb_spec (absZ (snd b - snd a)) (absZ (fst b - fst a)));
  cbn; intuition (try lia; try discriminate).
Qed.

(** Every cell of the walk passes the test of [onLine]. *)
Lemma walk_onLine_1 a b cells c :
  walk a b = Some cells -> c ∈ cells -> onLine a b c = true.
Proof.
  intros Hw Hc.
  destruct (walk_total a b) as (cells' & Hw' & _ & _ & Hbox & _).
  rewrite Hw in Hw'. injection Hw' as <-.
  apply onLine_spec. split; [now apply Hbox|]. cbv zeta.
  destruct a as [ax ay], b as [bx by_]. unfold walk, rayFuel in Hw. cbn [fst snd] in *.
  set (dX := bx - ax) in *. set (dY := by_ - ay) in *.
  pose proof (absZ_nonneg dX) as HdX. pose proof (absZ_nonneg dY) as HdY.
  pose proof (signZ_absZ dX) as HsX. pose proof (signZ_absZ dY) as HsY.
  assert (stateAt bx by_ (absZ dX) (- absZ dY) (signZ dX) (signZ dY) (absZ dX) (absZ dY)
          = (ax, ay, absZ dX + - absZ dY)) as Hst.
  { unfold stateAt. f_equal; [f_equal|]; try lia; ring. }
  rewrite <- Hst in Hw.
  assert (nearLine (absZ dX) (- absZ dY) (absZ dX) (absZ dY)) as Hn0.
  { unfold nearLine. cbv zeta.
    replace (absZ dY * absZ dX + absZ dX * - absZ dY) with 0 by ring. lia. }
  destruct (walkLoop_nearLine bx by_ (absZ dX) (- absZ dY) (signZ dX) (signZ dY)
              ltac:(lia) ltac:(lia) (signZ_cases dX) (signZ_cases dY)
              _ (absZ dX) (absZ dY) cells ltac:(lia) ltac:(lia) Hn0 Hw c Hc)
    as (k & j & Hk & Hj & -> & Hn).
  unfold nearLine in Hn. cbv zeta in Hn. unfold offLine, cellAt. cbn [fst snd]. fold dX dY.
  replace (absZ (bx - signZ dX * k - ax)) with (absZ dX - k).
  2:{ replace (bx - signZ dX * k - ax) with (signZ dX * (absZ dX - k)) by lia.
      unfold absZ at 2. destruct (signZ_cases dX) as [-> | ->];
      destruct (Z.ltb_spec (1 * (absZ dX - k)) 0); destruct (Z.ltb_spec (-1 * (absZ dX - k)) 0); lia. }
  replace (absZ (by_ - signZ dY * j - ay)) with (absZ dY - j).
  2:{ replace (by_ - signZ dY * j - ay) with (signZ dY * (absZ dY - j)) by lia.
      unfold absZ at 2. destruct (signZ_cases dY) as [-> | ->];
      destruct (Z.ltb_spec (1 * (absZ dY - j)) 0); destruct (Z.ltb_spec (-1 * (absZ dY - j)) 0); lia. }
  replace ((absZ dX - k) * absZ dY - (absZ dY - j) * absZ dX)
    with (j * absZ dX + k * - absZ dY) by ring.
  rewrite Z.opp_involutive in Hn. exact Hn.
Qed.


Lemma inBox_same_offset_x a b c c' :
  inBox a b c -> inBox a b c' ->
  absZ (fst c - fst a) = absZ (fst c' - fst a) -> fst c = fst c'.
Proof.
  unfold inBox, absZ. intros [H _] [H' _].
  destruct (Z.ltb_spec (fst c - fst a) 0), (Z.ltb_spec (fst c' - fst a) 0); lia.
Qed.

Lemma inBox_same_offset_y a b c c' :
  inBox a b c -> inBox a b c' ->
  absZ (snd c - snd a) = absZ (snd c' - snd a) -> snd c = snd c'.
Proof.
  unfold inBox, absZ. intros [_ H] [_ H'].
  destruct (Z.ltb_spec (snd c - snd a) 0), (Z.ltb_spec (snd c' - snd a) 0); lia.
Qed.

Lemma inBox_offset_y a b c :
  inBox a b c -> absZ (snd c - snd a) <= absZ (snd b - snd a).
Proof.
  unfold inBox, absZ. intros [_ H].
  destruct (Z.ltb_spec (snd c - snd a) 0), (Z.ltb_spec (snd b - snd a) 0); lia.
Qed.

Lemma near_unique_wide DX DY i j j' :
  0 <= DY <= DX -> 0 <= j <= DY -> 0 <= j' <= DY ->
  - DX <= 2 * (i * DY - j * DX) <= DX ->
  (2 * (i * DY - j * DX) = DX -> DX <= DY) ->
  - DX <= 2 * (i * DY - j' * DX) <= DX ->
  (2 * (i * DY - j' * DX) = DX -> DX <= DY) ->
  j = j'.
Proof.
  intros HD Hj Hj' H1 H2 H3 H4.
  destruct (Z.eq_dec DX 0) as [->|Hpos].
  - assert (DY = 0) as -> by lia. lia.
  - destruct (Z.eq_dec DY DX) as [->|Hne].
    + assert (i = j) as Ej.
      { destruct (Z.lt_trichotomy i j) as [L|[E|L]]; [|exact E|].
        - assert (DX <= (j - i) * DX) by nia. lia.
        - assert (DX <= (i - j) * DX) by nia. lia. }
      assert (i = j') as Ej'.
      { destruct (Z.lt_trichotomy i j') as [L|[E|L]]; [|exact E|].
        - assert (DX <= (j' - i) * DX) by nia. lia.
        - assert (DX <= (i - j') * DX) by nia. lia. }
      lia.
    + destruct (Z.lt_trichotomy j j') as [L|[E|L]]; [|exact E|].
      * assert (DX <= (j' - j) * DX) by nia. lia.
      * assert (DX <= (j - j') * DX) by nia. lia.
Qed.

Lemma near_unique_high DX DY i i' j :
  0 <= DX < DY -> 0 <= i -> 0 <= i' ->
  - DY <= 2 * (i * DY - j * DX) <= DY ->
  (2 * (i * DY - j * DX) = - DY -> DY <= DX) ->
  - DY <= 2 * (i' * DY - j * DX) <= DY ->
  (2 * (i' * DY - j * DX) = - DY -> DY <= DX) ->
  i = i'.
Proof.
  intros HD Hi Hi' H1 H2 H3 H4.
  destruct (Z.lt_trichotomy i i') as [L|[E|L]]; [|exact E|].
  - assert (DY <= (i' - i) * DY) by nia. lia.
  - assert (DY <= (i - i') * DY) by nia. lia.
Qed.

(** Two cells in one column (when the line is at least as wide as high) or
    in one row (when it is higher than wide) that both pass the test of
    [onLine] are the same cell. *)
Lemma onLine_unique a b c c' :
  onLine a b c = true -> onLine a b c' = true ->
  (absZ (snd b - snd a) <= absZ (fst b - fst a) -> fst c = fst c') ->
  (absZ (fst b - fst a) < absZ (snd b - snd a) -> snd c = snd c') ->
  c = c'.
Proof.
  intros H H' Hx Hy. apply onLine_spec in H as [B H], H' as [B' H'].
  cbv zeta in *. unfold offLine in *.
  pose proof (absZ_nonneg (fst b - fst a)) as HDX.
  pose proof (absZ_nonneg (snd b - snd a)) as HDY.
  pose proof (absZ_nonneg (fst c - fst a)) as Hi.
  pose proof (absZ_nonneg (snd c - snd a)) as Hj.
  pose proof (absZ_nonneg (fst c' - fst a)) as Hi'.
  pose proof (absZ_nonneg (snd c' - snd a)) as Hj'.
  pose proof (inBox_offset_y a b c B) as Hjb.
  pose proof (inBox_offset_y a b c' B') as Hjb'.
  destruct (Z_le_gt_dec (absZ (snd b - snd a)) (absZ (fst b - fst a))) as [L|L].
  - specialize (Hx L). clear Hy.
    assert (snd c = snd c') as Ey.
    { apply (inBox_same_offset_y a b); try assumption.
      rewrite <- Hx in H'. rewrite Z.max_l in H, H' by lia.
      apply (near_unique_wide (absZ (fst b - fst a)) (absZ (snd b - snd a))
               (absZ (fst c - fst a))); lia. }
    destruct c, c'; cbn in *; congruence.
  - specialize (Hy ltac:(lia)). clear Hx.
    assert (fst c = fst c') as Ex.
    { apply (inBox_same_offset_x a b); try assumption.
      rewrite <- Hy in H'. rewrite Z.max_r in H, H' by lia.
      apply (near_unique_high (absZ (fst b - fst a)) (absZ (snd b - snd a))
               _ _ (absZ (snd c - snd a))); lia. }
    destruct c, c'; cbn in *; congruence.
Qed.

(** The cells of the walk are exactly the cells that pass [onLine]. *)
Lemma walk_onLine a b cells c :
  walk a b = Some cells -> (c ∈ cells <-> onLine a b c = true).
Proof.
  intros Hw. split; [now apply (walk_onLine_1 a b cells)|]. intros Hon.
  destruct (walk_total a b) as (cells' & Hw' & _ & _ & _ & Hcx & Hcy).
  rewrite Hw in Hw'. injection Hw' as <-.
  pose proof Hon as Hon'. apply onLine_spec in Hon' as [[Bx By] _].
  destruct (Z_le_gt_dec (absZ (snd b - snd a)) (absZ (fst b - fst a))) as [L|L].
  - destruct (Hcx (fst c) Bx) as (y & Hin).
    pose proof (walk_onLine_1 a b cells _ Hw Hin) as Hon2.
    rewrite (onLine_unique a b c (fst c, y) Hon Hon2); [exact Hin|reflexivity|lia].
  - destruct (Hcy (snd c) By) as (x & Hin).
    pose proof (walk_onLine_1 a b cells _ Hw Hin) as Hon2.
    rewrite (onLine_unique a b c (x, snd c) Hon Hon2); [exact Hin|lia|reflexivity].
Qed.

Lemma absZ_swap x y : absZ (x - y) = absZ (y - x).
Proof. unfold absZ. destruct (Z.ltb_spec (x - y) 0), (Z.ltb_spec (y - x) 0); lia. Qed.

(** Seen from the other end, a cell of the box is as far off the line, on
    the other side. *)
Lemma offLine_swap a b c : inBox a b c -> offLine b a c = - offLine a b c.
Proof.
  unfold inBox, offLine. intros [Hx Hy].
  rewrite (absZ_swap (snd a) (snd b)), (absZ_swap (fst a) (fst b)).
  assert (absZ (fst c - fst b) = absZ (fst b - fst a) - absZ (fst c - fst a)) as ->.
  { unfold absZ. destruct (Z.ltb_spec (fst c - fst b) 0), (Z.ltb_spec (fst b - fst a) 0),
      (Z.ltb_spec (fst c - fst a) 0); lia. }
  assert (absZ (snd c - snd b) = absZ (snd b - snd a) - absZ (snd c - snd a)) as ->.
  { unfold absZ. destruct (Z.ltb_spec (snd c - snd b) 0), (Z.ltb_spec (snd b - snd a) 0),
      (Z.ltb_spec (snd c - snd a) 0); lia. }
  ring.
Qed.

Lemma onLine_spec_swap a b c :
  onLine b a c = true <->
  inBox a b c /\
  let w := absZ (fst b - fst a) in
  let h := absZ (snd b - snd a) in
  let m := Z.max w h in
  let d := 2 * offLine a b c in
  - m <= d <= m /\ (d = - m -> w <= h) /\ (d = m -> h <= w).
Proof.
  rewrite onLine_spec, (inBox_sym b a c). cbv zeta.
  rewrite (absZ_swap (fst a) (fst b)), (absZ_swap (snd a) (snd b)).
  split; intros [B H]; (split; [exact B|]); rewrite (offLine_swap a b c B) in *; lia.
Qed.

(** A cell in the box of [a] and [b] that is exactly half a step off the
    line exists only when the line is wider than high or higher than wide. *)
Lemma offLine_tie a b c :
  let w := absZ (fst b - fst a) in
  let h := absZ (snd b - snd a) in
  let m := Z.max w h in
  let d := 2 * offLine a b c in
  0 < m -> d = m \/ d = - m -> w <> h.
Proof.
  cbv zeta. unfold offLine. intros Hm Hd E. rewrite <- E in *. rewrite Z.max_id in *.
  set (w := absZ (fst b - fst a)) in *.
  set (i := absZ (fst c - fst a)) in *. set (j := absZ (snd c - snd a)) in *.
  replace (i * w - j * w) with ((i - j) * w) in Hd by ring.
  destruct (Z.lt_trichotomy i j) as [L|[L|L]]; nia.
Qed.

Lemma onLine_both a b c :
  let m := Z.max (absZ (fst b - fst a)) (absZ (snd b - snd a)) in
  let d := 2 * offLine a b c in
  inBox a b c -> - m < d < m \/ d = 0 ->
  onLine a b c = true /\ onLine b a c = true.
Proof.
  cbv zeta. intros B Hd.
  pose proof (absZ_nonneg (fst b - fst a)). pose proof (absZ_nonneg (snd b - snd a)).
  split; [apply onLine_spec|apply onLine_spec_swap]; (split; [exact B|]); cbv zeta; lia.
Qed.

Lemma onLine_neither a b c :
  let m := Z.max (absZ (fst b - fst a)) (absZ (snd b - snd a)) in
  let d := 2 * offLine a b c in
  ~ inBox a b c \/ d < - m \/ m < d ->
  onLine a b c = false /\ onLine b a c = false.
Proof.
  cbv zeta. intros Hd.
  split; apply not_true_is_false; intros Hon;
    [apply onLine_spec in Hon|apply onLine_spec_swap in Hon];
    destruct Hon as [B Hon]; cbv zeta in Hon; destruct Hd as [Hd|Hd]; tauto || lia.
Qed.

Lemma onLine_tie a b c :
  let m := Z.max (absZ (fst b - fst a)) (absZ (snd b - snd a)) in
  let d := 2 * offLine a b c in
  inBox a b c -> 0 < m -> d = m \/ d = - m ->
  onLine a b c = negb (onLine b a c).
Proof.
  cbv zeta. intros B Hm Hd.
  pose proof (offLine_tie a b c Hm Hd) as Hne. cbv zeta in Hne.
  pose proof (onLine_spec a b c) as S1. pose proof (onLine_spec_swap a b c) as S2.
  cbv zeta in S1, S2.
  destruct (onLine a b c), (onLine b a c); try reflexivity; exfalso.
  - destruct S1 as [S1 _], S2 as [S2 _].
    specialize (S1 eq_refl). specialize (S2 eq_refl). lia.
  - destruct (Z_le_gt_dec (absZ (fst b - fst a)) (absZ (snd b - snd a))) as [L|L].
    + destruct Hd as [Hd|Hd].
      * destruct S1 as [_ S1]. enough (false = true) by discriminate.
        apply S1. split; [exact B|lia].
      * destruct S2 as [_ S2]. enough (false = true) by discriminate.
        apply S2. split; [exact B|lia].
    + destruct Hd as [Hd|Hd].
      * destruct S2 as [_ S2]. enough (false = true) by discriminate.
        apply S2. split; [exact B|lia].
      * destruct S1 as [_ S1]. enough (false = true) by discriminate.
        apply S1. split; [exact B|lia].
Qed.

Lemma offLine_axis_aligned a b c :
  fst a = fst b \/ snd a = snd b -> inBox a b c -> offLine a b c = 0.
Proof.
  unfold inBox, offLine. intros Hax [Hx Hy].
  destruct Hax as [E|E]; rewrite E in *.
  - replace (fst c) with (fst b) by lia. rewrite Z.sub_diag. change (absZ 0) with 0. lia.
  - replace (snd c) with (snd b) by lia. rewrite Z.sub_diag. change (absZ 0) with 0. lia.
Qed.

Lemma offLine_start a b : offLine a b a = 0.
Proof. unfold offLine. rewrite !Z.sub_diag. change (absZ 0) with 0. lia. Qed.

Lemma offLine_end a b : offLine a b b = 0.
Proof. unfold offLine. ring. Qed.

(** The raycast loop returns the center of the first accepted cell of the
    walk, and [undefined] when the walk holds none. *)
Lemma raycastLoop_walk g object posEnd dx dy sx sy fuel : forall s cells,
  walkLoop fuel posEnd dx dy sx sy s = Some cells ->
  raycastLoop fuel g object posEnd dx dy sx sy s
  = Some (cellCenter <$> find (rayAccepts g object) cells).
Proof.
  induction fuel as [|fuel IH]; intros [[x y] e] cells Hw; [discriminate|].
  cbn [walkLoop raycastLoop] in *.
  destruct ((x =? fst posEnd) && (y =? snd posEnd)) eqn:Hend.
  - injection Hw as <-. cbn [find].
    destruct (rayAccepts g object (x, y)); reflexivity.
  - destruct (walkLoop fuel posEnd dx dy sx sy (lineStep dx dy sx sy (x, y, e)))
      as [rest|] eqn:Hrest; [|discriminate].
    injection Hw as <-. cbn [find].
    destruct (rayAccepts g object (x, y)); [reflexivity|].
    now apply IH.
Qed.

Lemma tileCollisionRaycast_walk g posStart posEnd object cells :
  walk (int posStart) (int posEnd) = Some cells ->
  tileCollisionRaycast g posStart posEnd object
  = Some (cellCenter <$> find (rayAccepts g object) cells).
Proof.
  intros Hw. unfold tileCollisionRaycast, tileCollisionRaycastFuel.
  now apply raycastLoop_walk.
Qed.

End RaycastFacts.

Section TileProperties.
Import Num Tile.

(** Without a filter, the raycast accepts the cells that read a positive code. *)
Lemma rayAccepts_positive g c :
  rayAccepts g None c = true <->
  exists code, getTileCollisionData g (V2.ofZ (fst c) (snd c)) = Some code /\ 0 < code.
Proof.
  unfold rayAccepts.
  destruct (getTileCollisionData g (V2.ofZ (fst c) (snd c))) as [code|].
  - rewrite andb_true_iff, negb_true_iff, Z.eqb_neq, Z.ltb_lt. split.
    + intros [_ H]. exists code. auto.
    + intros (code' & [= <-] & H). lia.
  - split; [discriminate|]. intros (code & H & _). discriminate.
Qed.

Lemma find_onlySolid g c cells :
  onlySolid g c ->
  find (rayAccepts g None) cells = if decide (c ∈ cells) then Some c else None.
Proof.
  intros Hc. induction cells as [|c0 cells IH]; cbn [find].
  - destruct (decide (c ∈ [])) as [H|H]; [|reflexivity]. now apply elem_of_nil in H.
  - destruct (rayAccepts g None c0) eqn:E.
    + apply Hc in E. subst c0.
      destruct (decide (c ∈ c :: cells)) as [H|H]; [reflexivity|].
      exfalso. apply H. apply elem_of_cons. now left.
    + rewrite IH.
      assert (c0 <> c) as Hne. { intros ->. assert (rayAccepts g None c = true) by now apply Hc. congruence. }
      destruct (decide (c ∈ cells)) as [H|H], (decide (c ∈ c0 :: cells)) as [H'|H']; try reflexivity.
      * exfalso. apply H'. apply elem_of_cons. now right.
      * exfalso. apply elem_of_cons in H' as [->|H']; auto.
Qed.

Lemma Qplus_inject_Z_num a x : truncQ (inject_Z a + inject_Z x) = a + x.
Proof. unfold truncQ. simpl. rewrite Z.quot_1_r. lia. Qed.

Lemma arrayCheck_ofZ x y size :
  V2.arrayCheck (V2.ofZ x y) size = inBounds (mkGrid ∅ size) (x, y).
Proof.
  unfold V2.arrayCheck, inBounds, V2.ofZ, Qgeb, Qltb, Qle_bool. cbn.
  rewrite !Z.mul_1_r.
  destruct (Z.leb_spec 0 x), (Z.ltb_spec x (fst size)), (Z.leb_spec 0 y),
    (Z.ltb_spec y (snd size)), (Z.leb_spec (fst size) x), (Z.leb_spec (snd size) y);
    try reflexivity; lia.
Qed.

Lemma cellIndex_ofZ g x y :
  let w := fst (tileCollisionSize g) in
  0 <= x < w -> 0 <= y -> y * w + x < 2^31 ->
  cellIndex g (V2.ofZ x y) = y * w + x.
Proof.
  intros w Hx Hy Hsmall. unfold cellIndex, V2.ofZ. cbn [vx vy].
  assert (y < 2^31) by nia.
  rewrite (toInt32_inject_Z y) by lia. fold w.
  unfold toInt32. rewrite Qplus_inject_Z_num. apply wrap32_small. nia.
Qed.

Lemma lookup_init_grid size i :
  tileCollision (initTileCollision size) !! i = Some 0 \/
  tileCollision (initTileCollision size) !! i = None.
Proof.
  unfold initTileCollision. cbn [tileCollision].
  destruct (list_to_map (map (fun i => (i, 0)) (zrange 0 (fst size * snd size - 1))) !! i)
    as [v|] eqn:E; [left|now right].
  apply elem_of_list_to_map_2 in E. apply list_elem_of_In, in_map_iff in E.
  destruct E as (j & Hj & _). congruence.
Qed.

(** A grid built with one positive cell has that cell as its only solid. *)
Lemma onlySolid_singleCellGrid w h c code :
  0 <= fst c < w -> 0 <= snd c < h -> w * h <= 2^31 -> 0 < code ->
  onlySolid (singleCellGrid (w, h) c code) c.
Proof.
  intros Hx Hy Hsmall Hcode [x y]. destruct c as [cx cy]. cbn [fst snd] in *.
  unfold rayAccepts, getTileCollisionData, singleCellGrid, setTileCollisionData.
  cbn [fst snd tileCollisionSize initTileCollision].
  rewrite !arrayCheck_ofZ. unfold inBounds. cbn [fst snd tileCollisionSize].
  replace ((0 <=? cx) && (cx <? w) && (0 <=? cy) && (cy <? h)) with true by lia.
  cbn [fst snd tileCollisionSize tileCollision].
  destruct ((0 <=? x) && (x <? w) && (0 <=? y) && (y <? h)) eqn:Hin.
  - assert (0 <= x < w /\ 0 <= y < h) as [Hx' Hy'] by lia.
    rewrite !cellIndex_ofZ; cbn [fst snd tileCollisionSize initTileCollision]; try lia; try nia.
    destruct (decide (cy * w + cx = y * w + x)) as [E|E].
    + rewrite E, lookup_insert_eq.
      assert (cy = y) as -> by (destruct (Z.lt_trichotomy cy y) as [L|[L|L]]; [nia|exact L|nia]).
      assert (cx = x) as -> by lia.
      replace (negb (code =? 0)) with true by lia. replace (0 <? code) with true by lia.
      split; reflexivity.
    + rewrite lookup_insert_ne by exact E.
      split; [|intros [= -> ->]; congruence].
      destruct (lookup_init_grid (w, h) (y * w + x)) as [-> | ->]; cbn; discriminate.
  - cbn. split; [discriminate|]. intros [= -> ->]. lia.
Qed.

(** C6: a coordinate outside [[0,width) x [0,height)] reads as 0 through
    [getTileCollisionData]; [setTileCollisionData] at such a coordinate
    returns the grid unchanged (so every cell keeps its content), and a read
    after the write still gives 0, whatever was written. *)
Theorem C6_out_of_bounds_get_set (g : TileGrid) (pos : Vector2) (data : Z) :
  ~ (0 <= vx pos /\ vx pos < inject_Z (fst (tileCollisionSize g)) /\
     0 <= vy pos /\ vy pos < inject_Z (snd (tileCollisionSize g)))%Q ->
  getTileCollisionData g pos = Some 0 /\
  setTileCollisionData g pos data = g /\
  (forall q, getTileCollisionData (setTileCollisionData g pos data) q
             = getTileCollisionData g q) /\
  getTileCollisionData (setTileCollisionData g pos data) pos = Some 0.
Proof.
  intros Hout.
  assert (V2.arrayCheck pos (tileCollisionSize g) = false) as Hchk.
  { destruct (V2.arrayCheck pos (tileCollisionSize g)) eqn:E; [|reflexivity].
    apply arrayCheck_true in E. tauto. }
  assert (setTileCollisionData g pos data = g) as Hset.
  { unfold setTileCollisionData. now rewrite Hchk. }
  assert (getTileCollisionData g pos = Some 0) as Hget.
  { unfold getTileCollisionData. now rewrite Hchk. }
  rewrite Hset. auto.
Qed.

Lemma C6_out_of_bounds_get_set_witness :
  let g := initTileCollision (2, 2) in
  getTileCollisionData g (vec (-1) 0) = Some 0 /\
  setTileCollisionData g (vec (-1) 0) 5 = g /\
  (forall q, getTileCollisionData (setTileCollisionData g (vec (-1) 0) 5) q
             = getTileCollisionData g q) /\
  getTileCollisionData (setTileCollisionData g (vec (-1) 0) 5) (vec (-1) 0) = Some 0.
Proof.
  apply (C6_out_of_bounds_get_set (initTileCollision (2, 2)) (vec (-1) 0) 5).
  cbn. intros (H & _). apply H. reflexivity.
Defined.

(** C2 (the code departs from the specification): on a 2x2 grid whose only nonzero
    cell is (1,0), the region test centred at (-1, 1.5) with zero extent
    scans the single cell (-1,1), which is outside the grid and reads as 0
    through [getTileCollisionData]; [tileCollisionTest] indexes the array
    with [y*width + x = 1] without a bounds check, reads cell (1,0) and
    reports a collision. *)
Theorem C2_region_test_reads_wrapped_cell :
  let g := singleCellGrid (2, 2) (1, 0) 1 in
  let pos := vec (-1) (3#2) in
  let size := vec 0 0 in
  scannedCells pos size = [(-1, 1)] /\
  inBounds g (-1, 1) = false /\
  getTileCollisionData g (V2.ofZ (-1) 1) = Some 0 /\
  tileCollisionTest g pos size None = true /\
  tileCollisionTest g pos size (Some defaultCollideWithTile) = true.
Proof. vm_compute. auto 6. Qed.

(** C7: [tileCollisionRaycast] always returns; its result is the center of
    the first cell of its walk (which starts at the start cell and ends at
    the end cell) that holds a nonzero code accepted by the filter, or by
    [code > 0] when no filter is given, and it is [undefined] when no cell
    of the walk is accepted.  On the grid whose only nonzero cell is (3,0)
    with code 1, the cast from (0,0) to (5,0) returns (3.5, 0.5). *)
Theorem C7_raycast_first_accepted_cell (g : TileGrid) (posStart posEnd : Vector2)
    (object : option TileFilter) :
  (exists cells,
     walk (int posStart) (int posEnd) = Some cells /\
     head cells = Some (int posStart) /\ last cells = Some (int posEnd) /\
     tileCollisionRaycast g posStart posEnd object
     = Some (cellCenter <$> find (rayAccepts g object) cells)) /\
  (forall c, rayAccepts g None c = true <->
     exists code, getTileCollisionData g (V2.ofZ (fst c) (snd c)) = Some code /\ 0 < code) /\
  (forall f c, rayAccepts g (Some f) c = true <->
     exists code, getTileCollisionData g (V2.ofZ (fst c) (snd c)) = Some code /\
                  code <> 0 /\ f code (V2.ofZ (fst c) (snd c)) = true) /\
  tileCollisionRaycast (singleCellGrid (6, 1) (3, 0) 1) (vec 0 0) (vec 5 0) None
  = Some (Some (vec (7#2) (1#2))).
Proof.
  split; [|split; [|split]].
  - destruct (walk_total (int posStart) (int posEnd)) as (cells & Hw & Hhd & Hlast & _).
    exists cells. repeat split; try assumption.
    now apply tileCollisionRaycast_walk.
  - intros c. unfold rayAccepts.
    destruct (getTileCollisionData g (V2.ofZ (fst c) (snd c))) as [code|].
    + rewrite andb_true_iff, negb_true_iff, Z.eqb_neq, Z.ltb_lt. split.
      * intros [_ H]. exists code. auto.
      * intros (code' & [= <-] & H). lia.
    + split; [discriminate|]. intros (code & H & _). discriminate.
  - intros f c. unfold rayAccepts.
    destruct (getTileCollisionData g (V2.ofZ (fst c) (snd c))) as [code|].
    + rewrite andb_true_iff, negb_true_iff, Z.eqb_neq. split.
      * intros [H1 H2]. exists code. auto.
      * intros (code' & [= <-] & H). exact H.
    + split; [discriminate|]. intros (code & H & _). discriminate.
  - vm_compute. reflexivity.
Qed.

(** C5 (as stated it fails): on the 3x2 grid whose only solid cell is (1,1),
    that cell lies on the walk from (0,0) to (2,1) and is neither end cell;
    the cast from (0,0) to (2,1) hits it, the cast from (2,1) to (0,0) walks
    through (1,0) instead and returns no hit.  With (1,0) as the only solid
    cell it is the other way round. *)
Lemma C5_reverse_cast_misses :
  let g := singleCellGrid (3, 2) (1, 1) 1 in
  let g' := singleCellGrid (3, 2) (1, 0) 1 in
  onlySolid g (1, 1) /\
  strictlyBetween (0, 0) (2, 1) (1, 1) /\
  tileCollisionRaycast g (vec 0 0) (vec 2 1) None = Some (Some (vec (3#2) (3#2))) /\
  tileCollisionRaycast g (vec 2 1) (vec 0 0) None = Some None /\
  onlySolid g' (1, 0) /\
  strictlyBetween (2, 1) (0, 0) (1, 0) /\
  tileCollisionRaycast g' (vec 2 1) (vec 0 0) None = Some (Some (vec (3#2) (1#2))) /\
  tileCollisionRaycast g' (vec 0 0) (vec 2 1) None = Some None.
Proof.
  split; [|split; [|split; [|split; [|split; [|split; [|split]]]]]].
  - apply onlySolid_singleCellGrid; cbn; lia.
  - exists [(0,0);(1,1);(2,1)]. split; [vm_compute; reflexivity|].
    split; [|split; congruence].
    apply elem_of_cons. right. apply elem_of_cons. now left.
  - vm_compute. reflexivity.
  - vm_compute. reflexivity.
  - apply onlySolid_singleCellGrid; cbn; lia.
  - exists [(2,1);(1,0);(0,0)]. split; [vm_compute; reflexivity|].
    split; [|split; congruence].
    apply elem_of_cons. right. apply elem_of_cons. now left.
  - vm_compute. reflexivity.
  - vm_compute. reflexivity.
Qed.

(** C5 (amended): on a grid where [c] is the only cell that reads a positive
    code (the only solid cell), with [a] and [b] the cells of A and B, [w]
    and [h] the numbers of columns and rows between them, [m] the larger of
    the two, [i] and [j] the numbers of columns and rows between [a] and
    [c], and [d = 2 * (i*h - j*w)], which measures how far [c] is off the
    straight line from [a] to [b] ([d = m] and [d = -m] are half a step
    along the longer side):
    - both casts return, and a hit is the center of [c];
    - the cast from A to B hits exactly when [c] is in the box of [a] and
      [b] with [-m <= d <= m], [d = m] only if [w <= h] and [d = -m] only if
      [h <= w] (the test [onLine a b c]); the cast from B to A hits exactly
      when [onLine b a c] holds; these are the cells the two loops visit;
    - both casts hit when [c] is in the box and [-m < d < m] or [d = 0]: in
      particular when [c] is the cell of A or of B, and when A and B lie in
      one row or one column and [c] is in the box between them;
    - both casts miss when [c] is outside the box or [d < -m] or [m < d];
    - exactly one of the two casts hits when [c] is in the box, exactly
      half a step off the line ([d = m] or [d = -m], [m > 0]). *)
Theorem C5_raycast_hits_iff_on_line (g : TileGrid) (c : Z * Z) (A B : Vector2) :
  (forall c', (exists code, getTileCollisionData g (V2.ofZ (fst c') (snd c')) = Some code
                            /\ 0 < code) <-> c' = c) ->
  let a := int A in
  let b := int B in
  let m := Z.max (absZ (fst b - fst a)) (absZ (snd b - snd a)) in
  let d := 2 * (absZ (fst c - fst a) * absZ (snd b - snd a)
                - absZ (snd c - snd a) * absZ (fst b - fst a)) in
  let hit := Some (Some (cellCenter c)) in
  let miss := Some None in
  tileCollisionRaycast g A B None = (if onLine a b c then hit else miss) /\
  tileCollisionRaycast g B A None = (if onLine b a c then hit else miss) /\
  (exists wAB wBA,
     walk a b = Some wAB /\ walk b a = Some wBA /\
     forall c', (c' ∈ wAB <-> onLine a b c' = true) /\
                (c' ∈ wBA <-> onLine b a c' = true)) /\
  (inBox a b c -> - m < d < m \/ d = 0 ->
   tileCollisionRaycast g A B None = hit /\ tileCollisionRaycast g B A None = hit) /\
  (c = a \/ c = b ->
   tileCollisionRaycast g A B None = hit /\ tileCollisionRaycast g B A None = hit) /\
  (fst a = fst b \/ snd a = snd b -> inBox a b c ->
   tileCollisionRaycast g A B None = hit /\ tileCollisionRaycast g B A None = hit) /\
  (~ inBox a b c \/ d < - m \/ m < d ->
   tileCollisionRaycast g A B None = miss /\ tileCollisionRaycast g B A None = miss) /\
  (inBox a b c -> 0 < m -> d = m \/ d = - m ->
   (tileCollisionRaycast g A B None = hit /\ tileCollisionRaycast g B A None = miss) \/
   (tileCollisionRaycast g A B None = miss /\ tileCollisionRaycast g B A None = hit)).
Proof.
  intros Hsolid a b m d hit miss.
  assert (onlySolid g c) as Hc.
  { intros c'. rewrite rayAccepts_positive. apply Hsolid. }
  destruct (walk_total a b) as (wAB & HAB & HhdAB & HlastAB & _).
  destruct (walk_total b a) as (wBA & HBA & _).
  assert (tileCollisionRaycast g A B None = if onLine a b c then hit else miss) as RAB.
  { rewrite (tileCollisionRaycast_walk _ _ _ _ _ HAB), (find_onlySolid _ _ _ Hc).
    destruct (decide (c ∈ wAB)) as [Hin|Hin].
    - apply (walk_onLine a b wAB c HAB) in Hin. fold a b. now rewrite Hin.
    - destruct (onLine a b c) eqn:E; [|reflexivity].
      exfalso. apply Hin. now apply (walk_onLine a b wAB c HAB). }
  assert (tileCollisionRaycast g B A None = if onLine b a c then hit else miss) as RBA.
  { rewrite (tileCollisionRaycast_walk _ _ _ _ _ HBA), (find_onlySolid _ _ _ Hc).
    destruct (decide (c ∈ wBA)) as [Hin|Hin].
    - apply (walk_onLine b a wBA c HBA) in Hin. fold a b. now rewrite Hin.
    - destruct (onLine b a c) eqn:E; [|reflexivity].
      exfalso. apply Hin. now apply (walk_onLine b a wBA c HBA). }
  assert (forall c0, inBox a b c0 -> - m < 2 * offLine a b c0 < m \/ 2 * offLine a b c0 = 0 ->
            onLine a b c0 = true /\ onLine b a c0 = true) as Hboth.
  { intros c0 B0 H0. now apply onLine_both. }
  rewrite RAB, RBA.
  split; [reflexivity|]. split; [reflexivity|].
  split.
  { exists wAB, wBA. split; [exact HAB|]. split; [exact HBA|].
    intros c'. split; [now apply walk_onLine|now apply walk_onLine]. }
  split.
  { intros B0 H0. destruct (Hboth c B0 H0) as [-> ->]. now split. }
  split.
  { intros [-> | ->].
    - destruct (Hboth a) as [-> ->]; [| |now split].
      + unfold inBox. lia.
      + right. rewrite offLine_start. reflexivity.
    - destruct (Hboth b) as [-> ->]; [| |now split].
      + unfold inBox. lia.
      + right. rewrite offLine_end. reflexivity. }
  split.
  { intros Hax B0. destruct (Hboth c B0) as [-> ->]; [|now split].
    right. unfold d. now rewrite offLine_axis_aligned. }
  split.
  { intros H0. destruct (onLine_neither a b c H0) as [-> ->]. now split. }
  intros B0 Hm H0. rewrite (onLine_tie a b c B0 Hm H0).
  destruct (onLine b a c); cbn [negb]; [right|left]; now split.
Qed.

Lemma C5_raycast_hits_iff_on_line_witness :
  let g := singleCellGrid (5, 3) (2, 1) 1 in
  let A := vec (1#2) (1#2) in
  let B := vec (9#2) (5#2) in
  onLine (int A) (int B) (2, 1) = true /\ onLine (int B) (int A) (2, 1) = true /\
  tileCollisionRaycast g A B None = Some (Some (vec (5#2) (3#2))) /\
  tileCollisionRaycast g B A None = Some (Some (vec (5#2) (3#2))).
Proof.
  destruct (C5_raycast_hits_iff_on_line (singleCellGrid (5, 3) (2, 1) 1) (2, 1)
              (vec (1#2) (1#2)) (vec (9#2) (5#2)))
    as (_ & _ & _ & H & _).
  { intros c'. rewrite <- rayAccepts_positive.
    apply onlySolid_singleCellGrid; cbn; lia. }
  destruct H as [H1 H2].
  { vm_compute. intuition discriminate. }
  { right. reflexivity. }
  cbv zeta. rewrite H1, H2. repeat split; vm_compute; reflexivity.
Defined.

End TileProperties.

(** ** Heap reads and writes *)

Section HeapFacts.

Lemma getObj_lookup w o x : heap w !! o = Some x -> getObj w o = x.
Proof. intros H. unfold getObj. now rewrite lookup_total_alt, H. Qed.

Lemma heap_modify w o f o' :
  heap (modify o f w) !! o' = if decide (o = o') then f <$> heap w !! o else heap w !! o'.
Proof. unfold modify. cbn. apply lookup_alter. Qed.

Lemma heap_modify_same w o f x :
  heap w !! o = Some x -> heap (modify o f w) !! o = Some (f x).
Proof. intros H. rewrite heap_modify. destruct (decide (o = o)); [|congruence]. now rewrite H. Qed.

Lemma heap_modify_other w o f o' : o <> o' -> heap (modify o f w) !! o' = heap w !! o'.
Proof. intros H. rewrite heap_modify. now destruct (decide (o = o')). Qed.

Lemma getObj_modify_same w o f x :
  heap w !! o = Some x -> getObj (modify o f w) o = f x.
Proof. intros H. apply getObj_lookup. now apply heap_modify_same. Qed.

Lemma getObj_modify_other w o f o' : o <> o' -> getObj (modify o f w) o' = getObj w o'.
Proof. intros H. unfold getObj. rewrite !lookup_total_alt. now rewrite heap_modify_other. Qed.

Lemma getObj_modify w o f o' :
  getObj (modify o f w) o' =
  if decide (o = o' /\ is_Some (heap w !! o)) then f (getObj w o) else getObj w o'.
Proof.
  destruct (decide (o = o' /\ is_Some (heap w !! o))) as [[<- [x Hx]]|Hn].
  - rewrite (getObj_modify_same _ _ _ _ Hx). now rewrite (getObj_lookup _ _ _ Hx).
  - unfold getObj. rewrite !lookup_total_alt, heap_modify.
    destruct (decide (o = o')) as [<-|]; [|reflexivity].
    destruct (heap w !! o) eqn:E; [|reflexivity].
    exfalso. apply Hn. split; [reflexivity|]. now exists e.
Qed.

Lemma modify_modify w o f g : modify o f (modify o g w) = modify o (fun x => f (g x)) w.
Proof.
  unfold modify. cbn. unfold set_heap. cbn. f_equal.
  apply alter_alter_eq.
Qed.

Lemma modify_insert w o f x :
  heap w !! o = Some x -> modify o f w = set_heap (<[o := f x]> (heap w)) w.
Proof.
  intros H. unfold modify. f_equal. apply map_eq. intros j.
  rewrite lookup_alter, lookup_insert. destruct (decide (o = j)) as [<-|]; [now rewrite H|reflexivity].
Qed.

Lemma engineObjects_modify w o f : engineObjects (modify o f w) = engineObjects w.
Proof. reflexivity. Qed.

Lemma engineCollideObjects_modify w o f :
  engineCollideObjects (modify o f w) = engineCollideObjects w.
Proof. reflexivity. Qed.

Lemma dom_heap_modify w o f : dom (heap (modify o f w)) = dom (heap w).
Proof. unfold modify. cbn. apply dom_alter_L. Qed.

End HeapFacts.

Lemma heap_modify_same_eq w o f x y :
  heap w !! o = Some x -> y = f x -> heap (modify o f w) !! o = Some y.
Proof. intros H ->. now apply heap_modify_same. Qed.

(** Reads through a stack of field writes. *)
Ltac solve_lookup :=
  lazymatch goal with
  | |- heap (modify ?o ?f ?w) !! ?o = Some _ =>
      eapply heap_modify_same_eq; [solve_lookup | cbv beta; reflexivity]
  | |- heap (modify ?o ?f ?w) !! ?o' = Some _ =>
      rewrite (heap_modify_other w o f o') by congruence; solve_lookup
  | |- _ => eassumption
  end.

(** ** Physics *)

Section PhysicsFacts.
Import Num Physics.
Local Open Scope Q_scope.

Variable Math_random : nat -> Q.
Variables Math_sin Math_cos Math_sqrt : Q -> Q.
Variable PI : Q.
Variable collideWithObject : World -> id -> id -> bool.
Variable collideWithTile : id -> Tile.TileFilter.

Local Abbreviation update :=
  (update Math_random Math_sin Math_cos Math_sqrt PI collideWithObject collideWithTile).
Local Abbreviation rotate := (rotate Math_sin Math_cos).

Lemma clamp_id v lo hi : lo <= v <= hi -> clamp v hi lo = v.
Proof.
  intros [H1 H2]. unfold clamp, Qgtb.
  destruct (Qltb v lo) eqn:E1. { apply Qltb_lt in E1. lra. }
  destruct (Qltb hi v) eqn:E2. { apply Qltb_lt in E2. lra. }
  reflexivity.
Qed.

Lemma update_root w this T :
  heap w !! this = Some T -> parent T = None ->
  update this w = updateRoot Math_random Math_sin Math_cos Math_sqrt PI
                             collideWithObject collideWithTile this w.
Proof. intros H Hp. unfold Physics.update. now rewrite (getObj_lookup _ _ _ H), Hp. Qed.

(** C1 (as stated it fails): a fresh object whose mass is 0 keeps the default
    [gravityScale] 1; it has no parent and velocity (0,0), and after one
    [update()] its velocity is (0, -0.01), not damping times (0,0). *)
Lemma C1_gravity_moves_fixed_object :
  heap Examples.fixedWorld !! 0%nat = Some Examples.fixedObject /\
  parent Examples.fixedObject = None /\
  mass Examples.fixedObject == 0 /\
  V2.veq (velocity (getObj (Examples.baseUpdate 0%nat Examples.fixedWorld) 0%nat))
         (vec 0 (- (1#100))) /\
  ~ V2.veq (velocity (getObj (Examples.baseUpdate 0%nat Examples.fixedWorld) 0%nat))
           (V2.scale (velocity Examples.fixedObject) (damping Examples.fixedObject)).
Proof.
  split; [reflexivity|]. split; [reflexivity|]. split; [reflexivity|].
  split; [split; vm_compute; reflexivity|].
  intros [_ H]. vm_compute in H. discriminate.
Qed.

(** C1 (amended): for an object of mass 0 without parent, [update()] is the
    integration step alone: the velocity becomes
    [(damping * clamp vx, damping * clamp vy + gravity * gravityScale)] with
    [gravity = -0.01] and the clamp to [-1, 1]; no collision code runs.
    When [gravityScale] is 0 and the velocity is within the speed limit, the
    velocity after the update is damping times the velocity before. *)
Theorem C1_fixed_mass_update (w : World) (this : id) (T : EngineObject) :
  heap w !! this = Some T -> parent T = None -> mass T == 0 ->
  let w' := update this w in
  w' = set_heap (<[this := integrate T]> (heap w)) w /\
  velocity (getObj w' this)
  = vec (damping T * clamp (vx (velocity T)) maxObjectSpeed (- maxObjectSpeed))
        (damping T * clamp (vy (velocity T)) maxObjectSpeed (- maxObjectSpeed)
         + gravity * gravityScale T) /\
  (gravityScale T == 0 ->
   - maxObjectSpeed <= vx (velocity T) <= maxObjectSpeed ->
   - maxObjectSpeed <= vy (velocity T) <= maxObjectSpeed ->
   V2.veq (velocity (getObj w' this)) (V2.scale (velocity T) (damping T))).
Proof.
  intros H Hp Hm w'.
  assert (w' = modify this integrate w) as Hw'.
  { unfold w'. rewrite (update_root _ _ _ H Hp). unfold updateRoot.
    rewrite (getObj_modify_same _ _ _ _ H).
    replace (Qeq_bool (mass (integrate T)) 0) with true; [reflexivity|].
    symmetry. apply Qeq_bool_iff. exact Hm. }
  assert (getObj w' this = integrate T) as Hget.
  { rewrite Hw'. now apply getObj_modify_same. }
  split; [rewrite Hw'; now apply modify_insert|].
  split; [rewrite Hget; reflexivity|].
  intros Hg Hx Hy. rewrite Hget. unfold V2.veq. cbn.
  rewrite !clamp_id by assumption. rewrite Hg. split; ring.
Qed.

(** C8: for an object whose [parent] is set, [update()] writes exactly two
    fields of that object and runs no physics.  With [(lx, ly)] the local
    offset, [m] the object's mirror sign (-1 when [mirror] is set, else 1),
    [(px, py)] and [a] the parent's position and angle, [c = cos(-a)] and
    [s = sin(-a)] (the source turns by [rotate(-parent.angle)], the engine's
    angles being clockwise):
    - [pos] becomes [(lx*m*c - ly*s + px, lx*m*s + ly*c + py)]: the parent's
      position plus the local offset, its x scaled by the mirror sign,
      turned by the parent's angle;
    - [angle] becomes [m * localAngle + a];
    - velocity, angular velocity, ground contact and every other field of
      the object, every other object, the registries, the tile grid, the
      frame counter and the random source are unchanged: no integration,
      damping, gravity, speed clamp or collision code runs. *)
Theorem C8_parented_update (w : World) (this p : id) (T : EngineObject) :
  heap w !! this = Some T -> parent T = Some p ->
  let P := getObj w p in
  let m := if mirror T then -1 else 1 in
  let c := Math_cos (- angle P) in
  let s := Math_sin (- angle P) in
  let x' := vx (localPos T) * m * c - vy (localPos T) * 1 * s + vx (pos P) in
  let y' := vx (localPos T) * m * s + vy (localPos T) * 1 * c + vy (pos P) in
  let angle' := m * localAngle T + angle P in
  let w' := update this w in
  let T' := getObj w' this in
  pos T' = vec x' y' /\ angle T' = angle' /\
  x' == vx (pos P) + (m * vx (localPos T) * c - vy (localPos T) * s) /\
  y' == vy (pos P) + (m * vx (localPos T) * s + vy (localPos T) * c) /\
  T' = mkObject (vec x' y') (size T) angle' (mirror T) (velocity T) (angleVelocity T)
         (mass T) (damping T) (angleDamping T) (elasticity T) (friction T)
         (gravityScale T) (collideSolidObjects T) (isSolid T) (collideTiles T)
         (groundObject T) (parent T) (children T) (localPos T) (localAngle T)
         (destroyed T) /\
  velocity T' = velocity T /\ angleVelocity T' = angleVelocity T /\
  groundObject T' = groundObject T /\ size T' = size T /\ mass T' = mass T /\
  parent T' = parent T /\ children T' = children T /\ destroyed T' = destroyed T /\
  heap w' = <[this := T']> (heap w) /\
  (forall o, o <> this -> heap w' !! o = heap w !! o) /\
  engineObjects w' = engineObjects w /\
  engineCollideObjects w' = engineCollideObjects w /\
  grid w' = grid w /\ frame w' = frame w /\ randomCalls w' = randomCalls w.
Proof.
  intros H Hp P m c s x' y' angle' w' T'.
  set (T1 := mkObject (vec x' y') (size T) angle' (mirror T) (velocity T) (angleVelocity T)
         (mass T) (damping T) (angleDamping T) (elasticity T) (friction T)
         (gravityScale T) (collideSolidObjects T) (isSolid T) (collideTiles T)
         (groundObject T) (parent T) (children T) (localPos T) (localAngle T)
         (destroyed T)).
  assert (w' = set_heap (<[this := T1]> (heap w)) w) as Hw'.
  { unfold w', Physics.update. rewrite (getObj_lookup _ _ _ H), Hp.
    unfold updateParented. rewrite (getObj_lookup _ _ _ H).
    rewrite (getObj_modify_same _ _ _ _ H). fold P.
    assert (angle (getObj (modify this (set_pos
              (V2.add (rotate (V2.multiply (localPos T) (vec (getMirrorSign T) 1)) (- angle P))
                      (pos P))) w) p) = angle P) as ->.
    { rewrite getObj_modify. destruct (decide _) as [[<- _]|_]; reflexivity. }
    rewrite modify_modify, (modify_insert _ _ _ _ H). reflexivity. }
  assert (T' = T1) as HT'.
  { unfold T'. rewrite Hw'. apply getObj_lookup. cbn. apply lookup_insert_eq. }
  rewrite HT'.
  split; [reflexivity|]. split; [reflexivity|].
  split; [unfold x'; ring|]. split; [unfold y'; ring|].
  repeat (split; [reflexivity|]).
  split. { rewrite Hw'. reflexivity. }
  split. { intros o Ho. rewrite Hw'. cbn. now apply lookup_insert_ne. }
  rewrite Hw'. repeat split.
Qed.

(** *** Object-object resolution *)

Lemma Qeq_bool_false_pos m : 0 < m -> Qeq_bool m 0 = false.
Proof.
  intros H. destruct (Qeq_bool m 0) eqn:E; [|reflexivity].
  apply Qeq_bool_iff in E. lra.
Qed.

Lemma centerOfMass_conserves m1 v1 m2 v2 :
  0 < m1 -> 0 < m2 ->
  m1 * centerOfMassVelocity m1 v1 m2 v2 + m2 * centerOfMassVelocity m1 v1 m2 v2
  == m1 * v1 + m2 * v2.
Proof. intros H1 H2. unfold centerOfMassVelocity. field. lra. Qed.

(** The x resolution when the other object has mass. *)
Lemma resolveX_massive w this o oldPos sx T O :
  this <> o -> heap w !! this = Some T -> heap w !! o = Some O -> 0 < mass O ->
  let v := centerOfMassVelocity (mass T) (vx (velocity T)) (mass O) (vx (velocity O)) in
  let w' := resolveX oldPos sx this o w in
  exists T' O',
    heap w' !! this = Some T' /\ heap w' !! o = Some O' /\
    vx (velocity T') = v /\ vx (velocity O') = v /\
    vy (velocity T') = vy (velocity T) /\ vy (velocity O') = vy (velocity O) /\
    mass T' = mass T /\ mass O' = mass O.
Proof.
  intros Hne HT HO Hm v w'. unfold w', resolveX.
  rewrite (getObj_lookup _ _ _ HO).
  erewrite !getObj_lookup by solve_lookup.
  rewrite (Qeq_bool_false_pos _ Hm). cbn [negb].
  eexists _, _. split; [solve_lookup|]. split; [solve_lookup|]. repeat split.
Qed.

(** The x resolution leaves the y velocities and the masses as they were. *)
Lemma resolveX_frame w this o oldPos sx T O :
  this <> o -> heap w !! this = Some T -> heap w !! o = Some O ->
  exists T' O',
    heap (resolveX oldPos sx this o w) !! this = Some T' /\
    heap (resolveX oldPos sx this o w) !! o = Some O' /\
    vy (velocity T') = vy (velocity T) /\ vy (velocity O') = vy (velocity O) /\
    mass T' = mass T /\ mass O' = mass O.
Proof.
  intros Hne HT HO. unfold resolveX.
  rewrite (getObj_lookup _ _ _ HO).
  erewrite !getObj_lookup by solve_lookup.
  destruct (negb (Qeq_bool (mass O) 0));
    (eexists _, _; split; [solve_lookup|]; split; [solve_lookup|]; repeat split).
Qed.

(** The y resolution leaves the x velocities, the masses, the sizes and
    the other object's position as they were. *)
Lemma resolveY_frame w this o oldPos wasMovingDown sy T O :
  this <> o -> heap w !! this = Some T -> heap w !! o = Some O ->
  exists T' O',
    heap (resolveY oldPos wasMovingDown sy this o w) !! this = Some T' /\
    heap (resolveY oldPos wasMovingDown sy this o w) !! o = Some O' /\
    vx (velocity T') = vx (velocity T) /\ vx (velocity O') = vx (velocity O) /\
    mass T' = mass T /\ mass O' = mass O /\ pos O' = pos O /\
    size T' = size T /\ size O' = size O.
Proof.
  intros Hne HT HO. unfold resolveY.
  rewrite (getObj_lookup _ _ _ HO).
  erewrite !getObj_lookup by solve_lookup.
  destruct ((match groundObject O with GroundNone => false | _ => true end && wasMovingDown)
            || Qeq_bool (mass O) 0);
    [destruct wasMovingDown | destruct (negb (Qeq_bool (mass O) 0))];
    (eexists _, _; split; [solve_lookup|]; split; [solve_lookup|]; repeat split).
Qed.

(** The y resolution in its center-of-mass branch. *)
Lemma resolveY_massive w this o oldPos wasMovingDown sy T O :
  this <> o -> heap w !! this = Some T -> heap w !! o = Some O -> 0 < mass O ->
  (match groundObject O with GroundNone => false | _ => true end && wasMovingDown) = false ->
  let v := centerOfMassVelocity (mass T) (vy (velocity T)) (mass O) (vy (velocity O)) in
  let w' := resolveY oldPos wasMovingDown sy this o w in
  exists T' O',
    heap w' !! this = Some T' /\ heap w' !! o = Some O' /\
    vy (velocity T') = v /\ vy (velocity O') = v /\
    vx (velocity T') = vx (velocity T) /\ vx (velocity O') = vx (velocity O) /\
    mass T' = mass T /\ mass O' = mass O /\ pos O' = pos O /\
    size T' = size T /\ size O' = size O.
Proof.
  intros Hne HT HO Hm Hg v w'. unfold w', resolveY.
  rewrite (getObj_lookup _ _ _ HO).
  erewrite !getObj_lookup by solve_lookup.
  rewrite Hg, (Qeq_bool_false_pos _ Hm). cbn [orb negb].
  eexists _, _. split; [solve_lookup|]. split; [solve_lookup|]. repeat split.
Qed.

(** C3: [resolvePair] is what the collision loop of [update()] runs for a
    colliding pair that did not overlap at the old position.  For two
    distinct objects of positive mass, whenever the x axis is resolved both
    x velocities become [(m1*v1 + m2*v2)/(m1 + m2)], and whenever the y axis
    is resolved outside the bounce branch (the other object is not grounded
    while this one was moving down) both y velocities become that average
    of the y velocities; in each case [m1*v1' + m2*v2' == m1*v1 + m2*v2] on
    the axis.  Two bodies of mass 1 meeting head-on at +1 and -1 along x,
    elasticity 0, both end the update with x velocity 0. *)
Theorem C3_momentum_average (w : World) (this o : id) (oldPos : Vector2)
    (wasMovingDown : bool) (T O : EngineObject) :
  this <> o -> heap w !! this = Some T -> heap w !! o = Some O ->
  0 < mass T -> 0 < mass O ->
  let w' := resolvePair oldPos wasMovingDown this o w in
  let T' := getObj w' this in
  let O' := getObj w' o in
  (resolvesX oldPos T O = true ->
     vx (velocity T')
     = centerOfMassVelocity (mass T) (vx (velocity T)) (mass O) (vx (velocity O)) /\
     vx (velocity O')
     = centerOfMassVelocity (mass T) (vx (velocity T)) (mass O) (vx (velocity O)) /\
     mass T * vx (velocity T') + mass O * vx (velocity O')
     == mass T * vx (velocity T) + mass O * vx (velocity O)) /\
  (resolvesY oldPos T O = true ->
   (match groundObject O with GroundNone => false | _ => true end && wasMovingDown) = false ->
     vy (velocity T')
     = centerOfMassVelocity (mass T) (vy (velocity T)) (mass O) (vy (velocity O)) /\
     vy (velocity O')
     = centerOfMassVelocity (mass T) (vy (velocity T)) (mass O) (vy (velocity O)) /\
     mass T * vy (velocity T') + mass O * vy (velocity O')
     == mass T * vy (velocity T) + mass O * vy (velocity O)) /\
  (vx (velocity (getObj (Examples.baseUpdate 0%nat Examples.headOn) 0%nat)) == 0 /\
   vx (velocity (getObj (Examples.baseUpdate 0%nat Examples.headOn) 1%nat)) == 0).
Proof.
  intros Hne HT HO HmT HmO w' T' O'.
  split; [|split].
  - intros HX. unfold T', O', w', resolvePair.
    rewrite (getObj_lookup _ _ _ HT), (getObj_lookup _ _ _ HO), HX.
    assert (exists T1 O1,
              heap (if resolvesY oldPos T O
                    then resolveY oldPos wasMovingDown (vy (size T) + vy (size O)) this o w
                    else w) !! this = Some T1 /\
              heap (if resolvesY oldPos T O
                    then resolveY oldPos wasMovingDown (vy (size T) + vy (size O)) this o w
                    else w) !! o = Some O1 /\
              vx (velocity T1) = vx (velocity T) /\ vx (velocity O1) = vx (velocity O) /\
              mass T1 = mass T /\ mass O1 = mass O)
      as (T1 & O1 & HT1 & HO1 & E1 & E2 & E3 & E4).
    { destruct (resolvesY oldPos T O).
      - destruct (resolveY_frame w this o oldPos wasMovingDown
                    (vy (size T) + vy (size O)) T O Hne HT HO)
          as (T1 & O1 & H1 & H2 & H3 & H4 & H5 & H6 & _).
        exists T1, O1. auto 7.
      - exists T, O. auto 7. }
    assert (0 < mass O1) as HmO1 by (rewrite E4; exact HmO).
    destruct (resolveX_massive _ this o oldPos (vx (size T) + vx (size O)) T1 O1 Hne HT1 HO1 HmO1)
      as (T2 & O2 & HT2 & HO2 & F1 & F2 & _).
    rewrite (getObj_lookup _ _ _ HT2), (getObj_lookup _ _ _ HO2).
    rewrite F1, F2, E1, E2, E3, E4.
    split; [reflexivity|]. split; [reflexivity|].
    now apply centerOfMass_conserves.
  - intros HY Hg. unfold T', O', w', resolvePair.
    rewrite (getObj_lookup _ _ _ HT), (getObj_lookup _ _ _ HO), HY.
    destruct (resolveY_massive w this o oldPos wasMovingDown
                (vy (size T) + vy (size O)) T O Hne HT HO HmO Hg)
      as (T1 & O1 & HT1 & HO1 & E1 & E2 & _ & _ & E3 & E4 & _).
    assert (exists T2 O2,
              heap (if resolvesX oldPos T O
                    then resolveX oldPos (vx (size T) + vx (size O)) this o
                           (resolveY oldPos wasMovingDown (vy (size T) + vy (size O)) this o w)
                    else resolveY oldPos wasMovingDown (vy (size T) + vy (size O)) this o w)
                !! this = Some T2 /\
              heap (if resolvesX oldPos T O
                    then resolveX oldPos (vx (size T) + vx (size O)) this o
                           (resolveY oldPos wasMovingDown (vy (size T) + vy (size O)) this o w)
                    else resolveY oldPos wasMovingDown (vy (size T) + vy (size O)) this o w)
                !! o = Some O2 /\
              vy (velocity T2) = vy (velocity T1) /\ vy (velocity O2) = vy (velocity O1))
      as (T2 & O2 & HT2 & HO2 & F1 & F2).
    { destruct (resolvesX oldPos T O).
      - destruct (resolveX_frame _ this o oldPos (vx (size T) + vx (size O)) T1 O1 Hne HT1 HO1)
          as (T2 & O2 & H1 & H2 & H3 & H4 & _).
        exists T2, O2. auto.
      - exists T1, O1. auto. }
    rewrite (getObj_lookup _ _ _ HT2), (getObj_lookup _ _ _ HO2).
    rewrite F1, F2, E1, E2.
    split; [reflexivity|]. split; [reflexivity|].
    now apply centerOfMass_conserves.
  - split; vm_compute; reflexivity.
Qed.

End PhysicsFacts.

Section PhysicsWitnesses.
Import Num Physics.
Local Open Scope Q_scope.

Lemma C1_fixed_mass_update_witness :
  let w' := Examples.baseUpdate 0%nat Examples.floatingWorld in
  w' = set_heap (<[0%nat := integrate Examples.floatingObject]> (heap Examples.floatingWorld))
                Examples.floatingWorld /\
  V2.veq (velocity (getObj w' 0%nat))
         (V2.scale (velocity Examples.floatingObject) (damping Examples.floatingObject)).
Proof.
  destruct (C1_fixed_mass_update (fun _ => 0) Examples.sin0 Examples.cos0 (fun _ => 0) 3
              baseCollideWithObject baseCollideWithTile
              Examples.floatingWorld 0%nat Examples.floatingObject)
    as (H1 & _ & H3); try reflexivity.
  split; [exact H1|].
  apply H3; [reflexivity| |]; split; vm_compute; discriminate.
Defined.

Lemma C3_momentum_average_witness :
  let w := modify 0%nat integrate Examples.headOn in
  let w' := resolvePair (vec 0 0) false 0%nat 1%nat w in
  vx (velocity (getObj w' 0%nat)) == 0 /\ vx (velocity (getObj w' 1%nat)) == 0 /\
  1 * vx (velocity (getObj w' 0%nat)) + 1 * vx (velocity (getObj w' 1%nat)) == 1 * 1 + 1 * -1.
Proof.
  destruct (C3_momentum_average (modify 0%nat integrate Examples.headOn) 0%nat 1%nat
              (vec 0 0) false
              (integrate (Examples.body (vec 0 0) (vec 1 0)))
              (Examples.body (vec (3#2) 0) (vec (-1) 0)))
    as (HX & _ & _); try reflexivity; try discriminate.
  destruct HX as (H1 & H2 & H3); [reflexivity|].
  cbv zeta. rewrite H1, H2. repeat split; vm_compute; reflexivity.
Defined.

Lemma C8_parented_update_witness :
  let w' := Examples.turnedUpdate 1%nat Examples.turned in
  V2.veq (pos (getObj Examples.turned 1%nat)) (vec 0 0) /\
  V2.veq (pos (getObj w' 1%nat)) (vec (48#5) (111#5)) /\
  angle (getObj Examples.turned 1%nat) == 0 /\
  angle (getObj w' 1%nat) == 1#2 /\
  velocity (getObj w' 1%nat) = vec (1#2) (1#4) /\
  angleVelocity (getObj w' 1%nat) = 1#8 /\
  (forall o, o <> 1%nat -> heap w' !! o = heap Examples.turned !! o) /\
  engineObjects w' = engineObjects Examples.turned.
Proof.
  destruct (C8_parented_update (fun _ => 0) Examples.sinR Examples.cosR (fun _ => 0) 3
              baseCollideWithObject baseCollideWithTile
              Examples.turned 1%nat 0%nat Examples.turnedChild)
    as (Hpos & Hangle & _ & _ & _ & Hvel & Hav & _ & _ & _ & _ & _ & _ & _ & Hothers & Hreg & _);
    try reflexivity.
  cbv zeta. unfold Examples.turnedUpdate.
  split; [split; vm_compute; reflexivity|].
  split; [rewrite Hpos; split; vm_compute; reflexivity|].
  split; [vm_compute; reflexivity|].
  split; [rewrite Hangle; vm_compute; reflexivity|].
  split; [exact Hvel|]. split; [exact Hav|]. split; [exact Hothers|exact Hreg].
Defined.

End PhysicsWitnesses.

(** ** Hierarchy *)

Section SpliceFacts.
Import Hierarchy.

Lemma indexOf_spec c l :
  (c ∈ l /\ 0 <= indexOf c l < Z.of_nat (length l)) \/ ((c ∉ l) /\ indexOf c l = -1).
Proof.
  induction l as [|x l IH]; cbn [indexOf length].
  - right. split; [apply not_elem_of_nil|reflexivity].
  - destruct (decide (x = c)) as [->|Hne].
    + left. split; [apply elem_of_cons; now left|lia].
    + destruct IH as [[Hin Hi]|[Hnin Hi]].
      * left. split; [apply elem_of_cons; now right|].
        destruct (Z.ltb_spec (indexOf c l) 0); lia.
      * right. split.
        -- intros H. apply elem_of_cons in H as [->|H]; [congruence|auto].
        -- rewrite Hi. reflexivity.
Qed.

Lemma splice1_sublist i l : splice1 i l `sublist_of` l.
Proof.
  unfold splice1.
  set (s := Z.to_nat _).
  rewrite <- (take_drop s l) at 3.
  apply sublist_app; [reflexivity|].
  replace (drop (S s) l) with (drop 1 (drop s l)) by (rewrite drop_drop; f_equal; lia).
  apply sublist_drop.
Qed.

Lemma splice1_elem_of i l x : x ∈ splice1 i l -> x ∈ l.
Proof.
  intros H. eapply elem_of_submseteq; [exact H|].
  apply sublist_submseteq, splice1_sublist.
Qed.

Lemma splice1_length i l : (length (splice1 i l) <= length l)%nat.
Proof. apply sublist_length, splice1_sublist. Qed.

Lemma splice1_NoDup i l : NoDup l -> NoDup (splice1 i l).
Proof. intros H. eapply sublist_NoDup; [exact H|apply splice1_sublist]. Qed.

Lemma splice1_indexOf_cons c x l :
  c ∈ x :: l ->
  splice1 (indexOf c (x :: l)) (x :: l)
  = if decide (x = c) then l else x :: splice1 (indexOf c l) l.
Proof.
  intros Hin. cbn [indexOf]. destruct (decide (x = c)) as [->|Hne].
  - unfold splice1. cbn. now rewrite drop_0.
  - apply elem_of_cons in Hin as [->|Hin]; [congruence|].
    destruct (indexOf_spec c l) as [[_ Hi]|[Hnin _]]; [|contradiction].
    destruct (Z.ltb_spec (indexOf c l) 0) as [|_]; [lia|].
    unfold splice1. cbn [length].
    destruct (Z.ltb_spec (1 + indexOf c l) 0) as [|_]; [lia|].
    destruct (Z.ltb_spec (indexOf c l) 0) as [|_]; [lia|].
    replace (Z.to_nat (Z.min (1 + indexOf c l) (Z.of_nat (S (length l)))))
      with (S (Z.to_nat (indexOf c l))) by lia.
    replace (Z.to_nat (Z.min (indexOf c l) (Z.of_nat (length l))))
      with (Z.to_nat (indexOf c l)) by lia.
    reflexivity.
Qed.

(** Removing a listed child from a duplicate-free array removes exactly it. *)
Lemma splice1_indexOf_elem_of c l x :
  NoDup l -> c ∈ l -> (x ∈ splice1 (indexOf c l) l <-> x ∈ l /\ x <> c).
Proof.
  induction l as [|y l IH]; intros Hnd Hin.
  - now apply elem_of_nil in Hin.
  - rewrite (splice1_indexOf_cons _ _ _ Hin).
    apply NoDup_cons in Hnd as [Hy Hnd].
    destruct (decide (y = c)) as [->|Hne].
    + rewrite elem_of_cons. split.
      * intros H. split; [now right|]. intros ->. contradiction.
      * intros [[->|H] Hx]; [congruence|exact H].
    + apply elem_of_cons in Hin as [->|Hin]; [congruence|].
      rewrite !elem_of_cons, (IH Hnd Hin). split.
      * intros [->|[H1 H2]]; [split; [now left|congruence]|split; [now right|exact H2]].
      * intros [[->|H1] H2]; [now left|right; auto].
Qed.

End SpliceFacts.

Section HierarchyFacts.
Import Hierarchy.

(** A field write leaves every field it does not assign as it was, for
    every object. *)
Lemma getObj_modify_frame {A} (g : EngineObject -> A) o f w x :
  (forall e, g (f e) = g e) -> g (getObj (modify o f w) x) = g (getObj w x).
Proof.
  intros H. rewrite getObj_modify.
  destruct (decide _) as [[<- _]|_]; [apply H|reflexivity].
Qed.

Lemma modify_absent o f w : heap w !! o = None -> modify o f w = w.
Proof.
  intros H. unfold modify. destruct w as [h a b c d e]. cbn in *.
  unfold set_heap. cbn. f_equal. apply map_eq. intros j.
  rewrite lookup_alter. destruct (decide (o = j)) as [<-|]; [now rewrite H|reflexivity].
Qed.

Lemma getObj_absent w o :
  heap w !! o = None -> getObj w o = construct (vec 0 0) defaultObjectSize 0.
Proof. intros H. unfold getObj. now rewrite lookup_total_alt, H. Qed.

Lemma parent_clear w c x :
  parent (getObj (modify c (set_parent None) w) x)
  = if decide (x = c) then None else parent (getObj w x).
Proof.
  rewrite getObj_modify. destruct (decide (c = x /\ _)) as [[<- _]|Hn].
  - now destruct (decide (c = c)).
  - destruct (decide (x = c)) as [->|]; [|reflexivity].
    destruct (heap w !! c) eqn:E.
    + exfalso. apply Hn. split; [reflexivity|]. now exists e.
    + now rewrite (getObj_absent _ _ E).
Qed.

Lemma destroyed_mark w o x :
  destroyed (getObj (modify o (set_destroyed true) w) x)
  = if decide (x = o /\ is_Some (heap w !! o)) then true else destroyed (getObj w x).
Proof.
  rewrite getObj_modify. destruct (decide (o = x /\ _)) as [[<- Hs]|Hn].
  - destruct (decide _) as [|Hn]; [reflexivity|]. exfalso. apply Hn. auto.
  - destruct (decide _) as [[-> Hs]|]; [|reflexivity]. exfalso. apply Hn. auto.
Qed.

Lemma children_removeChild w p c x :
  children (getObj (removeChild p c w) x)
  = if decide (x = p /\ is_Some (heap w !! p))
    then splice1 (indexOf c (children (getObj w p))) (children (getObj w p))
    else children (getObj w x).
Proof.
  unfold removeChild. rewrite getObj_modify_frame by reflexivity.
  rewrite getObj_modify. destruct (decide (p = x /\ _)) as [[<- Hs]|Hn].
  - destruct (decide _) as [|Hn]; [reflexivity|]. exfalso. apply Hn. auto.
  - destruct (decide _) as [[-> Hs]|]; [|reflexivity]. exfalso. apply Hn. auto.
Qed.

Lemma parent_removeChild w p c x :
  parent (getObj (removeChild p c w) x)
  = if decide (x = c) then None else parent (getObj w x).
Proof.
  unfold removeChild. rewrite parent_clear.
  destruct (decide (x = c)); [reflexivity|].
  now rewrite getObj_modify_frame by reflexivity.
Qed.

Lemma destroyed_removeChild w p c x :
  destroyed (getObj (removeChild p c w) x) = destroyed (getObj w x).
Proof. unfold removeChild. now rewrite !getObj_modify_frame by reflexivity. Qed.

Lemma shrinks_refl w : shrinks w w.
Proof. unfold shrinks. repeat split; auto. Qed.

Lemma shrinks_trans w1 w2 w3 : shrinks w1 w2 -> shrinks w2 w3 -> shrinks w1 w3.
Proof.
  intros (P1 & D1 & C1 & H1 & A1 & B1 & G1 & F1 & R1) (P2 & D2 & C2 & H2 & A2 & B2 & G2 & F2 & R2).
  unfold shrinks. repeat split; try congruence.
  - intros x. destruct (P2 x) as [E|E]; [rewrite E; apply P1|now right].
  - auto.
  - intros x. etransitivity; [apply C2|apply C1].
Qed.

Lemma shrinks_clear w c : shrinks w (modify c (set_parent None) w).
Proof.
  unfold shrinks. repeat split; try reflexivity.
  - intros x. rewrite parent_clear. destruct (decide (x = c)); auto.
  - intros x. now rewrite getObj_modify_frame by reflexivity.
  - intros x. now rewrite getObj_modify_frame by reflexivity.
  - apply dom_heap_modify.
Qed.

Lemma shrinks_mark w o : shrinks w (modify o (set_destroyed true) w).
Proof.
  unfold shrinks. repeat split; try reflexivity.
  - intros x. left. now rewrite getObj_modify_frame by reflexivity.
  - intros x H. rewrite destroyed_mark. now destruct (decide _).
  - intros x. now rewrite getObj_modify_frame by reflexivity.
  - apply dom_heap_modify.
Qed.

Lemma shrinks_removeChild w p c : shrinks w (removeChild p c w).
Proof.
  unfold shrinks. repeat split; try reflexivity.
  - intros x. rewrite parent_removeChild. destruct (decide (x = c)); auto.
  - intros x. now rewrite destroyed_removeChild.
  - intros x. rewrite children_removeChild.
    destruct (decide _) as [[-> _]|_]; [apply splice1_sublist|reflexivity].
  - unfold removeChild. now rewrite !dom_heap_modify.
Qed.

Lemma destroyRun_shrinks fuel : forall t w w',
  destroyRun fuel t w = Some w' ->
  shrinks w w' /\
  (detached t w -> forall x, children (getObj w' x) = children (getObj w x)).
Proof.
  induction fuel as [|fuel IH]; intros t w w' Hrun; [discriminate|].
  cbn [destroyRun] in Hrun. destruct t as [o|o i].
  - destruct (destroyed (getObj w o)) eqn:Hd.
    + injection Hrun as <-. split; [apply shrinks_refl|auto].
    + apply IH in Hrun as [Hs Hc]. split.
      * eapply shrinks_trans; [|exact Hs].
        eapply shrinks_trans; [apply shrinks_mark|].
        destruct (parent _); [apply shrinks_removeChild|apply shrinks_refl].
      * intros [Hdet|Hdet]; [congruence|]. intros x.
        rewrite (Hc I).
        rewrite (getObj_modify_frame parent) by reflexivity. rewrite Hdet.
        now rewrite getObj_modify_frame by reflexivity.
  - destruct (children (getObj w o) !! i) as [c|] eqn:Hi.
    + destruct (destroyRun fuel (DestroyCall c) (modify c (set_parent None) w))
        as [w1|] eqn:H1; [|discriminate].
      apply IH in H1 as [Hs1 Hc1]. apply IH in Hrun as [Hs2 Hc2].
      split.
      * eapply shrinks_trans; [apply shrinks_clear|].
        eapply shrinks_trans; eassumption.
      * intros _ x. rewrite (Hc2 I), Hc1.
        -- now rewrite getObj_modify_frame by reflexivity.
        -- right. rewrite parent_clear. now destruct (decide (c = c)).
    + injection Hrun as <-. split; [apply shrinks_refl|auto].
Qed.

Lemma elem_of_alive w x :
  x ∈ alive w <-> destroyed (getObj w x) = false /\ x ∈ dom (heap w).
Proof. unfold alive. now rewrite elem_of_filter. Qed.

Lemma alive_shrinks w w' : shrinks w w' -> alive w' ⊆ alive w.
Proof.
  intros (_ & D & _ & H & _) x. rewrite !elem_of_alive, H. intros [Hd Hx].
  split; [|exact Hx].
  destruct (destroyed (getObj w x)) eqn:E; [|reflexivity].
  apply D in E. congruence.
Qed.

Lemma alive_size_shrinks w w' :
  shrinks w w' -> (base.size (alive w') <= base.size (alive w))%nat.
Proof. intros H. apply subseteq_size, alive_shrinks, H. Qed.

Lemma alive_size_mark w o e :
  heap w !! o = Some e -> destroyed e = false ->
  (base.size (alive (modify o (set_destroyed true) w)) < base.size (alive w))%nat.
Proof.
  intros Ho Hd. apply subset_size. split.
  - apply alive_shrinks, shrinks_mark.
  - intros H. specialize (H o).
    rewrite !elem_of_alive in H.
    rewrite destroyed_mark in H.
    destruct (decide _) as [_|Hn].
    + destruct H as [H _]; [|discriminate].
      split; [now rewrite (getObj_lookup _ _ _ Ho)|].
      apply elem_of_dom. now exists e.
    + apply Hn. split; [reflexivity|now exists e].
Qed.

Lemma maxChildren_bound w x : (length (children (getObj w x)) <= maxChildren w)%nat.
Proof.
  destruct (heap w !! x) as [e|] eqn:E.
  - rewrite (getObj_lookup _ _ _ E). unfold maxChildren.
    apply max_list_elem_of_le. apply list_elem_of_fmap.
    exists (x, e). split; [reflexivity|]. now apply elem_of_map_to_list.
  - rewrite (getObj_absent _ _ E). cbn. lia.
Qed.

Lemma childrenBounded_shrinks L w w' :
  shrinks w w' -> childrenBounded L w -> childrenBounded L w'.
Proof.
  intros (_ & _ & C & _) H x. specialize (H x).
  pose proof (sublist_length _ _ (C x)). lia.
Qed.

(** [destroy] always returns: a call needs at most [2 + n*(L+2)] steps of
    fuel when [n] objects are not destroyed, a loop that has [r] entries
    left needs [r + 1] more. *)
Lemma destroyRun_total L n :
  (forall w o fuel,
     (base.size (alive w) <= n)%nat -> childrenBounded L w ->
     (2 + n * (L + 2) <= fuel)%nat ->
     is_Some (destroyRun fuel (DestroyCall o) w)) /\
  (forall r w o i fuel,
     (base.size (alive w) <= n)%nat -> childrenBounded L w ->
     (length (children (getObj w o)) - i <= r)%nat ->
     (r + 1 + (2 + n * (L + 2)) <= fuel)%nat ->
     is_Some (destroyRun fuel (DestroyLoop o i) w)).
Proof.
  induction n as [|n [IHcall IHloop]].
  - assert (forall w o fuel,
              (base.size (alive w) <= 0)%nat -> childrenBounded L w ->
              (2 + 0 * (L + 2) <= fuel)%nat ->
              is_Some (destroyRun fuel (DestroyCall o) w)) as Hcall.
    { intros w o fuel Hn HL Hfuel.
      destruct fuel as [|[|fuel]]; try lia. cbn [destroyRun].
      destruct (destroyed (getObj w o)) eqn:Hd; [eauto|].
      destruct (heap w !! o) as [e|] eqn:Ho.
      - exfalso. assert (o ∈ alive w) as Hin.
        { apply elem_of_alive. split; [exact Hd|]. apply elem_of_dom. now exists e. }
        assert (alive w ≡ ∅) as E by (apply size_empty_inv; lia).
        rewrite E in Hin. now apply not_elem_of_empty in Hin.
      - rewrite (modify_absent _ _ _ Ho), (getObj_absent _ _ Ho). cbn.
        rewrite (getObj_absent _ _ Ho). cbn. eauto. }
    split; [exact Hcall|].
    induction r as [|r IHr]; intros w o i fuel Hn HL Hr Hfuel;
      (destruct fuel as [|fuel]; [lia|]); cbn [destroyRun].
    + rewrite lookup_ge_None_2 by lia. eauto.
    + destruct (children (getObj w o) !! i) as [c|] eqn:Hi; [|eauto].
      destruct (Hcall (modify c (set_parent None) w) c fuel) as [w1 H1]; try lia.
      { pose proof (alive_size_shrinks _ _ (shrinks_clear w c)). lia. }
      { eapply childrenBounded_shrinks; [apply shrinks_clear|exact HL]. }
      rewrite H1. pose proof (destroyRun_shrinks _ _ _ _ H1) as [Hs Hc].
      apply IHr; try lia.
      * pose proof (alive_size_shrinks _ _ Hs).
        pose proof (alive_size_shrinks _ _ (shrinks_clear w c)). lia.
      * eapply childrenBounded_shrinks; [exact Hs|].
        eapply childrenBounded_shrinks; [apply shrinks_clear|exact HL].
      * rewrite Hc.
        -- rewrite getObj_modify_frame by reflexivity. lia.
        -- right. rewrite parent_clear. now destruct (decide (c = c)).
  - assert (forall w o fuel,
              (base.size (alive w) <= S n)%nat -> childrenBounded L w ->
              (2 + S n * (L + 2) <= fuel)%nat ->
              is_Some (destroyRun fuel (DestroyCall o) w)) as Hcall.
    { intros w o fuel Hn HL Hfuel.
      destruct fuel as [|fuel]; try lia. cbn [destroyRun].
      destruct (destroyed (getObj w o)) eqn:Hd; [eauto|].
      destruct (heap w !! o) as [e|] eqn:Ho.
      - assert (shrinks (modify o (set_destroyed true) w)
                  match parent (getObj (modify o (set_destroyed true) w) o) with
                  | Some p => removeChild p o (modify o (set_destroyed true) w)
                  | None => modify o (set_destroyed true) w
                  end) as Hs2
          by (destruct (parent _); [apply shrinks_removeChild|apply shrinks_refl]).
        apply (IHloop L); try lia.
        + pose proof (alive_size_shrinks _ _ Hs2).
          assert (destroyed e = false) as Hde by (now rewrite (getObj_lookup _ _ _ Ho) in Hd).
          pose proof (alive_size_mark _ _ _ Ho Hde). lia.
        + eapply childrenBounded_shrinks; [exact Hs2|].
          eapply childrenBounded_shrinks; [apply shrinks_mark|exact HL].
        + assert (childrenBounded L match parent (getObj (modify o (set_destroyed true) w) o) with
                  | Some p => removeChild p o (modify o (set_destroyed true) w)
                  | None => modify o (set_destroyed true) w
                  end) as HL2.
          { eapply childrenBounded_shrinks; [exact Hs2|].
            eapply childrenBounded_shrinks; [apply shrinks_mark|exact HL]. }
          specialize (HL2 o). lia.
      - rewrite (modify_absent _ _ _ Ho), (getObj_absent _ _ Ho). cbn [parent construct].
        destruct fuel as [|fuel]; [lia|]. cbn [destroyRun].
        rewrite (getObj_absent _ _ Ho). cbn. eauto. }
    split; [exact Hcall|].
    induction r as [|r IHr]; intros w o i fuel Hn HL Hr Hfuel;
      (destruct fuel as [|fuel]; [lia|]); cbn [destroyRun].
    + rewrite lookup_ge_None_2 by lia. eauto.
    + destruct (children (getObj w o) !! i) as [c|] eqn:Hi; [|eauto].
      destruct (Hcall (modify c (set_parent None) w) c fuel) as [w1 H1]; try lia.
      { pose proof (alive_size_shrinks _ _ (shrinks_clear w c)). lia. }
      { eapply childrenBounded_shrinks; [apply shrinks_clear|exact HL]. }
      rewrite H1. pose proof (destroyRun_shrinks _ _ _ _ H1) as [Hs Hc].
      apply IHr; try lia.
      * pose proof (alive_size_shrinks _ _ Hs).
        pose proof (alive_size_shrinks _ _ (shrinks_clear w c)). lia.
      * eapply childrenBounded_shrinks; [exact Hs|].
        eapply childrenBounded_shrinks; [apply shrinks_clear|exact HL].
      * rewrite Hc.
        -- rewrite getObj_modify_frame by reflexivity. lia.
        -- right. rewrite parent_clear. now destruct (decide (c = c)).
Qed.

Lemma destroy_total w o : is_Some (destroy o w).
Proof.
  unfold destroy, destroyFuel.
  apply (proj1 (destroyRun_total (maxChildren w) (base.size (alive w)))); try lia.
  intros x. apply maxChildren_bound.
Qed.

Lemma destroy_shrinks w o w' : destroy o w = Some w' -> shrinks w w'.
Proof. intros H. now apply destroyRun_shrinks in H as [H _]. Qed.

(** *** The hierarchy invariant *)


Lemma present_of_parent w c p : parent (getObj w c) = Some p -> is_Some (heap w !! c).
Proof.
  intros H. destruct (heap w !! c) eqn:E; [eauto|].
  rewrite (getObj_absent _ _ E) in H. discriminate.
Qed.










Lemma destroyRun_call fuel o w :
  destroyRun (S fuel) (DestroyCall o) w
  = if destroyed (getObj w o) then Some w
    else destroyRun fuel (DestroyLoop o 0)
           match parent (getObj (modify o (set_destroyed true) w) o) with
           | Some p => removeChild p o (modify o (set_destroyed true) w)
           | None => modify o (set_destroyed true) w
           end.
Proof. reflexivity. Qed.


Lemma destroy_destroyed w o : destroyed (getObj w o) = true -> destroy o w = Some w.
Proof. intros H. unfold destroy, destroyFuel. cbn [Nat.add destroyRun]. now rewrite H. Qed.

Lemma destroy_absent w o : heap w !! o = None -> destroy o w = Some w.
Proof.
  intros H. unfold destroy, destroyFuel. cbn [Nat.add destroyRun].
  rewrite (modify_absent _ _ _ H), !(getObj_absent _ _ H).
  cbn [destroyed parent construct]. rewrite (getObj_absent _ _ H). reflexivity.
Qed.

Lemma destroy_marks w o w' :
  is_Some (heap w !! o) -> destroy o w = Some w' -> destroyed (getObj w' o) = true.
Proof.
  intros Ho H. unfold destroy, destroyFuel in H. cbn [Nat.add] in H.
  rewrite destroyRun_call in H.
  destruct (destroyed (getObj w o)) eqn:Hd; [now injection H as <-|].
  apply destroyRun_shrinks in H as [(_ & D & _) _]. apply D.
  assert (destroyed (getObj (modify o (set_destroyed true) w) o) = true) as Hm.
  { rewrite destroyed_mark. destruct (decide _) as [|Hn]; [reflexivity|]. exfalso. apply Hn. auto. }
  destruct (parent _); [|exact Hm]. now rewrite destroyed_removeChild.
Qed.





Lemma runOp_total op w : is_Some (runOp op w).
Proof. destruct op; cbn [runOp]; eauto. apply destroy_total. Qed.






(** C10: [destroy()] always returns, and calling it again on the world it
    left returns that world unchanged: the destroyed flag it set makes the
    second call return at its first line, before the parent detach and the
    loop over the children.  A call on an object that is already destroyed
    changes nothing. *)
Theorem C10_destroy_idempotent (w : World) (o : id) :
  exists w1,
    destroy o w = Some w1 /\
    destroy o w1 = Some w1 /\
    (is_Some (heap w !! o) -> destroyed (getObj w1 o) = true) /\
    (destroyed (getObj w o) = true -> w1 = w).
Proof.
  destruct (destroy_total w o) as [w1 H1]. exists w1.
  split; [exact H1|]. split; [|split].
  - destruct (heap w !! o) as [e|] eqn:Ho.
    + apply destroy_destroyed. eapply destroy_marks; [|exact H1]. rewrite Ho. eauto.
    + rewrite (destroy_absent _ _ Ho) in H1. injection H1 as <-. now apply destroy_absent.
  - intros Ho. eapply destroy_marks; eassumption.
  - intros Hd. rewrite (destroy_destroyed _ _ Hd) in H1. congruence.
Qed.

End HierarchyFacts.

Section HierarchyWitnesses.
Import Hierarchy.


End HierarchyWitnesses.

(** ** What [update()] of the base class leaves alone *)

Section UpdateFrame.
Import Num Physics Hierarchy.
Local Open Scope Q_scope.

Variable Math_random : nat -> Q.
Variables Math_sin Math_cos Math_sqrt : Q -> Q.
Variable PI : Q.
Variable collideWithObject : World -> id -> id -> bool.
Variable collideWithTile : id -> Tile.TileFilter.

Lemma sameHierarchy_refl w : sameHierarchy w w.
Proof. unfold sameHierarchy. repeat split. Qed.

Lemma sameHierarchy_trans w1 w2 w3 :
  sameHierarchy w1 w2 -> sameHierarchy w2 w3 -> sameHierarchy w1 w3.
Proof.
  intros (A1 & B1 & C1 & D1 & E1 & F1) (A2 & B2 & C2 & D2 & E2 & F2).
  unfold sameHierarchy. repeat split; try congruence.
  - destruct (F1 x) as (H & _), (F2 x) as (H' & _). congruence.
  - destruct (F1 x) as (_ & H & _), (F2 x) as (_ & H' & _). congruence.
  - destruct (F1 x) as (_ & _ & H), (F2 x) as (_ & _ & H'). congruence.
Qed.

Lemma sameHierarchy_modify w w1 o f :
  sameHierarchy w w1 ->
  (forall e, parent (f e) = parent e) ->
  (forall e, children (f e) = children e) ->
  (forall e, destroyed (f e) = destroyed e) ->
  sameHierarchy w (modify o f w1).
Proof.
  intros H Hp Hc Hd. eapply sameHierarchy_trans; [exact H|].
  unfold sameHierarchy. repeat split.
  - apply dom_heap_modify.
  - now apply getObj_modify_frame.
  - now apply getObj_modify_frame.
  - now apply getObj_modify_frame.
Qed.

Lemma sameHierarchy_randomCalls w w1 n :
  sameHierarchy w w1 -> sameHierarchy w (set_randomCalls n w1).
Proof.
  intros H. eapply sameHierarchy_trans; [exact H|]. unfold sameHierarchy. repeat split.
Qed.

(** Closes a goal [sameHierarchy w (...writes... w1)] given [sameHierarchy w w1]. *)
Ltac frame :=
  repeat first
    [ eassumption
    | apply sameHierarchy_refl
    | apply sameHierarchy_modify; [|reflexivity|reflexivity|reflexivity]
    | apply sameHierarchy_randomCalls
    | match goal with
      | |- context [if ?b then _ else _] => destruct b
      | |- context [match ?x with _ => _ end] => destruct x
      end ].

Lemma pushAway_frame w w1 oldPos this o :
  sameHierarchy w w1 ->
  sameHierarchy w (pushAway Math_random Math_sin Math_cos Math_sqrt PI oldPos this o w1).
Proof. intros H. unfold pushAway. frame. Qed.

Lemma resolveY_sameHierarchy w w1 oldPos wmd sy this o :
  sameHierarchy w w1 -> sameHierarchy w (resolveY oldPos wmd sy this o w1).
Proof. intros H. unfold resolveY. frame. Qed.

Lemma resolveX_sameHierarchy w w1 oldPos sx this o :
  sameHierarchy w w1 -> sameHierarchy w (resolveX oldPos sx this o w1).
Proof. intros H. unfold resolveX. frame. Qed.

Lemma collideWithSolid_frame w w1 oldPos wmd this o :
  sameHierarchy w w1 ->
  sameHierarchy w (collideWithSolid Math_random Math_sin Math_cos Math_sqrt PI
                     collideWithObject oldPos wmd this w1 o).
Proof.
  intros H. unfold collideWithSolid.
  destruct (pairCollides _ _ _ _); [|exact H].
  destruct (V2.isOverlapping _ _ _ _); [now apply pushAway_frame|].
  unfold resolvePair.
  destruct (resolvesX _ _ _), (resolvesY _ _ _);
    repeat first [apply resolveX_sameHierarchy | apply resolveY_sameHierarchy | exact H].
Qed.

Lemma collideLoop_frame oldPos wmd this l : forall w w1,
  sameHierarchy w w1 ->
  sameHierarchy w (fold_left (collideWithSolid Math_random Math_sin Math_cos Math_sqrt PI
                                collideWithObject oldPos wmd this) l w1).
Proof.
  induction l as [|o l IH]; intros w w1 H; cbn [fold_left]; [exact H|].
  apply IH. now apply collideWithSolid_frame.
Qed.

Lemma collideWithTiles_frame w w1 oldPos wmd this :
  sameHierarchy w w1 ->
  sameHierarchy w (collideWithTiles collideWithTile oldPos wmd this w1).
Proof. intros H. unfold collideWithTiles. frame. Qed.

Lemma applyFriction_frame w w1 this :
  sameHierarchy w w1 -> sameHierarchy w (applyFriction this w1).
Proof. intros H. unfold applyFriction. frame. Qed.

(** [update()] of the base class writes no parent reference, no children
    array, no destroyed flag and no registry. *)
Lemma update_sameHierarchy w this :
  sameHierarchy w (update Math_random Math_sin Math_cos Math_sqrt PI
                     collideWithObject collideWithTile this w).
Proof.
  unfold update. destruct (parent (getObj w this)) as [p|].
  - unfold updateParented. frame.
  - unfold updateRoot.
    assert (sameHierarchy w (modify this integrate w)) as H1 by frame.
    destruct (Qeq_bool _ _); [exact H1|].
    assert (sameHierarchy w (applyFriction this (modify this integrate w))) as H2
      by now apply applyFriction_frame.
    set (w2 := applyFriction this (modify this integrate w)) in *.
    assert (sameHierarchy w
              (if collideSolidObjects (getObj w2 this)
               then fold_left (collideWithSolid Math_random Math_sin Math_cos Math_sqrt PI
                        collideWithObject (V2.copy (pos (getObj w this)))
                        (Qltb (vy (velocity (getObj (modify this integrate w) this))) 0) this)
                      (engineCollideObjects w2) w2
               else w2)) as H3.
    { destruct (collideSolidObjects _); [now apply collideLoop_frame|exact H2]. }
    destruct (collideTiles _); [now apply collideWithTiles_frame|exact H3].
Qed.

End UpdateFrame.

(** ** The per-tick traversal *)

Section SchedulerFacts.
Import Scheduler.

Variable update : id -> World -> World.

Lemma updateObject_destroyed fuel o w :
  destroyed (getObj w o) = true ->
  updateObject update (S fuel) (Visit o) w = Some (w, [SkippedDestroyed o]).
Proof. intros H. cbn [updateObject]. now rewrite H. Qed.

Lemma updateObject_children fuel o i w :
  updateObject update (S fuel) (Children o i) w
  = match children (getObj w o) !! i with
    | None => Some (w, [])
    | Some child =>
        match updateObject update fuel (Visit child) w with
        | Some (w1, evs1) =>
            match updateObject update fuel (Children o (S i)) w1 with
            | Some (w2, evs2) => Some (w2, evs1 ++ evs2)
            | None => None
            end
        | None => None
        end
    end.
Proof. reflexivity. Qed.

Lemma updateObject_children_skip fuel o i c w :
  children (getObj w o) !! i = Some c -> destroyed (getObj w c) = true ->
  updateObject update (S (S fuel)) (Children o i) w
  = match updateObject update (S fuel) (Children o (S i)) w with
    | Some (w2, evs2) => Some (w2, SkippedDestroyed c :: evs2)
    | None => None
    end.
Proof.
  intros Hi Hd. rewrite (updateObject_children (S fuel)), Hi.
  rewrite (updateObject_destroyed fuel c w Hd). reflexivity.
Qed.

Lemma visit_event fuel o w w1 evs :
  updateObject update fuel (Visit o) w = Some (w1, evs) ->
  Updated o ∈ evs \/ SkippedDestroyed o ∈ evs.
Proof.
  destruct fuel as [|fuel]; [discriminate|]. cbn [updateObject].
  destruct (destroyed (getObj w o)).
  - intros [= <- <-]. right. apply list_elem_of_singleton. reflexivity.
  - destruct (updateObject update fuel (Children o 0) (update o w)) as [[w' evs']|];
      [|discriminate].
    intros [= <- <-]. left. apply elem_of_cons. now left.
Qed.

Lemma compact_registry w o :
  o ∈ engineObjects (compact w) <->
  o ∈ engineObjects w /\ destroyed (getObj w o) = false.
Proof.
  unfold compact. cbn. rewrite list_elem_of_In, filter_In, <- list_elem_of_In.
  now rewrite negb_true_iff.
Qed.

Lemma compact_collide_registry w o :
  o ∈ engineCollideObjects (compact w) <->
  o ∈ engineCollideObjects w /\ destroyed (getObj w o) = false.
Proof.
  unfold compact. cbn. rewrite list_elem_of_In, filter_In, <- list_elem_of_In.
  now rewrite negb_true_iff.
Qed.

Lemma compact_heap w : heap (compact w) = heap w.
Proof. reflexivity. Qed.

Lemma getObj_compact w o : getObj (compact w) o = getObj w o.
Proof. reflexivity. Qed.

Section Push.

(** The registry is changed in place during the traversal only by the
    constructor, which pushes onto it. *)
Hypothesis Hpush : forall o w, engineObjects w `prefix_of` engineObjects (update o w).

Lemma updateObject_prefix fuel : forall t w w1 evs,
  updateObject update fuel t w = Some (w1, evs) ->
  engineObjects w `prefix_of` engineObjects w1.
Proof.
  induction fuel as [|fuel IH]; intros t w w1 evs H; [discriminate|].
  cbn [updateObject] in H. destruct t as [o|o i].
  - destruct (destroyed (getObj w o)); [now injection H as <- _|].
    destruct (updateObject update fuel (Children o 0) (update o w)) as [[w' evs']|] eqn:E;
      [|discriminate].
    injection H as <- _. etransitivity; [apply Hpush|]. eapply IH, E.
  - destruct (children (getObj w o) !! i) as [c|]; [|now injection H as <- _].
    destruct (updateObject update fuel (Visit c) w) as [[wa evsa]|] eqn:Ea; [|discriminate].
    destruct (updateObject update fuel (Children o (S i)) wa) as [[wb evsb]|] eqn:Eb;
      [|discriminate].
    injection H as <- _. etransitivity; [eapply IH, Ea|eapply IH, Eb].
Qed.

Lemma updateRoots_turns fuel : forall i w w1 evs,
  updateRoots update fuel i w = Some (w1, evs) ->
  engineObjects w `prefix_of` engineObjects w1 /\
  forall j o, (i <= j)%nat -> engineObjects w !! j = Some o -> hadTurn o evs.
Proof.
  induction fuel as [|fuel IH]; intros i w w1 evs H; [discriminate|].
  cbn [updateRoots] in H.
  destruct (engineObjects w !! i) as [oi|] eqn:Hi.
  - destruct (parent (getObj w oi)).
    + destruct (updateRoots update fuel (S i) w) as [[w2 evs2]|] eqn:E; [|discriminate].
      injection H as <- <-. destruct (IH _ _ _ _ E) as [Hp Ht].
      split; [exact Hp|]. intros j o Hj Ho.
      destruct (decide (j = i)) as [->|Hne].
      * assert (o = oi) as -> by congruence.
        right. right. apply elem_of_cons. now left.
      * destruct (Ht j o) as [T|[T|T]]; [lia|exact Ho|..].
        -- left. apply elem_of_cons. now right.
        -- right. left. apply elem_of_cons. now right.
        -- right. right. apply elem_of_cons. now right.
    + destruct (updateObject update fuel (Visit oi) w) as [[wa evsa]|] eqn:Ea; [|discriminate].
      destruct (updateRoots update fuel (S i) wa) as [[wb evsb]|] eqn:Eb; [|discriminate].
      injection H as <- <-.
      pose proof (updateObject_prefix _ _ _ _ _ Ea) as Hpa.
      destruct (IH _ _ _ _ Eb) as [Hpb Ht].
      split; [etransitivity; eassumption|]. intros j o Hj Ho.
      destruct (decide (j = i)) as [->|Hne].
      * assert (o = oi) as -> by congruence.
        destruct (visit_event _ _ _ _ _ Ea) as [T|T].
        -- left. apply elem_of_app. now left.
        -- right. left. apply elem_of_app. now left.
      * destruct (Ht j o) as [T|[T|T]]; [lia|eapply prefix_lookup_Some; eassumption|..].
        -- left. apply elem_of_app. now right.
        -- right. left. apply elem_of_app. now right.
        -- right. right. apply elem_of_app. now right.
  - injection H as <- <-. split; [reflexivity|].
    intros j o Hj Ho. apply lookup_lt_Some in Ho. apply lookup_ge_None in Hi. lia.
Qed.

End Push.

(** What one tick guarantees.  When [engineUpdateObjects] returns, no object
    left in either registry is destroyed, and the compaction removed nothing
    else: every object that the traversal left in a registry and that is
    not destroyed is still there, so (the registry only growing during the
    traversal) every object registered at the start of the tick that is not
    destroyed at its end is kept.  During the traversal every object of the
    registry gets its turn, whatever happened to the others; an object
    found destroyed at its visit is not updated, its children are not
    visited and the world is left as it was; in the loop over the children
    of an object a destroyed child is skipped and the loop goes on with the
    next index. *)
Lemma engineUpdateObjects_spec (fuel : nat) (w w' : World) (evs : list Event) :
  (forall o w0, engineObjects w0 `prefix_of` engineObjects (update o w0)) ->
  engineUpdateObjects update fuel w = Some (w', evs) ->
  (forall o, o ∈ engineObjects w' -> destroyed (getObj w' o) = false) /\
  (forall o, o ∈ engineCollideObjects w' -> destroyed (getObj w' o) = false) /\
  (exists w1,
     updateRoots update fuel 0 w = Some (w1, evs) /\ w' = compact w1 /\
     (forall o, o ∈ engineObjects w1 -> destroyed (getObj w1 o) = false ->
                o ∈ engineObjects w') /\
     (forall o, o ∈ engineCollideObjects w1 -> destroyed (getObj w1 o) = false ->
                o ∈ engineCollideObjects w')) /\
  (forall o, o ∈ engineObjects w -> destroyed (getObj w' o) = false ->
             o ∈ engineObjects w') /\
  (forall o, o ∈ engineObjects w -> hadTurn o evs) /\
  (forall f o w0, destroyed (getObj w0 o) = true ->
     updateObject update (S f) (Visit o) w0 = Some (w0, [SkippedDestroyed o])) /\
  (forall f o i c w0,
     children (getObj w0 o) !! i = Some c -> destroyed (getObj w0 c) = true ->
     updateObject update (S (S f)) (Children o i) w0
     = match updateObject update (S f) (Children o (S i)) w0 with
       | Some (w2, evs2) => Some (w2, SkippedDestroyed c :: evs2)
       | None => None
       end).
Proof.
  intros Hpush H. unfold engineUpdateObjects in H.
  destruct (updateRoots update fuel 0 w) as [[w1 evs1]|] eqn:E; [|discriminate].
  injection H as <- <-.
  destruct (updateRoots_turns Hpush _ _ _ _ _ E) as [Hp Ht].
  split; [|split; [|split; [|split; [|split; [|split]]]]].
  - intros o Ho. apply compact_registry in Ho. now rewrite getObj_compact.
  - intros o Ho. apply compact_collide_registry in Ho. now rewrite getObj_compact.
  - exists w1. split; [reflexivity|]. split; [reflexivity|]. split.
    + intros o Ho Hd. now apply compact_registry.
    + intros o Ho Hd. now apply compact_collide_registry.
  - intros o Ho Hd. apply compact_registry. rewrite getObj_compact in Hd.
    split; [|exact Hd]. eapply elem_of_submseteq; [exact Ho|].
    apply sublist_submseteq. destruct Hp as [k ->]. apply sublist_inserts_r. reflexivity.
  - intros o Ho. apply list_elem_of_lookup in Ho as [j Hj].
    apply (Ht j o); [lia|exact Hj].
  - intros f o w0. apply updateObject_destroyed.
  - intros f o i c w0. apply updateObject_children_skip.
Qed.

(** *** The traversal returns *)

Section Total.

(** [Inv] is any property of the world that the updates keep and that
    implies the bounds of [ranked]. *)
Variable rank : id -> nat.
Variables R L M : nat.
Variable Inv : World -> Prop.

Local Abbreviation ranked := (ranked rank R L M).
Local Abbreviation visitFuel := (visitFuel L).

Hypothesis Inv_update : forall o w, Inv w -> Inv (update o w).
Hypothesis Inv_ranked : forall w, Inv w -> ranked w.

Lemma updateObject_Inv fuel : forall t w w1 evs,
  updateObject update fuel t w = Some (w1, evs) -> Inv w -> Inv w1.
Proof.
  induction fuel as [|fuel IH]; intros t w w1 evs H HI; [discriminate|].
  cbn [updateObject] in H. destruct t as [o|o i].
  - destruct (destroyed (getObj w o)); [now injection H as <- _|].
    destruct (updateObject update fuel (Children o 0) (update o w)) as [[w' evs']|] eqn:E;
      [|discriminate].
    injection H as <- _. eapply IH; [exact E|]. now apply Inv_update.
  - destruct (children (getObj w o) !! i) as [c|]; [|now injection H as <- _].
    destruct (updateObject update fuel (Visit c) w) as [[wa evsa]|] eqn:Ea; [|discriminate].
    destruct (updateObject update fuel (Children o (S i)) wa) as [[wb evsb]|] eqn:Eb;
      [|discriminate].
    injection H as <- _. eapply IH; [exact Eb|]. eapply IH; [exact Ea|exact HI].
Qed.

Lemma updateObject_total r :
  (forall o w fuel, Inv w -> (rank o <= r)%nat -> (visitFuel r <= fuel)%nat ->
     is_Some (updateObject update fuel (Visit o) w)) /\
  (forall n o i w fuel, Inv w -> (rank o <= r)%nat -> (L - i <= n)%nat ->
     (n + 1 + (visitFuel r - (L + 2)) <= fuel)%nat ->
     is_Some (updateObject update fuel (Children o i) w)).
Proof.
  induction r as [|r [IHv IHc]].
  - assert (forall n o i w fuel, Inv w -> (rank o <= 0)%nat -> (L - i <= n)%nat ->
              (n + 1 + (visitFuel 0 - (L + 2)) <= fuel)%nat ->
              is_Some (updateObject update fuel (Children o i) w)) as Hc.
    { unfold visitFuel. induction n as [|n IHn]; intros o i w fuel HI Hr Hn Hfuel;
        (destruct fuel as [|fuel]; [lia|]); cbn [updateObject].
      - destruct (Inv_ranked _ HI) as (_ & _ & HL & _). specialize (HL o).
        rewrite lookup_ge_None_2 by lia. eauto.
      - destruct (children (getObj w o) !! i) as [c|] eqn:Hi; [|eauto].
        assert (destroyed (getObj w c) = true) as Hd.
        { destruct (destroyed (getObj w c)) eqn:Hd; [reflexivity|].
          destruct (Inv_ranked _ HI) as (_ & Hrk & _).
          apply list_elem_of_lookup_2 in Hi. specialize (Hrk _ _ Hi Hd). lia. }
        destruct fuel as [|fuel]; [lia|].
        rewrite (updateObject_destroyed _ _ _ Hd).
        destruct (IHn o (S i) w (S fuel)) as [[w2 evs2] ->]; try assumption; try lia.
        eauto. }
    split; [|exact Hc].
    intros o w fuel HI Hr Hfuel. unfold visitFuel in *.
    destruct fuel as [|fuel]; [lia|]. cbn [updateObject].
    destruct (destroyed (getObj w o)); [eauto|].
    destruct (Hc L o 0%nat (update o w) fuel) as [[w' evs'] ->];
      try lia; [now apply Inv_update|eauto].
  - assert (forall n o i w fuel, Inv w -> (rank o <= S r)%nat -> (L - i <= n)%nat ->
              (n + 1 + (visitFuel (S r) - (L + 2)) <= fuel)%nat ->
              is_Some (updateObject update fuel (Children o i) w)) as Hc.
    { assert (visitFuel (S r) - (L + 2) = visitFuel r)%nat as -> by (unfold visitFuel; lia).
      induction n as [|n IHn]; intros o i w fuel HI Hr Hn Hfuel;
        (destruct fuel as [|fuel]; [lia|]); cbn [updateObject].
      - destruct (Inv_ranked _ HI) as (_ & _ & HL & _). specialize (HL o).
        rewrite lookup_ge_None_2 by lia. eauto.
      - destruct (children (getObj w o) !! i) as [c|] eqn:Hi; [|eauto].
        assert (is_Some (updateObject update fuel (Visit c) w)) as [[wa evsa] Ha].
        { destruct (destroyed (getObj w c)) eqn:Hd.
          - destruct fuel as [|fuel]; [unfold visitFuel in *; lia|].
            rewrite (updateObject_destroyed _ _ _ Hd). eauto.
          - destruct (Inv_ranked _ HI) as (_ & Hrk & _).
            apply list_elem_of_lookup_2 in Hi. specialize (Hrk _ _ Hi Hd).
            apply IHv; [exact HI|lia|lia]. }
        rewrite Ha.
        destruct (IHn o (S i) wa fuel) as [[w2 evs2] ->]; try lia;
          [eapply updateObject_Inv; eassumption|eauto]. }
    split; [|exact Hc].
    intros o w fuel HI Hr Hfuel.
    destruct fuel as [|fuel]; [unfold visitFuel in *; lia|]. cbn [updateObject].
    destruct (destroyed (getObj w o)); [eauto|].
    destruct (Hc L o 0%nat (update o w) fuel) as [[w' evs'] ->];
      try (unfold visitFuel in *; lia); [now apply Inv_update|eauto].
Qed.

Lemma updateRoots_Inv fuel : forall i w w1 evs,
  updateRoots update fuel i w = Some (w1, evs) -> Inv w -> Inv w1.
Proof.
  induction fuel as [|fuel IH]; intros i w w1 evs H HI; [discriminate|].
  cbn [updateRoots] in H.
  destruct (engineObjects w !! i) as [oi|]; [|now injection H as <- _].
  destruct (parent (getObj w oi)).
  - destruct (updateRoots update fuel (S i) w) as [[w2 evs2]|] eqn:E; [|discriminate].
    injection H as <- _. eapply IH; eassumption.
  - destruct (updateObject update fuel (Visit oi) w) as [[wa evsa]|] eqn:Ea; [|discriminate].
    destruct (updateRoots update fuel (S i) wa) as [[wb evsb]|] eqn:Eb; [|discriminate].
    injection H as <- _. eapply IH; [exact Eb|]. eapply updateObject_Inv; eassumption.
Qed.

Lemma updateRoots_total n : forall i w fuel,
  Inv w -> (M - i <= n)%nat -> (n + 1 + visitFuel R <= fuel)%nat ->
  is_Some (updateRoots update fuel i w).
Proof.
  induction n as [|n IHn]; intros i w fuel HI Hn Hfuel;
    (destruct fuel as [|fuel]; [lia|]); cbn [updateRoots].
  - destruct (Inv_ranked _ HI) as (_ & _ & _ & HM).
    rewrite lookup_ge_None_2 by lia. eauto.
  - destruct (engineObjects w !! i) as [oi|]; [|eauto].
    destruct (parent (getObj w oi)).
    + destruct (IHn (S i) w fuel) as [[w2 evs2] ->]; try assumption; try lia. eauto.
    + destruct (proj1 (updateObject_total R) oi w fuel) as [[wa evsa] Ha];
        try assumption; try lia.
      { destruct (Inv_ranked _ HI) as (HR & _). apply HR. }
      rewrite Ha.
      destruct (IHn (S i) wa fuel) as [[w2 evs2] ->]; try lia;
        [eapply updateObject_Inv; eassumption|eauto].
Qed.

(** With fuel for one visit per registry entry, [engineUpdateObjects]
    returns. *)
Lemma engineUpdateObjects_total w fuel :
  Inv w -> (M + 1 + visitFuel R <= fuel)%nat ->
  is_Some (engineUpdateObjects update fuel w).
Proof.
  intros HI Hfuel. unfold engineUpdateObjects.
  destruct (updateRoots_total M 0%nat w fuel HI) as [[w1 evs] ->]; try lia. eauto.
Qed.

End Total.

End SchedulerFacts.

(** *** The traversal with the update of the base class *)

Section BaseTraversal.
Import Physics Hierarchy Scheduler.

Variable Math_random : nat -> Q.
Variables Math_sin Math_cos Math_sqrt : Q -> Q.
Variable PI : Q.
Variable collideWithObject : World -> id -> id -> bool.
Variable collideWithTile : id -> Tile.TileFilter.

Local Abbreviation update :=
  (update Math_random Math_sin Math_cos Math_sqrt PI collideWithObject collideWithTile).

Lemma update_push o w : engineObjects w `prefix_of` engineObjects (update o w).
Proof.
  destruct (update_sameHierarchy Math_random Math_sin Math_cos Math_sqrt PI
              collideWithObject collideWithTile w o) as (-> & _).
  reflexivity.
Qed.

(** On a hierarchy that has a height function, one tick with the update of
    the base class returns. *)
Lemma engineUpdateObjects_base_total (w : World) (rank : id -> nat) (R fuel : nat) :
  (forall o, (rank o <= R)%nat) ->
  (forall p c, c ∈ children (getObj w p) -> destroyed (getObj w c) = false ->
               (rank c < rank p)%nat) ->
  (List.length (engineObjects w) + 1 + visitFuel (maxChildren w) R <= fuel)%nat ->
  is_Some (engineUpdateObjects update fuel w).
Proof.
  intros HR Hrk Hfuel.
  apply (engineUpdateObjects_total update rank R (maxChildren w) (List.length (engineObjects w))
           (sameHierarchy w)).
  - intros o w1 H. eapply sameHierarchy_trans; [exact H|]. apply update_sameHierarchy.
  - intros w1 (E1 & _ & _ & _ & _ & F). unfold ranked. split; [exact HR|]. split; [|split].
    + intros p c. destruct (F p) as (_ & -> & _), (F c) as (_ & _ & ->). apply Hrk.
    + intros o. destruct (F o) as (_ & -> & _). apply maxChildren_bound.
    + now rewrite E1.
  - apply sameHierarchy_refl.
  - exact Hfuel.
Qed.

End BaseTraversal.

Section SchedulerWitnesses.
Import Physics Hierarchy Scheduler.

Lemma killerUpdate_push o w :
  engineObjects w `prefix_of` engineObjects (Examples.killerUpdate o w).
Proof.
  destruct o as [|o]; cbn [Examples.killerUpdate].
  - destruct (destroy 1%nat w) as [w'|] eqn:E; cbn; [|reflexivity].
    apply destroy_shrinks in E as (_ & _ & _ & _ & E & _). rewrite E. reflexivity.
  - apply update_push.
Qed.

Example engineUpdateObjects_spec_example :
  exists w' evs,
    engineUpdateObjects Examples.killerUpdate 20 Examples.attached = Some (w', evs) /\
    evs = [Updated 0%nat; SkippedDestroyed 1%nat; Updated 2%nat] /\
    engineObjects w' = [0%nat; 2%nat] /\
    (forall o, o ∈ engineObjects w' -> destroyed (getObj w' o) = false) /\
    (forall o, o ∈ engineObjects Examples.attached -> hadTurn o evs).
Proof.
  destruct (engineUpdateObjects Examples.killerUpdate 20 Examples.attached)
    as [[w' evs]|] eqn:E; [|vm_compute in E; discriminate].
  exists w', evs. split; [reflexivity|].
  destruct (engineUpdateObjects_spec Examples.killerUpdate 20 Examples.attached w' evs
              killerUpdate_push E) as (H1 & _ & _ & _ & H5 & _).
  assert (evs = [Updated 0%nat; SkippedDestroyed 1%nat; Updated 2%nat]
          /\ engineObjects w' = [0%nat; 2%nat]) as [He Ho].
  { assert (option_map (fun r => (snd r, engineObjects (fst r)))
              (engineUpdateObjects Examples.killerUpdate 20 Examples.attached)
            = Some ([Updated 0%nat; SkippedDestroyed 1%nat; Updated 2%nat], [0%nat; 2%nat]))
      as H by (vm_compute; reflexivity).
    rewrite E in H. cbn in H. injection H as -> ->. split; reflexivity. }
  repeat split; assumption.
Qed.

(** C9 (the code departs from the specification): object 0 lists the children 1 and
    2, and the update of object 1 ends in [this.destroy()].  The loop
    [for(const child of o.children)] of [updateObject] reads the array
    afresh at every step: [destroy] splices object 1 out of it through
    [removeChild], object 2 moves down to index 0, and the iterator, which
    goes on at index 1, ends.  Object 2 is not destroyed, stays attached to
    object 0 and stays in the registry, yet the tick never updates it; its
    only event is that the loop over the registry passed it over as a
    child.  Object 1, destroyed by then, is skipped when the loop over the
    registry reaches it. *)
Theorem C9_sibling_not_updated_after_destroy :
  children (getObj Examples.family 0%nat) = [1%nat; 2%nat] /\
  engineObjects Examples.family = [0%nat; 1%nat; 2%nat] /\
  match engineUpdateObjects Examples.selfDestroyUpdate 20 Examples.family with
  | Some (w', evs) =>
      evs = [Updated 0%nat; Updated 1%nat; SkippedDestroyed 1%nat; SkippedParented 2%nat] /\
      (Updated 2%nat ∉ evs) /\
      destroyed (getObj w' 2%nat) = false /\
      parent (getObj w' 2%nat) = Some 0%nat /\
      children (getObj w' 0%nat) = [2%nat] /\
      destroyed (getObj w' 0%nat) = false /\
      engineObjects w' = [0%nat; 2%nat]
  | None => False
  end.
Proof.
  split; [vm_compute; reflexivity|]. split; [vm_compute; reflexivity|].
  destruct (engineUpdateObjects Examples.selfDestroyUpdate 20 Examples.family)
    as [[w' evs]|] eqn:E; [|vm_compute in E; discriminate].
  assert (option_map (fun r => (snd r, destroyed (getObj (fst r) 2%nat),
                                parent (getObj (fst r) 2%nat),
                                children (getObj (fst r) 0%nat),
                                destroyed (getObj (fst r) 0%nat),
                                engineObjects (fst r)))
            (engineUpdateObjects Examples.selfDestroyUpdate 20 Examples.family)
          = Some ([Updated 0%nat; Updated 1%nat; SkippedDestroyed 1%nat;
                   SkippedParented 2%nat],
                  false, Some 0%nat, [2%nat], false, [0%nat; 2%nat])) as H
    by (vm_compute; reflexivity).
  rewrite E in H. cbn [option_map fst snd] in H.
  injection H as -> -> -> -> -> ->.
  repeat split.
  intros Hin. repeat (apply elem_of_cons in Hin as [Hin|Hin]; [discriminate|]).
  now apply elem_of_nil in Hin.
Qed.

End SchedulerWitnesses.

(** ** Tile grid: reads, writes and queries *)

Section TileGridFacts.
Import Num Tile.

(** Truncation of a non-negative rational shifted by a non-negative whole
    number. *)
Lemma truncQ_shift k q : 0 <= k -> (0 <= q)%Q -> truncQ (inject_Z k + q) = k + truncQ q.
Proof.
  intros Hk Hq. destruct q as [n d]. unfold truncQ, Qle in *. cbn in *.
  assert (0 <= n) by lia. change (1 * d)%positive with d.
  rewrite !Z.quot_div_nonneg by lia.
  replace (k * Z.pos d + n * 1) with (n + k * Z.pos d) by ring.
  rewrite Z.div_add by lia. lia.
Qed.

Lemma truncQ_bounds q n : (0 <= q)%Q -> (q < inject_Z n)%Q -> 0 <= truncQ q < n.
Proof.
  destruct q as [a d]. unfold truncQ, Qle, Qlt. cbn. intros H0 H1.
  assert (0 <= a) by lia. rewrite Z.quot_div_nonneg by lia.
  split; [apply Z.div_pos; lia|].
  apply Z.div_lt_upper_bound; lia.
Qed.

(** The index of an in-bounds position is [row * width + column] of the
    cell the position lies in. *)
Lemma cellIndex_in_bounds g pos :
  let w := fst (tileCollisionSize g) in
  let h := snd (tileCollisionSize g) in
  V2.arrayCheck pos (tileCollisionSize g) = true -> w * h <= 2^31 ->
  0 <= fst (int pos) < w /\ 0 <= snd (int pos) < h /\
  cellIndex g pos = snd (int pos) * w + fst (int pos).
Proof.
  intros w h Hchk Hsmall. apply arrayCheck_true in Hchk as (Hx0 & Hy0 & Hx1 & Hy1).
  fold w in Hx1. fold h in Hy1.
  pose proof (truncQ_bounds _ _ Hx0 Hx1) as Hx. pose proof (truncQ_bounds _ _ Hy0 Hy1) as Hy.
  assert (w * h <= 2^31) as Hs by exact Hsmall.
  assert (truncQ (vy pos) * w <= (h - 1) * w) as Hrow by (apply Z.mul_le_mono_nonneg_r; lia).
  assert (truncQ (vy pos) * w + truncQ (vx pos) < w * h) as Hlt by lia.
  assert (0 <= truncQ (vy pos) * w) as Hrow0 by (apply Z.mul_nonneg_nonneg; lia).
  unfold int, cellIndex, toInt32. cbn [fst snd]. fold w.
  rewrite (wrap32_small (truncQ (vx pos))) by lia.
  rewrite (wrap32_small (truncQ (vy pos))) by nia.
  rewrite truncQ_shift by (try exact Hx0; nia).
  rewrite wrap32_small by nia. auto.
Qed.



Lemma elem_of_zrange lo hi i : i ∈ zrange lo hi <-> lo <= i <= hi.
Proof.
  unfold zrange. rewrite list_elem_of_fmap. split.
  - intros (k & -> & Hk). apply elem_of_seq in Hk. lia.
  - intros H. exists (Z.to_nat (i - lo)). split; [lia|]. apply elem_of_seq. lia.
Qed.

Lemma lookup_init_grid_in size i :
  0 <= i < fst size * snd size -> tileCollision (initTileCollision size) !! i = Some 0.
Proof.
  intros Hi. destruct (lookup_init_grid size i) as [H|H]; [exact H|].
  exfalso. unfold initTileCollision in H. cbn [tileCollision] in H.
  apply not_elem_of_list_to_map_2 in H. apply H.
  rewrite <- list_fmap_compose. apply list_elem_of_fmap. exists i. split; [reflexivity|].
  apply elem_of_zrange. lia.
Qed.







Lemma wellFormed_init size : wellFormed (initTileCollision size).
Proof.
  intros i. cbn [tileCollisionSize initTileCollision]. split.
  - intros [v Hv]. unfold initTileCollision in Hv. cbn [tileCollision] in Hv.
    apply elem_of_list_to_map_2 in Hv. apply list_elem_of_fmap in Hv as (j & [= -> _] & Hj).
    apply elem_of_zrange in Hj. lia.
  - intros Hi. rewrite lookup_init_grid_in by exact Hi. eauto.
Qed.

Lemma wellFormed_set g pos data :
  fst (tileCollisionSize g) * snd (tileCollisionSize g) <= 2^31 ->
  wellFormed g -> wellFormed (setTileCollisionData g pos data).
Proof.
  intros Hsmall Hwf. unfold setTileCollisionData.
  destruct (V2.arrayCheck pos (tileCollisionSize g)) eqn:Hchk; [|exact Hwf].
  destruct (cellIndex_in_bounds g pos Hchk Hsmall) as (Hx & Hy & Hi).
  intros i. cbn [tileCollisionSize tileCollision].
  destruct (decide (cellIndex g pos = i)) as [<-|Hne].
  - rewrite lookup_insert_eq. split; [intros _|eauto]. rewrite Hi.
    assert (snd (int pos) * fst (tileCollisionSize g)
            <= (snd (tileCollisionSize g) - 1) * fst (tileCollisionSize g))
      by (apply Z.mul_le_mono_nonneg_r; lia).
    assert (0 <= snd (int pos) * fst (tileCollisionSize g)) by (apply Z.mul_nonneg_nonneg; lia).
    lia.
  - rewrite lookup_insert_ne by exact Hne. apply Hwf.
Qed.

Lemma testCell_collidesAt g object x y :
  wellFormed g ->
  fst (tileCollisionSize g) * snd (tileCollisionSize g) <= 2^31 ->
  0 <= x < fst (tileCollisionSize g) ->
  (testCell g object x y = true <-> collidesAt g object x y).
Proof.
  intros Hwf Hsmall Hx. unfold testCell, collidesAt, getTileCollisionData.
  rewrite arrayCheck_ofZ. unfold inBounds. cbn [fst snd tileCollisionSize].
  set (w := fst (tileCollisionSize g)) in *. set (h := snd (tileCollisionSize g)) in *.
  destruct (Z_lt_dec y 0) as [Hneg|Hnn]; [|destruct (Z_lt_dec y h) as [Hlt|Hge]].
  - replace ((0 <=? x) && (x <? w) && (0 <=? y) && (y <? h)) with false by lia.
    assert (tileCollision g !! (y * w + x) = None) as ->.
    { apply eq_None_not_Some. intros Hs. apply Hwf in Hs. fold w h in Hs. nia. }
    split; [discriminate|]. intros (d & [= <-] & Hd & _). congruence.
  - replace ((0 <=? x) && (x <? w) && (0 <=? y) && (y <? h)) with true by lia.
    assert (y * w <= (h - 1) * w) by (apply Z.mul_le_mono_nonneg_r; lia).
    rewrite cellIndex_ofZ by (fold w; lia). fold w.
    destruct (tileCollision g !! (y * w + x)) as [d|].
    + rewrite andb_true_iff, negb_true_iff, Z.eqb_neq. split.
      * intros [Hd Hf]. exists d. split; [reflexivity|]. split; [exact Hd|].
        destruct object; [exact Hf|exact I].
      * intros (d' & [= <-] & Hd & Hf). split; [exact Hd|]. destruct object; [exact Hf|reflexivity].
    + split; [discriminate|]. intros (d & Hd & _). discriminate.
  - replace ((0 <=? x) && (x <? w) && (0 <=? y) && (y <? h)) with false by lia.
    assert (tileCollision g !! (y * w + x) = None) as ->.
    { apply eq_None_not_Some. intros Hs. apply Hwf in Hs. fold w h in Hs.
      assert (h * w <= y * w) by (apply Z.mul_le_mono_nonneg_r; lia). lia. }
    split; [discriminate|]. intros (d & [= <-] & Hd & _). congruence.
Qed.

(** X3: when the columns scanned by [tileCollisionTest] lie inside the grid
    (and the array holds exactly the cells of the grid), the test reports a
    collision exactly when some scanned cell, read with the bounds check of
    [getTileCollisionData], holds a nonzero code that the filter accepts;
    rows outside the grid then count as empty. *)
Theorem tileCollisionTest_within_columns (g : TileGrid) (pos size : Vector2)
    (object : option TileFilter) :
  let minX := toInt32 (vx pos - vx size * (1#2)) in
  let minY := toInt32 (vy pos - vy size * (1#2)) in
  let maxX := toInt32 (vx pos + vx size * (1#2)) in
  let maxY := toInt32 (vy pos + vy size * (1#2)) in
  wellFormed g ->
  fst (tileCollisionSize g) * snd (tileCollisionSize g) <= 2^31 ->
  0 <= minX -> maxX < fst (tileCollisionSize g) ->
  (tileCollisionTest g pos size object = true <->
   exists x y, minX <= x <= maxX /\ minY <= y <= maxY /\ collidesAt g object x y).
Proof.
  intros minX minY maxX maxY Hwf Hsmall Hlo Hhi. unfold tileCollisionTest.
  fold minX minY maxX maxY. rewrite existsb_exists. split.
  - intros (y & Hy & Hrow). apply existsb_exists in Hrow as (x & Hx & Hcell).
    apply list_elem_of_In, elem_of_zrange in Hy. apply list_elem_of_In, elem_of_zrange in Hx.
    exists x, y. split; [exact Hx|]. split; [exact Hy|].
    apply testCell_collidesAt; try assumption. lia.
  - intros (x & y & Hx & Hy & Hc). exists y. split.
    + apply list_elem_of_In, elem_of_zrange. exact Hy.
    + apply existsb_exists. exists x. split.
      * apply list_elem_of_In, elem_of_zrange. exact Hx.
      * apply testCell_collidesAt; try assumption. lia.
Qed.

Lemma tileCollisionTest_within_columns_witness :
  let g := singleCellGrid (4, 3) (2, 1) 1 in
  tileCollisionTest g (vec 2 (-1)) (vec 2 6) None = true <->
  exists x y, 1 <= x <= 3 /\ -4 <= y <= 2 /\ collidesAt g None x y.
Proof.
  apply (tileCollisionTest_within_columns (singleCellGrid (4, 3) (2, 1) 1)
           (vec 2 (-1)) (vec 2 6) None).
  - apply wellFormed_set; [cbn; lia|]. apply wellFormed_init.
  - vm_compute. discriminate.
  - vm_compute. discriminate.
  - vm_compute. reflexivity.
Defined.

(** X4: a hit returned by [tileCollisionRaycast] is the center of a cell
    that lies in the box spanned by the start and end cells and inside the
    grid, and that holds a nonzero code accepted by the filter (positive
    when there is no filter). *)
Theorem raycast_hit_is_cell_of_grid (g : TileGrid) (A B p : Vector2)
    (object : option TileFilter) :
  tileCollisionRaycast g A B object = Some (Some p) ->
  exists c tileData,
    p = cellCenter c /\
    inBox (int A) (int B) c /\
    inBounds g c = true /\
    tileCollision g !! cellIndex g (V2.ofZ (fst c) (snd c)) = Some tileData /\
    tileData <> 0 /\
    match object with
    | None => 0 < tileData
    | Some f => f tileData (V2.ofZ (fst c) (snd c)) = true
    end.
Proof.
  intros Hhit.
  destruct (walk_total (int A) (int B)) as (cells & Hw & _ & _ & Hbox & _).
  rewrite (tileCollisionRaycast_walk _ _ _ _ _ Hw) in Hhit.
  destruct (find (rayAccepts g object) cells) as [c|] eqn:Hfind; [|discriminate].
  injection Hhit as <-. apply find_some in Hfind as [Hin Hacc].
  apply list_elem_of_In in Hin. unfold rayAccepts, getTileCollisionData in Hacc.
  rewrite arrayCheck_ofZ in Hacc.
  change (inBounds {| tileCollision := ∅; tileCollisionSize := tileCollisionSize g |}
            (fst c, snd c)) with (inBounds g c) in Hacc.
  destruct (inBounds g c) eqn:Hb; [|discriminate].
  destruct (tileCollision g !! cellIndex g (V2.ofZ (fst c) (snd c))) as [d|] eqn:Hd;
    [|discriminate].
  apply andb_true_iff in Hacc as [Hnz Hf]. apply negb_true_iff, Z.eqb_neq in Hnz.
  exists c, d. split; [reflexivity|]. split; [now apply Hbox|]. split; [exact Hb|].
  split; [exact Hd|]. split; [exact Hnz|].
  destruct object; [exact Hf|lia].
Qed.

Lemma raycast_hit_is_cell_of_grid_witness :
  exists c tileData,
    vec (5#2) (3#2) = cellCenter c /\
    inBox (int (vec (-2) (-1))) (int (vec 6 3)) c /\
    inBounds (singleCellGrid (5, 3) (2, 1) 1) c = true /\
    tileCollision (singleCellGrid (5, 3) (2, 1) 1)
      !! cellIndex (singleCellGrid (5, 3) (2, 1) 1) (V2.ofZ (fst c) (snd c)) = Some tileData /\
    tileData <> 0 /\ 0 < tileData.
Proof.
  apply (raycast_hit_is_cell_of_grid (singleCellGrid (5, 3) (2, 1) 1)
           (vec (-2) (-1)) (vec 6 3) (vec (5#2) (3#2)) None).
  vm_compute. reflexivity.
Defined.

End TileGridFacts.

(** ** Numeric helpers *)

Section HelperFacts.
Import Num.
Local Open Scope Q_scope.

Lemma clamp_cases v hi lo :
  (v < lo /\ clamp v hi lo = lo) \/
  (lo <= v /\ hi < v /\ clamp v hi lo = hi) \/
  (lo <= v <= hi /\ clamp v hi lo = v).
Proof.
  unfold clamp, Qgtb.
  destruct (Qltb v lo) eqn:E1.
  - apply Qltb_lt in E1. auto.
  - apply Qltb_ge in E1. destruct (Qltb hi v) eqn:E2.
    + apply Qltb_lt in E2. auto.
    + apply Qltb_ge in E2. auto.
Qed.

Lemma clamp_range v hi lo : lo <= hi -> lo <= clamp v hi lo <= hi.
Proof.
  intros Hle. destruct (clamp_cases v hi lo) as [[H ->]|[(H1 & H2 & ->)|[H ->]]]; lra.
Qed.

(** X5: with [min <= max], [clamp] returns a value in [[min, max]], is
    idempotent, and leaves exactly the values of [[min, max]] unchanged. *)
Theorem clamp_within_limits (v max min : Q) :
  min <= max ->
  min <= clamp v max min <= max /\
  clamp (clamp v max min) max min = clamp v max min /\
  (clamp v max min = v <-> min <= v <= max).
Proof.
  intros Hle. destruct (clamp_cases v max min) as [[H ->]|[(H1 & H2 & ->)|[H ->]]].
  - split; [lra|]. split; [apply clamp_id; lra|]. split; [intros <-; lra|intros ?; exfalso; lra].
  - split; [lra|]. split; [apply clamp_id; lra|]. split; [intros <-; lra|intros ?; exfalso; lra].
  - split; [lra|]. split; [apply clamp_id; lra|]. split; [intros _; lra|reflexivity].
Qed.

Lemma clamp_within_limits_witness :
  -1 <= clamp (5#2) 1 (-1) <= 1 /\
  clamp (clamp (5#2) 1 (-1)) 1 (-1) = clamp (5#2) 1 (-1) /\
  (clamp (5#2) 1 (-1) = 5#2 <-> -1 <= 5#2 <= 1).
Proof. apply (clamp_within_limits (5#2) 1 (-1)). vm_compute. discriminate. Defined.

Lemma Qeq_bool_false_ne a b : ~ a == b -> Qeq_bool (a - b) 0 = false.
Proof.
  intros H. apply not_true_is_false. intros E. apply Qeq_bool_iff in E. apply H. lra.
Qed.

Lemma ratio_bounds v hi lo :
  ~ hi == lo -> (lo <= v <= hi \/ hi <= v <= lo) -> 0 <= (v - lo) / (hi - lo) <= 1.
Proof.
  intros Hne Hv.
  destruct (Qlt_le_dec lo hi) as [L|L].
  - assert (lo <= v <= hi) as [H1 H2] by lra.
    split.
    + apply Qle_shift_div_l; lra.
    + apply Qle_shift_div_r; lra.
  - assert (hi < lo) as L' by (destruct (Qeq_dec hi lo); [tauto|lra]).
    assert (hi <= v <= lo) as [H1 H2] by lra.
    assert ((v - lo) / (hi - lo) == (lo - v) / (lo - hi)) as -> by (field; lra).
    split.
    + apply Qle_shift_div_l; lra.
    + apply Qle_shift_div_r; lra.
Qed.

(** X6: with [max] and [min] different (in either order), [percent] lies
    in [[0, 1]], [lerp] undoes [percent] on the values between [min] and
    [max], [percent] undoes [lerp] on [[0, 1]], and [percent] is 0 at [min]
    and 1 at [max]. *)
Theorem percent_lerp_inverse (v p max min : Q) :
  ~ max == min ->
  0 <= percent v max min <= 1 /\
  (min <= v <= max \/ max <= v <= min -> lerp (percent v max min) max min == v) /\
  (0 <= p <= 1 -> percent (lerp p max min) max min == p) /\
  percent min max min == 0 /\ percent max max min == 1.
Proof.
  intros Hne. unfold percent. rewrite (Qeq_bool_false_ne _ _ Hne).
  assert (forall x, 0 <= clamp x 1 0 <= 1) as Hrange.
  { intros x. apply clamp_range. lra. }
  split; [apply Hrange|]. split; [|split; [|split]].
  - intros Hv. unfold lerp. pose proof (ratio_bounds v max min Hne Hv) as Hr.
    rewrite !(clamp_id _ 0 1) by (try apply Hrange; exact Hr).
    field. lra.
  - intros Hp. unfold lerp. rewrite (clamp_id p 0 1) by exact Hp.
    assert ((min + p * (max - min) - min) / (max - min) == p) as E by (field; lra).
    rewrite clamp_id; [exact E|]. rewrite E. exact Hp.
  - assert ((min - min) / (max - min) == 0) as E by (field; lra).
    rewrite clamp_id; [exact E|]. rewrite E. lra.
  - assert ((max - min) / (max - min) == 1) as E by (field; lra).
    rewrite clamp_id; [exact E|]. rewrite E. lra.
Qed.

Lemma percent_lerp_inverse_witness :
  0 <= percent (3#4) 0 3 <= 1 /\
  lerp (percent (3#4) 0 3) 0 3 == 3#4 /\
  percent (lerp (1#4) 0 3) 0 3 == 1#4 /\
  percent 3 0 3 == 0 /\ percent 0 0 3 == 1.
Proof.
  destruct (percent_lerp_inverse (3#4) (1#4) 0 3) as (H1 & H2 & H3 & H4 & H5).
  { vm_compute. discriminate. }
  split; [exact H1|]. split; [apply H2; right; split; vm_compute; discriminate|].
  split; [apply H3; split; vm_compute; discriminate|]. split; [exact H4|exact H5].
Defined.

(** X7: [isOverlapping] does not depend on the order of the two boxes; a
    box overlaps itself exactly when both its sides are positive; two
    overlapping boxes have their centers closer than half the sum of
    their sizes on both axes. *)
Theorem isOverlapping_symmetric (pA sA pB sB : Vector2) :
  V2.isOverlapping pA sA pB sB = V2.isOverlapping pB sB pA sA /\
  (V2.isOverlapping pA sA pA sA = true <-> 0 < vx sA /\ 0 < vy sA) /\
  (V2.isOverlapping pA sA pB sB = true ->
   - (vx sA + vx sB) < 2 * (vx pA - vx pB) < vx sA + vx sB /\
   - (vy sA + vy sB) < 2 * (vy pA - vy pB) < vy sA + vy sB).
Proof.
  assert (forall a b s t, Qltb (abs (a - b) * 2) (s + t) = true
                          <-> - (s + t) < 2 * (a - b) < s + t) as Habs.
  { intros a b s t. rewrite Qltb_lt. unfold abs.
    destruct (Qltb (a - b) 0) eqn:E; [apply Qltb_lt in E|apply Qltb_ge in E]; lra. }
  assert (forall pA sA pB sB, V2.isOverlapping pA sA pB sB = true <->
            (- (vx sA + vx sB) < 2 * (vx pA - vx pB) < vx sA + vx sB /\
             - (vy sA + vy sB) < 2 * (vy pA - vy pB) < vy sA + vy sB)) as Hov.
  { intros. unfold V2.isOverlapping. rewrite andb_true_iff, !Habs. tauto. }
  split; [|split].
  - destruct (V2.isOverlapping pA sA pB sB) eqn:E1, (V2.isOverlapping pB sB pA sA) eqn:E2;
      try reflexivity; exfalso.
    + apply Hov in E1. apply not_true_iff_false in E2. apply E2, Hov. lra.
    + apply Hov in E2. apply not_true_iff_false in E1. apply E1, Hov. lra.
  - rewrite Hov. lra.
  - apply Hov.
Qed.

End HelperFacts.

(** ** Timer *)

Section TimerFacts.
Import Num.
Local Open Scope Q_scope.

(** X8: a timer set to [timeLeft] at time [start], looked at [d >= 0]
    later: it is set; it is active exactly while [d <= timeLeft] and
    elapsed exactly when [d > timeLeft], never both; [get] is
    [d - timeLeft]; for a positive [timeLeft], [getPercent] is [d / timeLeft]
    clamped to [[0, 1]].  After [unset] the timer is neither set, active
    nor elapsed, and [get] and [getPercent] are 0. *)
Theorem timer_after_set (start d timeLeft : Q) (t : Timer) :
  0 <= d ->
  let t' := Timers.set start timeLeft t in
  let now := start + d in
  Timers.isSet t' = true /\
  (Timers.active now t' = true <-> d <= timeLeft) /\
  (Timers.elapsed now t' = true <-> timeLeft < d) /\
  Timers.elapsed now t' = negb (Timers.active now t') /\
  Timers.get now t' == d - timeLeft /\
  (0 < timeLeft -> Timers.getPercent now t' == clamp (d / timeLeft) 1 0) /\
  (0 < timeLeft -> d <= timeLeft -> Timers.getPercent now t' == d / timeLeft) /\
  (0 < timeLeft -> timeLeft <= d -> Timers.getPercent now t' == 1) /\
  Timers.isSet (Timers.unset t') = false /\
  Timers.active now (Timers.unset t') = false /\
  Timers.elapsed now (Timers.unset t') = false /\
  Timers.get now (Timers.unset t') = 0 /\
  Timers.getPercent now (Timers.unset t') = 0.
Proof.
  intros Hd t' now. unfold t', now, Timers.set, Timers.isSet, Timers.active, Timers.elapsed,
    Timers.get, Timers.getPercent, Timers.unset. cbn.
  assert (Qle_bool (start + d) (start + timeLeft) = true <-> d <= timeLeft) as Hact.
  { rewrite Qle_bool_iff. split; intros; lra. }
  assert (Qgtb (start + d) (start + timeLeft) = true <-> timeLeft < d) as Hel.
  { unfold Qgtb. rewrite Qltb_lt. split; intros; lra. }
  assert (0 < timeLeft ->
            percent (start + timeLeft - (start + d)) 0 timeLeft
            == clamp (d / timeLeft) 1 0) as Hp.
  { intros Ht. unfold percent.
    replace (Qeq_bool (0 - timeLeft) 0) with false.
    2:{ symmetry. apply not_true_is_false. intros E. apply Qeq_bool_iff in E. lra. }
    assert ((start + timeLeft - (start + d) - timeLeft) / (0 - timeLeft) == d / timeLeft) as E
      by (field; lra).
    destruct (clamp_cases ((start + timeLeft - (start + d) - timeLeft) / (0 - timeLeft)) 1 0)
      as [[H ->]|[(H1 & H2 & ->)|[H ->]]];
    destruct (clamp_cases (d / timeLeft) 1 0) as [[H' ->]|[(H1' & H2' & ->)|[H' ->]]];
    rewrite ?E in *; try reflexivity; try exact E; exfalso; lra. }
  split; [reflexivity|]. split; [exact Hact|]. split; [exact Hel|]. split.
  { destruct Hact as [A1 A2], Hel as [B1 B2].
    destruct (Qle_bool (start + d) (start + timeLeft)), (Qgtb (start + d) (start + timeLeft));
      try reflexivity; exfalso.
    - specialize (A1 eq_refl). specialize (B1 eq_refl). lra.
    - destruct (Qlt_le_dec timeLeft d) as [L|L];
        [specialize (B2 L)|specialize (A2 L)]; discriminate. }
  split; [ring|]. split; [exact Hp|]. split.
  { intros Ht Hle. rewrite (Hp Ht). rewrite clamp_id; [reflexivity|].
    split.
    - apply Qle_shift_div_l; lra.
    - apply Qle_shift_div_r; lra. }
  split.
  { intros Ht Hle. rewrite (Hp Ht).
    destruct (clamp_cases (d / timeLeft) 1 0) as [[H ->]|[(H1 & H2 & ->)|[[H1 H2] ->]]].
    - exfalso. assert (0 <= d / timeLeft) by (apply Qle_shift_div_l; lra). lra.
    - reflexivity.
    - assert (1 <= d / timeLeft) by (apply Qle_shift_div_l; lra). lra. }
  repeat split.
Qed.

Lemma timer_after_set_witness :
  let t' := Timers.set 10 2 (Timers.new 0 None) in
  Timers.active (10 + 1) t' = true /\
  Timers.elapsed (10 + 1) t' = false /\
  Timers.get (10 + 1) t' == - (1) /\
  Timers.getPercent (10 + 1) t' == 1#2.
Proof.
  destruct (timer_after_set 10 1 2 (Timers.new 0 None))
    as (_ & H1 & _ & H2 & H3 & _ & H4 & _); [vm_compute; discriminate|].
  cbv zeta in *.
  assert (Timers.active (10 + 1) (Timers.set 10 2 (Timers.new 0 None)) = true) as Ha
    by (apply H1; vm_compute; discriminate).
  split; [exact Ha|]. split; [rewrite H2, Ha; reflexivity|]. split; [exact H3|].
  rewrite H4; [reflexivity|reflexivity|vm_compute; discriminate].
Defined.

End TimerFacts.

(** ** Attaching and detaching *)

Section AttachFacts.
Import Num Hierarchy.



Lemma splice1_minus_one l : splice1 (-1) l = removelast l.
Proof.
  unfold splice1. cbn [Z.ltb Z.compare].
  induction l as [|x l IH] using rev_ind.
  - reflexivity.
  - rewrite removelast_last, length_app. cbn [List.length].
    replace (Z.to_nat (Z.max (Z.of_nat (List.length l + 1) + -1) 0)) with (List.length l) by lia.
    rewrite take_app_length.
    rewrite drop_ge by (rewrite length_app; cbn; lia). apply app_nil_r.
Qed.



(** X10: [removeChild(child)] on an object that does not list [child]
    (its assertion does nothing in this build): [indexOf] gives -1 and
    [splice(-1, 1)] removes the last entry of the children array, while
    [child.parent] is cleared; the dropped object keeps its parent
    reference, so it is no longer listed by the parent it points to. *)
Theorem removeChild_of_stranger_drops_last (w : World) (this child : id) :
  is_Some (heap w !! this) ->
  child ∉ children (getObj w this) ->
  let w' := removeChild this child w in
  children (getObj w' this) = removelast (children (getObj w this)) /\
  parent (getObj w' child) = None /\
  (forall x, x <> this -> children (getObj w' x) = children (getObj w x)) /\
  (forall x, x <> child -> parent (getObj w' x) = parent (getObj w x)) /\
  (forall c, last (children (getObj w this)) = Some c -> c <> child ->
     c ∉ removelast (children (getObj w this)) ->
     (c ∉ children (getObj w' this)) /\ parent (getObj w' c) = parent (getObj w c)).
Proof.
  intros Hthis Hnot w'.
  assert (children (getObj w' this) = removelast (children (getObj w this))) as Hch.
  { unfold w'. rewrite children_removeChild. rewrite decide_True by auto.
    destruct (indexOf_spec child (children (getObj w this))) as [[Hin _]|[_ ->]]; [tauto|].
    apply splice1_minus_one. }
  assert (forall x, x <> child -> parent (getObj w' x) = parent (getObj w x)) as Hpar.
  { intros x Hx. unfold w'. rewrite parent_removeChild. now rewrite decide_False. }
  split; [exact Hch|]. split; [|split; [|split]].
  - unfold w'. rewrite parent_removeChild. now rewrite decide_True.
  - intros x Hx. unfold w'. rewrite children_removeChild.
    rewrite decide_False by tauto. reflexivity.
  - exact Hpar.
  - intros c Hlast Hne Hnd. rewrite Hch. split; [exact Hnd|]. now apply Hpar.
Qed.

Lemma removeChild_of_stranger_drops_last_witness :
  let w := Examples.family in
  let w' := removeChild 0%nat 0%nat w in
  children (getObj w 0%nat) = [1%nat; 2%nat] /\
  children (getObj w' 0%nat) = [1%nat] /\
  parent (getObj w' 2%nat) = Some 0%nat.
Proof.
  destruct (removeChild_of_stranger_drops_last Examples.family 0%nat 0%nat)
    as (H1 & _ & _ & H2 & _).
  - vm_compute. eauto.
  - vm_compute. intros H. apply elem_of_cons in H as [H|H]; [discriminate|].
    apply elem_of_cons in H as [H|H]; [discriminate|]. now apply elem_of_nil in H.
  - cbv zeta. split; [reflexivity|]. split; [rewrite H1; reflexivity|].
    rewrite H2 by discriminate. reflexivity.
Defined.

End AttachFacts.

(** ** The registry of colliding objects *)

Section RegistryFacts.
Import Num Hierarchy Physics.

(** X11: [setCollision] keeps the registry of colliding objects in step
    with the flag: when [engineCollideObjects] has no duplicates and holds
    exactly the objects whose [collideSolidObjects] is set, the same is
    true after the call; the object is listed afterwards exactly when the
    new flag is set, the three flags are as given, and no other object and
    no other registry entry changes. *)
Theorem setCollision_keeps_registry (w : World) (this : id)
    (collideSolidObjects' isSolid' collideTiles' : bool) :
  is_Some (heap w !! this) ->
  NoDup (engineCollideObjects w) ->
  (forall o, o ∈ engineCollideObjects w <-> collideSolidObjects (getObj w o) = true) ->
  let w' := setCollision this collideSolidObjects' isSolid' collideTiles' w in
  NoDup (engineCollideObjects w') /\
  (forall o, o ∈ engineCollideObjects w' <-> collideSolidObjects (getObj w' o) = true) /\
  (this ∈ engineCollideObjects w' <-> collideSolidObjects' = true) /\
  (forall o, o <> this -> (o ∈ engineCollideObjects w' <-> o ∈ engineCollideObjects w)) /\
  collideSolidObjects (getObj w' this) = collideSolidObjects' /\
  isSolid (getObj w' this) = isSolid' /\
  collideTiles (getObj w' this) = collideTiles' /\
  (forall o, o <> this -> heap w' !! o = heap w !! o) /\
  engineObjects w' = engineObjects w.
Proof.
  intros [T HT] Hnd Hreg w'.
  set (f := fun o => set_collideTiles collideTiles'
                       (set_isSolid isSolid' (set_collideSolidObjects collideSolidObjects' o))).
  assert (forall l, getObj (modify this f (set_engineCollideObjects l w)) this = f T) as Hget.
  { intros l. apply getObj_lookup. unfold modify. cbn. rewrite lookup_alter_eq, HT. reflexivity. }
  assert (forall l o, o <> this ->
            getObj (modify this f (set_engineCollideObjects l w)) o = getObj w o) as Hother.
  { intros l o Ho. unfold getObj, modify. cbn. rewrite !lookup_total_alt.
    rewrite lookup_alter_ne by congruence. reflexivity. }
  assert (set_engineCollideObjects (engineCollideObjects w) w = w) as Hsame by now destruct w.
  assert (exists l, w' = modify this f (set_engineCollideObjects l w) /\
            NoDup l /\
            (this ∈ l <-> collideSolidObjects' = true) /\
            (forall o, o <> this -> (o ∈ l <-> o ∈ engineCollideObjects w))) as (l & Hw' & Hl & Hin & Hout).
  { unfold w', setCollision. fold f. rewrite (getObj_lookup _ _ _ HT).
    pose proof (Hreg this) as Hflag. rewrite (getObj_lookup _ _ _ HT) in Hflag.
    destruct collideSolidObjects', (collideSolidObjects T) eqn:E; cbn [andb negb].
    - exists (engineCollideObjects w). rewrite Hsame. split; [reflexivity|].
      split; [exact Hnd|]. split; [tauto|tauto].
    - exists (engineCollideObjects w ++ [this]). split; [reflexivity|].
      assert (this ∉ engineCollideObjects w) as Hn by (rewrite Hflag; discriminate).
      split; [|split].
      + apply NoDup_app. split; [exact Hnd|]. split; [|apply NoDup_singleton].
        intros x Hx Hx'. apply list_elem_of_singleton in Hx'. congruence.
      + split; [reflexivity|]. intros _. apply elem_of_app. right. now apply list_elem_of_singleton.
      + intros o Ho. rewrite elem_of_app, list_elem_of_singleton. tauto.
    - exists (splice1 (indexOf this (engineCollideObjects w)) (engineCollideObjects w)).
      split; [reflexivity|].
      assert (this ∈ engineCollideObjects w) as Hi by now apply Hflag.
      split; [now apply splice1_NoDup|]. split.
      + rewrite (splice1_indexOf_elem_of _ _ _ Hnd Hi). split; [tauto|discriminate].
      + intros o Ho. rewrite (splice1_indexOf_elem_of _ _ _ Hnd Hi). tauto.
    - exists (engineCollideObjects w). rewrite Hsame. split; [reflexivity|].
      split; [exact Hnd|]. split; [|tauto].
      rewrite Hflag. split; discriminate. }
  rewrite Hw'. cbn [engineCollideObjects modify set_heap set_engineCollideObjects engineObjects].
  split; [exact Hl|]. split; [|split; [exact Hin|split; [exact Hout|]]].
  - intros o. destruct (decide (o = this)) as [->|Hne].
    + rewrite Hget. cbn. exact Hin.
    + rewrite (Hother l o Hne). rewrite (Hout o Hne). apply Hreg.
  - rewrite Hget. split; [reflexivity|]. split; [reflexivity|]. split; [reflexivity|].
    split; [|reflexivity].
    intros o Ho. cbn. apply lookup_alter_ne. congruence.
Qed.

Lemma setCollision_keeps_registry_witness :
  let w' := setCollision 1%nat true true true Examples.threeObjects in
  engineCollideObjects w' = [1%nat] /\
  NoDup (engineCollideObjects w') /\
  (forall o, o ∈ engineCollideObjects w' <-> collideSolidObjects (getObj w' o) = true) /\
  isSolid (getObj w' 1%nat) = true.
Proof.
  destruct (setCollision_keeps_registry Examples.threeObjects 1%nat true true true)
    as (H1 & H2 & _ & _ & _ & H3 & _).
  - vm_compute. eauto.
  - apply NoDup_nil_2.
  - intros o. assert (collideSolidObjects (getObj Examples.threeObjects o) = false) as ->.
    { assert (map_Forall (fun _ e => collideSolidObjects e = false) (heap Examples.threeObjects))
        as Hall.
      { apply map_Forall_to_list. vm_compute. repeat constructor. }
      destruct (heap Examples.threeObjects !! o) as [e|] eqn:E.
      - rewrite (getObj_lookup _ _ _ E). exact (Hall o e E).
      - rewrite (getObj_absent _ _ E). reflexivity. }
    split; [|discriminate]. intros H. now apply elem_of_nil in H.
  - cbv zeta. split; [reflexivity|]. split; [exact H1|]. split; [exact H2|exact H3].
Defined.

End RegistryFacts.

(** ** What [update()] can reach *)

Section UpdateLocality.
Import Num Hierarchy Physics.
Local Open Scope Q_scope.

Variable Math_random : nat -> Q.
Variables Math_sin Math_cos Math_sqrt : Q -> Q.
Variable PI : Q.
Variable collideWithObject : World -> id -> id -> bool.
Variable collideWithTile : id -> Tile.TileFilter.

Local Abbreviation update :=
  (update Math_random Math_sin Math_cos Math_sqrt PI collideWithObject collideWithTile).

Lemma sameConstants_refl e : sameConstants e e.
Proof. unfold sameConstants. repeat split. Qed.

Lemma sameConstants_trans e1 e2 e3 :
  sameConstants e1 e2 -> sameConstants e2 e3 -> sameConstants e1 e3.
Proof. unfold sameConstants. intuition congruence. Qed.

Lemma touches_refl this l w : touches this l w w.
Proof.
  unfold touches. repeat (split; [reflexivity|]). split; [|reflexivity].
  intros x. apply sameConstants_refl.
Qed.

Lemma touches_trans this l w1 w2 w3 :
  touches this l w1 w2 -> touches this l w2 w3 -> touches this l w1 w3.
Proof.
  intros (A1 & B1 & C1 & D1 & E1 & F1 & G1) (A2 & B2 & C2 & D2 & E2 & F2 & G2).
  unfold touches. repeat (split; [congruence|]). split.
  - intros x. eapply sameConstants_trans; [apply F1|apply F2].
  - intros x Hx Hl. rewrite G2, G1 by assumption. reflexivity.
Qed.

Lemma touches_modify this l w w1 o f :
  touches this l w w1 ->
  o = this \/ o ∈ l ->
  (forall e, sameConstants e (f e)) ->
  touches this l w (modify o f w1).
Proof.
  intros H Ho Hf. eapply touches_trans; [exact H|].
  unfold touches. repeat (split; [reflexivity || apply dom_heap_modify|]). split.
  - intros x. rewrite getObj_modify.
    destruct (decide _) as [[<- _]|_]; [apply Hf|apply sameConstants_refl].
  - intros x Hx Hl. apply heap_modify_other. intros <-. tauto.
Qed.

Lemma touches_randomCalls this l w w1 n :
  touches this l w w1 -> touches this l w (set_randomCalls n w1).
Proof.
  intros H. eapply touches_trans; [exact H|].
  unfold touches. repeat (split; [reflexivity|]). split; [|reflexivity].
  intros x. apply sameConstants_refl.
Qed.

Ltac touch :=
  repeat first
    [ eassumption
    | apply touches_refl
    | apply touches_modify;
        [|solve [auto]|intros ?; unfold sameConstants; repeat split; reflexivity]
    | apply touches_randomCalls
    | match goal with
      | |- context [if ?b then _ else _] => destruct b
      | |- context [match ?x with _ => _ end] => destruct x
      end ].

Lemma pushAway_touches this l w w1 oldPos o :
  o ∈ l -> touches this l w w1 ->
  touches this l w (pushAway Math_random Math_sin Math_cos Math_sqrt PI oldPos this o w1).
Proof. intros Ho H. unfold pushAway. touch. Qed.

Lemma resolveY_touches this l w w1 oldPos wmd sy o :
  o ∈ l -> touches this l w w1 -> touches this l w (resolveY oldPos wmd sy this o w1).
Proof. intros Ho H. unfold resolveY. touch. Qed.

Lemma resolveX_touches this l w w1 oldPos sx o :
  o ∈ l -> touches this l w w1 -> touches this l w (resolveX oldPos sx this o w1).
Proof. intros Ho H. unfold resolveX. touch. Qed.

Lemma collideWithSolid_touches this l w w1 oldPos wmd o :
  o ∈ l -> touches this l w w1 ->
  touches this l w (collideWithSolid Math_random Math_sin Math_cos Math_sqrt PI
                      collideWithObject oldPos wmd this w1 o).
Proof.
  intros Ho H. unfold collideWithSolid.
  destruct (pairCollides _ _ _ _); [|exact H].
  destruct (V2.isOverlapping _ _ _ _); [now apply pushAway_touches|].
  unfold resolvePair.
  destruct (resolvesX _ _ _), (resolvesY _ _ _);
    repeat first [apply resolveX_touches | apply resolveY_touches | exact H | exact Ho].
Qed.

Lemma collideLoop_touches this l oldPos wmd l' : forall w w1,
  (forall o, o ∈ l' -> o ∈ l) -> touches this l w w1 ->
  touches this l w (fold_left (collideWithSolid Math_random Math_sin Math_cos Math_sqrt PI
                                 collideWithObject oldPos wmd this) l' w1).
Proof.
  induction l' as [|o l' IH]; intros w w1 Hsub H; cbn [fold_left]; [exact H|].
  apply IH.
  - intros o' Ho'. apply Hsub. apply elem_of_cons. now right.
  - apply collideWithSolid_touches; [|exact H]. apply Hsub. apply elem_of_cons. now left.
Qed.

Lemma collideWithTiles_touches this l w w1 oldPos wmd :
  touches this l w w1 ->
  touches this l w (collideWithTiles collideWithTile oldPos wmd this w1).
Proof. intros H. unfold collideWithTiles. touch. Qed.

Lemma applyFriction_touches this l w w1 :
  touches this l w w1 -> touches this l w (applyFriction this w1).
Proof. intros H. unfold applyFriction. touch. Qed.

(** X12: [update()] with hooks that only answer (as those of the base
    class) is local: it leaves the registries, the grid and the frame
    counter alone, creates and removes no object, and never writes the
    size, mirror flag, mass, damping, elasticity, friction, gravity scale,
    collision flags, parent, children, local offset or destroyed flag of
    any object; an object other than [this] that is not in
    [engineCollideObjects] is unchanged, and when [this] has a parent, has
    mass 0 or does not collide with objects, every object other than
    [this] is unchanged. *)
Theorem update_is_local (w : World) (this : id) :
  let w' := update this w in
  engineObjects w' = engineObjects w /\
  engineCollideObjects w' = engineCollideObjects w /\
  grid w' = grid w /\ frame w' = frame w /\
  dom (heap w') = dom (heap w) /\
  (forall x, sameConstants (getObj w x) (getObj w' x)) /\
  (forall x, x <> this -> x ∉ engineCollideObjects w -> heap w' !! x = heap w !! x) /\
  (forall x, x <> this ->
     (is_Some (parent (getObj w this)) \/ Qeq_bool (mass (getObj w this)) 0 = true
      \/ collideSolidObjects (getObj w this) = false) ->
     heap w' !! x = heap w !! x).
Proof.
  intros w'.
  assert (touches this (engineCollideObjects w) w w' /\
          ((is_Some (parent (getObj w this)) \/ Qeq_bool (mass (getObj w this)) 0 = true
            \/ collideSolidObjects (getObj w this) = false) ->
           touches this [] w w')) as [H H0].
  { unfold w', Physics.update. destruct (parent (getObj w this)) as [p|] eqn:Hp.
    - unfold updateParented. split; [touch|intros _; touch].
    - unfold updateRoot.
      assert (forall l, touches this l w (modify this integrate w)) as H1.
      { intros l. apply touches_modify; [apply touches_refl|now left|].
        intros e. unfold sameConstants. repeat split. }
      assert (mass (getObj (modify this integrate w) this) = mass (getObj w this)) as Hm
        by (apply (getObj_modify_frame mass); reflexivity).
      rewrite Hm.
      destruct (Qeq_bool (mass (getObj w this)) 0) eqn:Hmass;
        [split; [apply H1|intros _; apply H1]|].
      assert (forall l, touches this l w (applyFriction this (modify this integrate w))) as H2
        by (intros l; apply applyFriction_touches, H1).
      set (w2 := applyFriction this (modify this integrate w)) in *.
      assert (collideSolidObjects (getObj w2 this) = collideSolidObjects (getObj w this)) as Hc.
      { destruct (H2 []) as (_ & _ & _ & _ & _ & Hk & _). apply Hk. }
      assert (engineCollideObjects w2 = engineCollideObjects w) as Hreg.
      { destruct (H2 []) as (_ & Hk & _). exact Hk. }
      rewrite Hc, Hreg.
      destruct (collideSolidObjects (getObj w this)) eqn:Hcs.
      + split.
        * assert (touches this (engineCollideObjects w) w
                    (fold_left (collideWithSolid Math_random Math_sin Math_cos Math_sqrt PI
                       collideWithObject (V2.copy (pos (getObj w this)))
                       (Qltb (vy (velocity (getObj (modify this integrate w) this))) 0) this)
                     (engineCollideObjects w) w2)) as H3
            by (apply collideLoop_touches; [auto|apply H2]).
          destruct (collideTiles _); [now apply collideWithTiles_touches|exact H3].
        * intros [[? [=]]|[?|?]]; discriminate.
      + split; (try intros _);
          (destruct (collideTiles _); [apply collideWithTiles_touches, H2|apply H2]). }
  destruct H as (A & B & C & D & E & F & G).
  split; [exact A|]. split; [exact B|]. split; [exact C|]. split; [exact D|].
  split; [exact E|]. split; [exact F|]. split; [exact G|].
  intros x Hx Hcase. destruct (H0 Hcase) as (_ & _ & _ & _ & _ & _ & G0).
  apply G0; [exact Hx|apply not_elem_of_nil].
Qed.

End UpdateLocality.

(** ** The integration step *)

Section IntegrateFacts.
Import Num Physics.
Local Open Scope Q_scope.

(** X13: the integration step keeps the speed within the limit: with a
    non-negative damping, the new x velocity lies within
    [damping * maxObjectSpeed] of 0 and the new y velocity within
    [damping * maxObjectSpeed] of [gravity * gravityScale], whatever the
    velocity was; the position advances by the new velocity and the angle
    by the new angular velocity. *)
Theorem integrate_speed_limit (o : EngineObject) :
  0 <= damping o ->
  let o' := integrate o in
  - (damping o * maxObjectSpeed) <= vx (velocity o') <= damping o * maxObjectSpeed /\
  gravity * gravityScale o - damping o * maxObjectSpeed <= vy (velocity o')
    <= gravity * gravityScale o + damping o * maxObjectSpeed /\
  vx (pos o') == vx (pos o) + vx (velocity o') /\
  vy (pos o') == vy (pos o) + vy (velocity o') /\
  angleVelocity o' == angleVelocity o * angleDamping o /\
  angle o' == angle o + angleVelocity o'.
Proof.
  intros Hd o'. unfold o', integrate, maxObjectSpeed. cbn.
  pose proof (clamp_range (vx (velocity o)) 1 (- (1)) ltac:(lra)) as Hx.
  pose proof (clamp_range (vy (velocity o)) 1 (- (1)) ltac:(lra)) as Hy.
  set (cx := clamp (vx (velocity o)) 1 (- (1))) in *.
  set (cy := clamp (vy (velocity o)) 1 (- (1))) in *.
  assert (0 <= damping o * (1 - cx)) as Hx1 by (apply Qmult_le_0_compat; lra).
  assert (0 <= damping o * (cx + 1)) as Hx2 by (apply Qmult_le_0_compat; lra).
  assert (0 <= damping o * (1 - cy)) as Hy1 by (apply Qmult_le_0_compat; lra).
  assert (0 <= damping o * (cy + 1)) as Hy2 by (apply Qmult_le_0_compat; lra).
  repeat split; try reflexivity; lra.
Qed.

Lemma integrate_speed_limit_witness :
  let o := set_velocity (vec 5 (-7)) Examples.fixedObject in
  let o' := integrate o in
  - ((99#100) * 1) <= vx (velocity o') <= (99#100) * 1 /\
  vx (velocity o') == 99#100 /\ vy (velocity o') == - (1) /\
  vx (pos o') == 99#100 /\ vy (pos o') == - (1).
Proof.
  destruct (integrate_speed_limit (set_velocity (vec 5 (-7)) Examples.fixedObject))
    as (H1 & _); [vm_compute; discriminate|].
  cbv zeta. split; [exact H1|]. repeat split; vm_compute; reflexivity.
Defined.

End IntegrateFacts.
